(** * go-msvc/config: a shallow embedding and its verified properties

    The development follows the Go sources of the repository:
    - [Regexp], [Reference]: the reference grammar (regular expressions of
      the [config] package, [validName], [validReference], [flagConfigure]);
    - [Chain]: the provider chain ([sources.getValue], [sources.Get]);
    - [Binder]: the configurable ([Add], [configurable.load], [Notify],
      [configValue.use], [configValue.cleanup]);
    - [Legacy]: the registry driven [Load] with [RegisterConstructor]. *)

From Stdlib Require Import ZArith String Ascii List Bool Lia.
From stdpp Require Import base option list gmap sets strings.
Import ListNotations.

Local Open Scope string_scope.
Local Open Scope list_scope.
Set Warnings "-register-all".

(** ** Regular expressions, as far as the package uses them *)

Module Regexp.

(** A character class is a list of inclusive ranges, as in [[a-zA-Z0-9_-]];
    a single character is the range from itself to itself. *)
Definition class := list (ascii * ascii).

Inductive regexp : Type :=
| Void
| Empty
| Class (cl : class)
| Concat (r1 r2 : regexp)
| Alternate (r1 r2 : regexp)
| Star (r : regexp).

Definition in_range (c : ascii) (rg : ascii * ascii) : bool :=
  (N.leb (N_of_ascii (fst rg)) (N_of_ascii c)) && (N.leb (N_of_ascii c) (N_of_ascii (snd rg))).

Definition in_class (cl : class) (c : ascii) : bool := existsb (in_range c) cl.

(** The language of an expression. *)
Inductive matches : regexp -> list ascii -> Prop :=
| MEmpty : matches Empty []
| MClass cl c : in_class cl c = true -> matches (Class cl) [c]
| MConcat r1 r2 s1 s2 :
    matches r1 s1 -> matches r2 s2 -> matches (Concat r1 r2) (s1 ++ s2)
| MAltL r1 r2 s : matches r1 s -> matches (Alternate r1 r2) s
| MAltR r1 r2 s : matches r2 s -> matches (Alternate r1 r2) s
| MStarNil r : matches (Star r) []
| MStarApp r s1 s2 :
    matches r s1 -> matches (Star r) s2 -> matches (Star r) (s1 ++ s2).

(** The executable matcher: derivatives. *)
Fixpoint nullable (r : regexp) : bool :=
  match r with
  | Void => false
  | Empty => true
  | Class _ => false
  | Concat r1 r2 => nullable r1 && nullable r2
  | Alternate r1 r2 => nullable r1 || nullable r2
  | Star _ => true
  end.

Fixpoint derive (c : ascii) (r : regexp) : regexp :=
  match r with
  | Void => Void
  | Empty => Void
  | Class cl => if in_class cl c then Empty else Void
  | Concat r1 r2 =>
      if nullable r1
      then Alternate (Concat (derive c r1) r2) (derive c r2)
      else Concat (derive c r1) r2
  | Alternate r1 r2 => Alternate (derive c r1) (derive c r2)
  | Star r1 => Concat (derive c r1) (Star r1)
  end.

Fixpoint accepts (r : regexp) (s : list ascii) : bool :=
  match s with
  | [] => nullable r
  | c :: s' => accepts (derive c r) s'
  end.

(** [regexp.MustCompile("^" + p + "$").MatchString(s)]: with both anchors
    and no flags the whole text has to match.  The text is taken byte by
    byte; the classes of this package are all ASCII, and no byte of a
    multi-byte rune lies in an ASCII range. *)
Definition MatchString (anchored : regexp) (s : string) : bool :=
  accepts anchored (list_ascii_of_string s).

End Regexp.

Module Reference.
Import Regexp.

Definition letters : class := [("a", "z"); ("A", "Z")]%char.
Definition alnums : class := [("a", "z"); ("A", "Z"); ("0", "9")]%char.
Definition nameChars : class :=
  [("a", "z"); ("A", "Z"); ("0", "9"); ("_", "_"); ("-", "-")]%char.
Definition dot : class := [(".", ".")]%char.

(** [const namePattern = `[a-zA-Z]([a-zA-Z0-9_-]*[a-zA-Z0-9])*`] *)
Definition namePattern : regexp :=
  Concat (Class letters) (Star (Concat (Star (Class nameChars)) (Class alnums))).

(** [var nameRegex = regexp.MustCompile("^" + namePattern + "$")] *)
Definition nameRegex : regexp := namePattern.

Definition validName (name : string) : bool := MatchString nameRegex name.

(** [const refPattern = namePattern + `(\.` + namePattern + `)*`] *)
Definition refPattern : regexp :=
  Concat namePattern (Star (Concat (Class dot) namePattern)).

Definition refRegex : regexp := refPattern.

Definition validReference (ref : string) : bool := MatchString refRegex ref.

(** The words after the first letter of a name. *)
Definition nameTail : regexp := Star (Concat (Star (Class nameChars)) (Class alnums)).

(** The words after the first name of a reference. *)
Definition refTail : regexp := Star (Concat (Class dot) namePattern).

(** *** The grammar in words

    Two readings of “a dot-separated sequence of names”: the one of the
    specification (letters, digits, underscore and hyphen, first character a
    letter), and the one of the comment above [namePattern], which also asks
    the last character to be a letter or a digit. *)

Definition is_letter (c : ascii) : bool := in_class letters c.
Definition is_alnum (c : ascii) : bool := in_class alnums c.
Definition is_name_char (c : ascii) : bool := in_class nameChars c.
Definition is_dot (c : ascii) : bool := in_class dot c.

Fixpoint split_dots (s : list ascii) : list (list ascii) :=
  match s with
  | [] => [[]]
  | c :: s' =>
      if is_dot c then [] :: split_dots s'
      else match split_dots s' with
           | seg :: segs => (c :: seg) :: segs
           | [] => [[c]]
           end
  end.

(** The inverse of [split_dots]. *)
Definition join_dots (segs : list (list ascii)) : list ascii :=
  match segs with
  | [] => []
  | n :: rest => n ++ flat_map (fun seg => "."%char :: seg) rest
  end.

Definition loose_name (n : list ascii) : bool :=
  match n with
  | [] => false
  | c :: rest => is_letter c && forallb is_name_char rest
  end.

Definition strict_name (n : list ascii) : bool :=
  match n with
  | [] => false
  | c :: rest => is_letter c && forallb is_name_char rest && is_alnum (List.last rest c)
  end.

(** The grammar as the specification words it. *)
Definition loose_reference (s : string) : bool :=
  forallb loose_name (split_dots (list_ascii_of_string s)).

(** The grammar with names that end in a letter or a digit. *)
Definition strict_reference (s : string) : bool :=
  forallb strict_name (split_dots (list_ascii_of_string s)).

End Reference.

(** ** Go values, types and errors, as far as the package inspects them *)

Module Go.

(** [reflect.Type], up to what [reflect.TypeOf(a) != reflect.TypeOf(b)]
    can tell apart. *)
Inductive type : Type :=
| TBool
| TInt
| TString
| TMap
| TStruct (name : string)
| TPtr (elem : type).

#[global] Instance type_eq_dec : EqDecision type.
Proof. solve_decision. Defined.

(** The dynamic values of an [interface{}].  A map is [map[string]interface{}]
    ([None] is the nil map); a pointer is nil or points to a value. *)
Inductive value : Type :=
| VBool (b : bool)
| VInt (n : Z)
| VString (s : string)
| VMap (m : option (gmap string value))
| VStruct (name : string) (fields : list value)
| VPtr (elem : type) (target : option value).

(** An [interface{}]: [None] is the nil interface. *)
Definition iface : Type := option value.

Definition TypeOf (v : value) : type :=
  match v with
  | VBool _ => TBool
  | VInt _ => TInt
  | VString _ => TString
  | VMap _ => TMap
  | VStruct name _ => TStruct name
  | VPtr elem _ => TPtr elem
  end.

(** [reflect.Value.IsZero] *)
Fixpoint IsZero (v : value) : bool :=
  match v with
  | VBool b => negb b
  | VInt n => Z.eqb n 0
  | VString s => String.eqb s ""
  | VMap m => match m with None => true | Some _ => false end
  | VStruct _ fields => forallb IsZero fields
  | VPtr _ target => match target with None => true | Some _ => false end
  end.

(** [len(m)] of a map value *)
Definition map_len (m : option (gmap string value)) : nat :=
  match m with None => 0 | Some m => size m end.

(** The messages of the package, one constructor per format string, with the
    arguments the format prints. *)
Inductive message : Type :=
| FailedToGet (name : string)
| SourceGetFailed (source name : string)
| CannotWriteJSON
| CannotParseJSON
| InvalidValue (name : string)
| AddNil
| CannotUseAsConfigStruct
| FailedOnInitLoad
| NotAStruct (tname : string)
| NoConfigurableFields (tname : string)
| DoublePointer (tname fname : string)
| NoJsonTag (tname fname : string)
| PrivateField (tname fname : string)
| CtorMustTakeOneArgument (tname fname : string)
| CtorPointerArgument (tname fname : string)
| CtorWrongResults (tname fname : string)
| CtorWrongResultType (tname fname : string)
| DtorTakesArguments (tname fname : string)
| DtorReturnsValues (tname fname : string)
| CannotGetConfig (tname fname tag : string)
| MissingConfig (tname fname tag : string)
| ConfigErrorOn (tag : string)
| ConfigRequiredFor (tag : string)
| CtorFailed (tname fname : string)
| CtorIncompatibleType (tname fname : string)
| InvalidConfig
| NoSources
| FailedToGetSourceConfig (source ref : string)
| NotFoundInAnySource (ref : string)
| NoRegisteredConstructors (ref ctype : string)
| NoImplementation (source ref : string)
| MultipleImplementations (source ref : string)
| NoConstructorFor (ref impl : string) (registered : list string)
| CannotFix (source ref : string)
| FailedToConstruct (ref : string)
| CreateReturnedNil.

(** Go's [error]: made by a provider or a constructor, or by
    [errors.Errorf], or by [errors.Wrapf] around a cause. *)
Inductive error : Type :=
| Foreign (text : string)
| Errorf (m : message)
| Wrapped (cause : error) (m : message).

(** What runs outside the package: the conversion of [encoding/json], the
    [Validate] methods of the configured types, and what [errors.Wrapf] of
    go-msvc/errors returns for a nil cause. *)
Class Runtime : Type := {
  WrapfNil : message -> option error;
  Marshal : value -> string * option error;
  Unmarshal : string -> type -> value * option error;
  (** [None]: the dynamic type does not implement [IValidator]. *)
  Validate : value -> option (option error);
}.

(** [errors.Wrapf(err, format, args...)] *)
Definition Wrapf `{Runtime} (err : option error) (m : message) : option error :=
  match err with
  | Some e => Some (Wrapped e m)
  | None => WrapfNil m
  end.

(** A notifier is known by its identity. *)
Definition INotifier : Type := nat.

(** The calls that leave the package. *)
Inductive event : Type :=
| CallGet (source name : string) (notifier : option INotifier)
| CallMarshal (v : value)
| CallUnmarshal (t : type)
| CallValidate (v : value)
| CallCreate (tag : string) (arg : value)
| CallDestroy (revision : Z) (fname : string)
| CallGetInto (source ref : string)
| CallDataGetInto (v : value)
| CallCreateOf (ref : string) (configured : value).

Definition is_CallGet (ev : event) : bool :=
  match ev with CallGet _ _ _ => true | _ => false end.

Definition is_construction (ev : event) : bool :=
  match ev with CallCreate _ _ | CallCreateOf _ _ => true | _ => false end.

(** How a call ends: it returns, it panics, or it stays blocked on a channel
    that nobody reads. *)
Inductive outcome (A : Type) : Type :=
| Return (a : A)
| Panic
| Blocked.
Arguments Return {A} a.
Arguments Panic {A}.
Arguments Blocked {A}.

End Go.

(** ** The provider chain *)

Module Chain.
Import Go.

(** [ISource]: [Name()] and [Get(name, notifier) (value, err)]. *)
Record ISource : Type := {
  Name : string;
  Get : string -> option INotifier -> iface * option error;
}.

Section WithRuntime.
Context `{Runtime}.

(** The call [source.Get(name, notifier)] as an event. *)
Definition call_of (name : string) (notifier : option INotifier) (source : ISource) : event :=
  CallGet (Name source) name notifier.

(** A source that answers [(nil, nil)]: the value is not defined there. *)
Definition silent (name : string) (notifier : option INotifier) (source : ISource) : Prop :=
  Get source name notifier = (None, None).

(** [sources.getValue]: the result and the calls made, in order. *)
Fixpoint getValue (sources : list ISource) (name : string) (defaultValue : iface)
    (notifier : option INotifier) : (iface * option error) * list event :=
  match sources with
  | [] => ((defaultValue, None), [])
  | source :: rest =>
      let '(value, err) := Get source name notifier in
      let call := call_of name notifier source in
      match err with
      | Some _ => ((None, Wrapf err (SourceGetFailed (Name source) name)), [call])
      | None =>
          match value with
          | Some v => ((Some v, None), [call])
          | None =>
              let '(r, calls) := getValue rest name defaultValue notifier in
              (r, call :: calls)
          end
      end
  end.

(** The conversion of [sources.Get]: nothing when the value has the type of
    the default already, else through JSON into a new value of that type. *)
Definition convert (value : value) (t : type) : (Go.value * option error) * list event :=
  if decide (TypeOf value = t) then ((value, None), [])
  else
    let '(jsonValue, err) := Marshal value in
    match err with
    | Some _ => ((value, Wrapf err CannotWriteJSON), [CallMarshal value])
    | None =>
        let '(parsed, err) := Unmarshal jsonValue t in
        match err with
        | Some _ => ((value, Wrapf err CannotParseJSON), [CallMarshal value; CallUnmarshal t])
        | None => ((parsed, None), [CallMarshal value; CallUnmarshal t])
        end
    end.

(** [if validator, ok := value.(IValidator); ok { ... }] *)
Definition validated (name : string) (value : value) : (iface * option error) * list event :=
  match Validate value with
  | None => ((Some value, None), [])
  | Some err =>
      match err with
      | Some _ => ((None, Wrapf err (InvalidValue name)), [CallValidate value])
      | None => ((Some value, None), [CallValidate value])
      end
  end.

(** [sources.Get]; the name [Get] is that of the method of [ISource]. *)
Definition sources_Get (sources : list ISource) (name : string) (defaultValue : iface)
    (notifier : option INotifier) : (iface * option error) * list event :=
  let '((value, err), calls) := getValue sources name defaultValue notifier in
  match err with
  | Some _ => ((None, Wrapf err (FailedToGet name)), calls)
  | None =>
      match value with
      | None => ((None, None), calls)
      | Some v =>
          if IsZero v then ((None, None), calls)
          else
            match defaultValue with
            | None => ((Some v, None), calls)
            | Some d =>
                let '((v', err), calls1) := convert v (TypeOf d) in
                match err with
                | Some _ => ((None, err), calls ++ calls1)
                | None =>
                    let '(r, calls2) := validated name v' in
                    (r, calls ++ calls1 ++ calls2)
                end
            end
      end
  end.

(** [config.Get] and [config.GetAndWatch] on the chain [allSources]. *)
Definition config_Get (allSources : list ISource) (name : string) (defaultValue : iface) :=
  sources_Get allSources name defaultValue None.

Definition GetAndWatch (allSources : list ISource) (name : string) (defaultValue : iface)
    (notifier : INotifier) :=
  sources_Get allSources name defaultValue (Some notifier).

End WithRuntime.

End Chain.

(** ** The configurable: [Add], [load], [Notify], [Use] and the clean-up *)

(** Calls are taken one at a time: a call runs to its end before the next
    one starts.  Of the goroutine of [cleanup] the state is kept (the users it
    waits for, and whether it has left its loop); a release is the send on the
    channel together with the round of the loop that takes it. *)

Module Binder.
Import Go Chain.

(** What [validateConfigStructType] reads of a method's [reflect.Type]. *)
Record signature : Type := {
  NumIn : nat;
  In1IsPtr : bool;
  NumOut : nat;
  (** [Out(0).Kind() == reflect.Ptr && Out(0).Elem() == valType] *)
  Out0IsPtrToValType : bool;
  Out1IsError : bool;
}.

(** The method [Create] of a field type: its signature, the zero value of its
    argument type as an [interface{}], and the call; [result[0]] is a pointer,
    [None] when nil. *)
Record constructor : Type := {
  csig : signature;
  argZero : iface;
  Create : value -> option value * option error;
}.

(** [reflect.StructField] together with the methods of the field type. *)
Record StructField : Type := {
  FName : string;
  Tag : string;
  FType : type;
  CanInterface : bool;
  Constructor : option constructor;
  Destructor : option signature;
  (** [f.Type.Elem().MethodByName(DestructorMethodName)] of a pointer field *)
  ElemHasDestructor : bool;
}.

Definition isPtr (t : type) : bool :=
  match t with TPtr _ => true | _ => false end.

Definition Elem (t : type) : type :=
  match t with TPtr e => e | _ => t end.

(** The [reflect.Type] of a template. *)
Record StructType : Type := {
  TName : string;
  IsStruct : bool;
  Fields : list StructField;
}.

(** [configValue]; the address of one is its index in the heap.  [exited]
    says that the goroutine of [cleanup] has left its loop. *)
Record configValue : Type := {
  structPtrValue : list value;
  valueType : StructType;
  revision : Z;
  users : gset string;
  exited : bool;
}.

(** The closure [func() { cv.releaseChan <- callerID }]. *)
Record releaseFunc : Type := {
  target : nat;
  callerID : string;
}.

(** [configurable]; [self] is the identity under which it is handed to the
    sources as notifier, [currentValue] the address of a [configValue]. *)
Record configurable : Type := {
  self : INotifier;
  structType : StructType;
  defaultStructValue : list value;
  hasConstructedValues : bool;
  currentValue : option nat;
  currentReleaseFunc : option releaseFunc;
}.

(** The state of the package: the chain [allSources], the [configValue]s
    allocated so far, [configurableList], and the calls made so far. *)
Record world : Type := {
  allSources : list ISource;
  heap : list configValue;
  nextConfigurable : nat;
  configurableList : list INotifier;
  calls : list event;
}.

Definition set_heap (h : list configValue) (w : world) : world :=
  {| allSources := allSources w; heap := h; nextConfigurable := nextConfigurable w;
     configurableList := configurableList w; calls := calls w |}.

Definition log (evs : list event) (w : world) : world :=
  {| allSources := allSources w; heap := heap w; nextConfigurable := nextConfigurable w;
     configurableList := configurableList w; calls := calls w ++ evs |}.

(** Go's [int] on a 64-bit platform. *)
Definition wrap_int (z : Z) : Z := ((z + 2 ^ 63) mod 2 ^ 64 - 2 ^ 63)%Z.

(** [stringInList] *)
Fixpoint stringInList (s : string) (l : list string) : bool :=
  match l with
  | [] => false
  | ls :: rest => if String.eqb s ls then true else stringInList s rest
  end.

(** [validateConfigStructType], one field. *)
Definition validateField (tname : string) (f : StructField)
    (hasConstructedValues : bool) : bool * option error :=
  let valType := FType f in
  let valType := if isPtr valType then Elem valType else valType in
  if isPtr valType then (false, Some (Errorf (DoublePointer tname (FName f))))
  else if String.eqb (Tag f) "" then (false, Some (Errorf (NoJsonTag tname (FName f))))
  else if negb (CanInterface f) then (false, Some (Errorf (PrivateField tname (FName f))))
  else
    let checkedConstructor :=
      match Constructor f with
      | Some k =>
          let m := csig k in
          if negb (Nat.eqb (NumIn m) 2)
          then (false, Some (Errorf (CtorMustTakeOneArgument tname (FName f))))
          else if In1IsPtr m
          then (false, Some (Errorf (CtorPointerArgument tname (FName f))))
          else if negb (Nat.eqb (NumOut m) 2)
          then (false, Some (Errorf (CtorWrongResults tname (FName f))))
          else if negb (Out0IsPtrToValType m)
          then (false, Some (Errorf (CtorWrongResultType tname (FName f))))
          else if negb (Out1IsError m)
          then (false, Some (Errorf (CtorWrongResults tname (FName f))))
          else (true, None)
      | None => (hasConstructedValues, None)
      end in
    match snd checkedConstructor with
    | Some _ => checkedConstructor
    | None =>
        match Destructor f with
        | Some d =>
            if negb (Nat.eqb (NumIn d) 1)
            then (false, Some (Errorf (DtorTakesArguments tname (FName f))))
            else if negb (Nat.eqb (NumOut d) 0)
            then (false, Some (Errorf (DtorReturnsValues tname (FName f))))
            else checkedConstructor
        | None => checkedConstructor
        end
    end.

Fixpoint validateFields (tname : string) (fields : list StructField)
    (hasConstructedValues : bool) : bool * option error :=
  match fields with
  | [] => (hasConstructedValues, None)
  | f :: rest =>
      let '(has, err) := validateField tname f hasConstructedValues in
      match err with
      | Some _ => (false, err)
      | None => validateFields tname rest has
      end
  end.

(** [validateConfigStructType] *)
Definition validateConfigStructType (t : StructType) : bool * option error :=
  if negb (IsStruct t) then (false, Some (Errorf (NotAStruct (TName t))))
  else if Nat.eqb (length (Fields t)) 0
  then (false, Some (Errorf (NoConfigurableFields (TName t))))
  else validateFields (TName t) (Fields t) false.

(** The destructor call of [cleanup] for one field with its value [vf]:
    the call made, if any, or [None] when the call panics.  The method
    [Destroy] of a pointer type is also a method of the type pointed to when
    it has a value receiver; called through a nil pointer such a method
    panics, and so does [vf.Elem().MethodByName] of a nil pointer. *)
Definition destroyField (rev : Z) (f : StructField) (vf : value) : option (list event) :=
  let isNil := match vf with VPtr _ None => true | _ => false end in
  if isPtr (FType f) then
    match Destructor f with
    | Some _ =>
        if isNil && ElemHasDestructor f then None
        else Some [CallDestroy rev (FName f)]
    | None =>
        if ElemHasDestructor f
        then if isNil then None else Some [CallDestroy rev (FName f)]
        else Some []
    end
  else
    match Destructor f with
    | Some _ => Some [CallDestroy rev (FName f)]
    | None => Some []
    end.

(** The loop of [cleanup] over the fields and their values: the calls made,
    and whether the loop ended in a panic.  A struct has a value for each of
    its fields; [Field(i)] of a missing one panics. *)
Fixpoint destroyAll (rev : Z) (fields : list StructField) (values : list value)
    : list event * bool :=
  match fields with
  | [] => ([], false)
  | f :: fields' =>
      match values with
      | [] => ([], true)
      | vf :: values' =>
          match destroyField rev f vf with
          | None => ([], true)
          | Some evs =>
              let '(evs', panicked) := destroyAll rev fields' values' in
              (evs ++ evs', panicked)
          end
      end
  end.

Definition destroyFields (cv : configValue) : list event * bool :=
  destroyAll (revision cv) (Fields (valueType cv)) (structPtrValue cv).

(** One round of the loop of [cleanup]: [id := <-cv.releaseChan], then
    [delete(cv.users, id)]; with no user left the loop ends and the fields are
    destroyed.  The result is the value, the destructor calls made, and
    whether they ended in a panic. *)
Definition cleanupRound (id : string) (cv : configValue)
    : configValue * (list event * bool) :=
  let remaining := users cv ∖ {[id]} in
  let cv' := {| structPtrValue := structPtrValue cv; valueType := valueType cv;
                revision := revision cv; users := remaining;
                exited := bool_decide (size remaining = 0) |} in
  (cv', if bool_decide (size remaining = 0) then destroyFields cv else ([], false)).

(** Calling a release closure: the send on the unbuffered channel is taken by
    the loop of [cleanup] while that loop runs, and blocks for ever once it has
    ended.  A panic of a destructor in the goroutine of [cleanup] ends the
    program: the call is reported as a panic, with the calls made until
    then. *)
Definition release (r : releaseFunc) (w : world) : outcome unit * world :=
  match heap w !! target r with
  | None => (Panic, w)
  | Some cv =>
      if exited cv then (Blocked, w)
      else
        let '(cv', (evs, panicked)) := cleanupRound (callerID r) cv in
        (if panicked then Panic else Return tt,
         log evs (set_heap (<[target r := cv']> (heap w)) w))
  end.

(** [configValue.use] *)
Definition use (cv : nat) (caller : string) (w : world)
    : outcome (value * releaseFunc) * world :=
  match heap w !! cv with
  | None => (Panic, w)
  | Some v =>
      let v' := {| structPtrValue := structPtrValue v; valueType := valueType v;
                   revision := revision v; users := {[caller]} ∪ users v;
                   exited := exited v |} in
      (Return (VStruct (TName (valueType v)) (structPtrValue v),
               {| target := cv; callerID := caller |}),
       set_heap (<[cv := v']> (heap w)) w)
  end.

(** [logger.GetCaller(0).String()] inside [newConfigValue]. *)
Definition creatorID : string := "config.newConfigValue".

(** The value that [newConfigValue] makes: its creator is the first user. *)
Definition fresh (rev : Z) (t : StructType) (fields : list value) : configValue :=
  {| structPtrValue := fields; valueType := t; revision := rev;
     users := {[creatorID]}; exited := false |}.

(** [newConfigValue]: the new value, and the goroutine of [cleanup] waiting
    in its loop. *)
Definition newConfigValue (rev : Z) (t : StructType) (fields : list value) (w : world)
    : (nat * releaseFunc) * world :=
  ((length (heap w), {| target := length (heap w); callerID := creatorID |}),
   set_heap (heap w ++ [fresh rev t fields]) w).

(** The loop of [load] either goes on with the struct being filled or leaves
    the function. *)
Inductive step : Type :=
| Next (structValue : list value)
| Leave (r : outcome (option error)).

Section WithRuntime.
Context `{Runtime}.

(** The field without constructor. *)
Definition loadPlain (sources : list ISource) (c : configurable) (i : nat)
    (f : StructField) (structValue : list value) : step * list event :=
  match defaultStructValue c !! i with
  | None => (Leave Panic, [])
  | Some d =>
      let '((configuredFieldValue, err), evs) :=
        GetAndWatch sources (Tag f) (Some d) (self c) in
      match err with
      | Some _ =>
          (Leave (Return (Wrapf err (CannotGetConfig (TName (structType c)) (FName f) (Tag f)))), evs)
      | None =>
          match configuredFieldValue with
          | None =>
              if negb (isPtr (FType f))
              then (Leave (Return (Wrapf err
                      (MissingConfig (TName (structType c)) (FName f) (Tag f)))), evs)
              else (Next structValue, evs)
          | Some v => (Next (<[i := v]> structValue), evs)
          end
      end
  end.

(** The field with constructor [k]. *)
Definition loadConstructed (sources : list ISource) (c : configurable) (i : nat)
    (f : StructField) (k : constructor) (structValue : list value) : step * list event :=
  let '((configuredValue, err), evs) :=
    GetAndWatch sources (Tag f) (argZero k) (self c) in
  match err with
  | Some _ => (Leave (Return (Wrapf err (ConfigErrorOn (Tag f)))), evs)
  | None =>
      match configuredValue with
      | None =>
          if negb (isPtr (FType f))
          then (Leave (Return (Some (Errorf (ConfigRequiredFor (Tag f))))), evs)
          else (Next structValue, evs)
      | Some v =>
          (* a pointer field is first set to [reflect.New(f.Type.Elem())]; the
             struct being filled is dropped when the constructor fails and the
             field is overwritten when it succeeds *)
          let '(result0, result1) := Create k v in
          let evs := evs ++ [CallCreate (Tag f) v] in
          match result1 with
          | Some _ =>
              (Leave (Return (Wrapf result1 (CtorFailed (TName (structType c)) (FName f)))), evs)
          | None =>
              if negb (Out0IsPtrToValType (csig k))
              then (Leave (Return (Some (Errorf
                      (CtorIncompatibleType (TName (structType c)) (FName f))))), evs)
              else if isPtr (FType f)
              then (Next (<[i := VPtr (Elem (FType f)) result0]> structValue), evs)
              else
                match result0 with
                | None => (Leave Panic, evs)
                | Some made => (Next (<[i := made]> structValue), evs)
                end
          end
      end
  end.

(** One round of the loop over the fields. *)
Definition loadField (sources : list ISource) (c : configurable)
    (current : option configValue) (onlyNames : list string) (i : nat)
    (f : StructField) (structValue : list value) : step * list event :=
  let keep :=
    match current with
    | Some cv =>
        if (0 <? length onlyNames)%nat && negb (stringInList (Tag f) onlyNames)
        then Some cv else None
    | None => None
    end in
  match keep with
  | Some cv =>
      match structPtrValue cv !! i with
      | Some v => (Next (<[i := v]> structValue), [])
      | None => (Leave Panic, [])
      end
  | None =>
      match Constructor f with
      | None => loadPlain sources c i f structValue
      | Some k => loadConstructed sources c i f k structValue
      end
  end.

Fixpoint loadFields (sources : list ISource) (c : configurable)
    (current : option configValue) (onlyNames : list string) (i : nat)
    (fields : list StructField) (structValue : list value) : step * list event :=
  match fields with
  | [] => (Next structValue, [])
  | f :: rest =>
      let '(s, evs) := loadField sources c current onlyNames i f structValue in
      match s with
      | Leave r => (Leave r, evs)
      | Next structValue' =>
          let '(s', evs') := loadFields sources c current onlyNames (S i) rest structValue' in
          (s', evs ++ evs')
      end
  end.

(** [reflect.New(c.structType)]: every field at the zero value of its type. *)
Definition zeroOf (t : type) : value :=
  match t with
  | TBool => VBool false
  | TInt => VInt 0
  | TString => VString ""
  | TMap => VMap None
  | TStruct name => VStruct name []   (* the fields of a nested struct are not followed *)
  | TPtr e => VPtr e None
  end.

Definition newStruct (t : StructType) : list value :=
  map (fun f => zeroOf (FType f)) (Fields t).

Definition set_current (cv : option nat) (rel : option releaseFunc) (c : configurable)
    : configurable :=
  {| self := self c; structType := structType c;
     defaultStructValue := defaultStructValue c;
     hasConstructedValues := hasConstructedValues c;
     currentValue := cv; currentReleaseFunc := rel |}.

(** The end of [load]: number the revision, release the creator's use of the
    current value, make the new value current.  A panic ends the program: the
    configurable and the package are then given as they were before the
    call. *)
Definition install (c : configurable) (structValue : list value) (w : world)
    : outcome (option error) * configurable * world :=
  match currentReleaseFunc c with
  | None =>
      let '((cv, rel), w') := newConfigValue 1 (structType c) structValue w in
      (Return None, set_current (Some cv) (Some rel) c, w')
  | Some currentRelease =>
      match currentValue c with
      | None => (Panic, c, w)
      | Some old =>
          match heap w !! old with
          | None => (Panic, c, w)
          | Some oldValue =>
              let rev := wrap_int (revision oldValue + 1) in
              let '(r, w1) := release currentRelease w in
              match r with
              | Return _ =>
                  let '((cv, rel), w2) := newConfigValue rev (structType c) structValue w1 in
                  (Return None, set_current (Some cv) (Some rel) c, w2)
              | Panic => (Panic, c, w)
              | Blocked => (Blocked, c, w)
              end
          end
      end
  end.

(** [configurable.load] *)
Definition load (c : configurable) (onlyNames : list string) (w : world)
    : outcome (option error) * configurable * world :=
  let current :=
    match currentValue c with
    | Some a => heap w !! a
    | None => None
    end in
  let '(s, evs) :=
    loadFields (allSources w) c current onlyNames 0 (Fields (structType c))
      (newStruct (structType c)) in
  let w := log evs w in
  match s with
  | Leave r => (r, c, w)
  | Next structValue =>
      let structPtr := VPtr (TStruct (TName (structType c)))
                         (Some (VStruct (TName (structType c)) structValue)) in
      match Validate structPtr with
      | Some err =>
          let w := log [CallValidate structPtr] w in
          match err with
          | Some _ => (Return (Wrapf err InvalidConfig), c, w)
          | None => install c structValue w
          end
      | None => install c structValue w
      end
  end.

(** [configurable.Notify]: a failure is logged and nothing else. *)
Definition Notify (c : configurable) (name : string) (w : world)
    : outcome unit * configurable * world :=
  let '(r, c', w') := load c [name] w in
  match r with
  | Return _ => (Return tt, c', w')
  | Panic => (Panic, c', w')
  | Blocked => (Blocked, c', w')
  end.

(** [configurable.Use]; the caller is [logger.GetCaller(1)]. *)
Definition Use (c : configurable) (caller : string) (w : world)
    : outcome (value * releaseFunc) * world :=
  match currentValue c with
  | None => (Panic, w)
  | Some cv => use cv caller w
  end.

(** [configurable.Current] *)
Definition Current (c : configurable) (w : world) : outcome value :=
  if hasConstructedValues c then Panic
  else
    match currentValue c with
    | None => Panic
    | Some a =>
        match heap w !! a with
        | None => Panic
        | Some cv => Return (VStruct (TName (valueType cv)) (structPtrValue cv))
        end
    end.

(** A template: the value handed to [Add] with its [reflect.Type]. *)
Record template : Type := {
  templateType : StructType;
  templateFields : list value;
}.

(** [c := &configurable{...}] in [Add]: nothing loaded yet. *)
Definition initial (tmpl : template) (hasConstructed : bool) (w : world) : configurable :=
  {| self := nextConfigurable w; structType := templateType tmpl;
     defaultStructValue := templateFields tmpl;
     hasConstructedValues := hasConstructed;
     currentValue := None; currentReleaseFunc := None |}.

(** The identity of the new configurable is taken. *)
Definition allocated (w : world) : world :=
  {| allSources := allSources w; heap := heap w;
     nextConfigurable := S (nextConfigurable w);
     configurableList := configurableList w; calls := calls w |}.

(** [configurableList = append(configurableList, c)] *)
Definition listed (c : configurable) (w : world) : world :=
  {| allSources := allSources w; heap := heap w;
     nextConfigurable := nextConfigurable w;
     configurableList := configurableList w ++ [self c]; calls := calls w |}.

(** [Add]: the configurable made, or the error; after the first load the
    configurable joins [configurableList]. *)
Definition Add (defaultStructValue : option template) (w : world)
    : outcome (option configurable * option error) * world :=
  match defaultStructValue with
  | None => (Return (None, Some (Errorf AddNil)), w)
  | Some tmpl =>
      let '(hasConstructed, err) := validateConfigStructType (templateType tmpl) in
      match err with
      | Some _ => (Return (None, Wrapf err CannotUseAsConfigStruct), w)
      | None =>
          let '(r, c', w') := load (initial tmpl hasConstructed w) [] (allocated w) in
          match r with
          | Return err =>
              match err with
              | Some _ => (Return (None, Wrapf err FailedOnInitLoad), w')
              | None => (Return (Some c', None), listed c' w')
              end
          | Panic => (Panic, w')
          | Blocked => (Blocked, w')
          end
      end
  end.

(** An event that is no call to a source and no construction, or is one for
    the given name. *)
Definition resolves_only (name : string) (ev : event) : bool :=
  match ev with
  | CallGet _ n _ => String.eqb n name
  | CallCreate tag _ => String.eqb tag name
  | _ => true
  end.

End WithRuntime.

End Binder.

(** ** The registry driven package: [MustConfigure], [MustConstruct], [Load] *)

Module Legacy.
Import Go Reference.

(** [Source]: [GetInto(name, tmpl) (interface{}, error)]. *)
Record namedSource : Type := {
  name : string;
  GetInto : string -> value -> iface * option error;
}.

(** [constructorInfo]; a Go map is the list of its entries in the order in
    which [range] visits them, which Go leaves open. *)
Record constructorInfo : Type := {
  tmplByName : list (string * value);
  mustConstructByRef : list (string * bool);
}.

Record state : Type := {
  loaded : bool;
  sources : list namedSource;
  mustConfigureByRef : list (string * value);
  constructorsByType : list (string * constructorInfo);
  configByRef : list (string * value);
}.

Definition lookup_key {A : Type} (k : string) (m : list (string * A)) : option A :=
  snd <$> List.find (fun e => String.eqb (fst e) k) m.

(** [m[k] = v] *)
Definition assign {A : Type} (k : string) (v : A) (m : list (string * A)) : list (string * A) :=
  match lookup_key k m with
  | Some _ => map (fun e => if String.eqb (fst e) k then (k, v) else e) m
  | None => m ++ [(k, v)]
  end.

Inductive panicked : Type :=
| CalledAfterLoad (ref : string)
| InvalidReference (ref : string)
| NilTemplate (ref : string)
| ConflictingType (ref : string).

(** [flagConfigure], behind [MustConfigure] and [MayConfigure]. *)
Definition flagConfigure (ref : string) (tmpl : iface) (required : bool) (st : state)
    : panicked + state :=
  if loaded st then inl (CalledAfterLoad ref)
  else if negb (validReference ref) then inl (InvalidReference ref)
  else
    match tmpl with
    | None => inl (NilTemplate ref)
    | Some t =>
        match lookup_key ref (mustConfigureByRef st) with
        | Some existingTmpl =>
            if decide (TypeOf t = TypeOf existingTmpl) then inr st
            else inl (ConflictingType ref)
        | None =>
            inr {| loaded := loaded st; sources := sources st;
                   mustConfigureByRef := mustConfigureByRef st ++ [(ref, t)];
                   constructorsByType := constructorsByType st;
                   configByRef := configByRef st |}
        end
    end.

(** [constructorInfoFor], then [info.mustConstructByRef[ref] = true]. *)
Definition markConstruct (ref ctype : string) (m : list (string * constructorInfo))
    : list (string * constructorInfo) :=
  let info :=
    match lookup_key ctype m with
    | Some info => info
    | None => {| tmplByName := []; mustConstructByRef := [] |}
    end in
  assign ctype {| tmplByName := tmplByName info;
                  mustConstructByRef := assign ref true (mustConstructByRef info) |} m.

(** [flagConstruct], behind [MustConstruct] and [MayConstruct]. *)
Definition flagConstruct (ref : string) (constructedType : option string) (required : bool)
    (st : state) : panicked + state :=
  if loaded st then inl (CalledAfterLoad ref)
  else if negb (validReference ref) then inl (InvalidReference ref)
  else
    match constructedType with
    | None => inl (NilTemplate ref)
    | Some ctype =>
        inr {| loaded := loaded st; sources := sources st;
               mustConfigureByRef := mustConfigureByRef st;
               constructorsByType := markConstruct ref ctype (constructorsByType st);
               configByRef := configByRef st |}
    end.

(** What [Load] calls outside the package: the method [Create] of a value
    ([None] when its type has none) with the two results of the call,
    [data.GetInto], and the type assertion [x.(error)] ([None] when it
    panics). *)
Class Reflection : Type := {
  CreateOf : value -> option (iface * option error);
  dataGetInto : value -> value -> iface * option error;
  asError : iface -> option error;
}.

Section WithRuntime.
Context `{Runtime} `{Reflection}.

(** The loop over the sources for one reference: the value found with the
    source that had it, or the error. *)
Fixpoint firstSource (srcs : list namedSource) (ref : string) (tmpl : value)
    : (option (namedSource * value) * option error) * list event :=
  match srcs with
  | [] => ((None, None), [])
  | ns :: rest =>
      let '(v, err) := GetInto ns ref tmpl in
      let call := CallGetInto (name ns) ref in
      match err with
      | Some _ => ((None, Wrapf err (FailedToGetSourceConfig (name ns) ref)), [call])
      | None =>
          match v with
          | Some found => ((Some (ns, found), None), [call])
          | None =>
              let '(r, evs) := firstSource rest ref tmpl in
              (r, call :: evs)
          end
      end
  end.

(** First loop of [Load]: the values asked for with [MustConfigure].  A
    loop of [Load] gives [None] when it ran to its end and [Some r] when it
    left [Load] with [r]. *)
Fixpoint loadConfigured (srcs : list namedSource) (required : list (string * value))
    (config : list (string * value))
    : (list (string * value) * option (outcome (option error))) * list event :=
  match required with
  | [] => ((config, None), [])
  | (ref, requiredTmpl) :: rest =>
      let '((found, err), evs) := firstSource srcs ref requiredTmpl in
      match err with
      | Some _ => ((config, Some (Return err)), evs)
      | None =>
          match found with
          | None => ((config, Some (Return (Some (Errorf (NotFoundInAnySource ref))))), evs)
          | Some (_, configuredValue) =>
              let '(r, evs') := loadConfigured srcs rest (assign ref configuredValue config) in
              (r, evs ++ evs')
          end
      end
  end.

(** [for implName = range implNamedConfig {}] *)
Definition rangeLastKey (m : option (gmap string value)) : string :=
  match m with
  | None => ""
  | Some m => List.last (map fst (map_to_list m)) ""
  end.

(** The second loop of [Load] either has the configured constructor of a
    reference or leaves the function. *)
Inductive resolved : Type :=
| Configured (constructorValue : iface)
| Exit (r : outcome (option error)).

(** Second loop of [Load], one reference to construct: the configured
    constructor for it, read and checked, nothing constructed yet. *)
Definition resolveConstructor (srcs : list namedSource) (ctype : string)
    (info : constructorInfo) (ref : string) : resolved * list event :=
  if Nat.eqb (length (tmplByName info)) 0
  then (Exit (Return (Some (Errorf (NoRegisteredConstructors ref ctype)))), [])
  else
    let '((found, err), evs) := firstSource srcs ref (VMap (Some ∅)) in
    match err with
    | Some _ => (Exit (Return err), evs)
    | None =>
        match found with
        | None => (Exit (Return (Some (Errorf (NotFoundInAnySource ref)))), evs)
        | Some (ns, v) =>
            match v with
            | VMap implNamedConfig =>
                if Nat.eqb (map_len implNamedConfig) 0
                then (Exit (Return (Some (Errorf (NoImplementation (name ns) ref)))), evs)
                else if (1 <? map_len implNamedConfig)%nat
                then (Exit (Return (Some (Errorf (MultipleImplementations (name ns) ref)))), evs)
                else
                  let implName := rangeLastKey implNamedConfig in
                  match lookup_key implName (tmplByName info) with
                  | None =>
                      (Exit (Return (Some (Errorf
                         (NoConstructorFor ref implName (map fst (tmplByName info)))))), evs)
                  | Some constructorTmpl =>
                      let constructorRef := (ref ++ "." ++ implName)%string in
                      let '(constructorValue, err) := GetInto ns constructorRef constructorTmpl in
                      let evs := evs ++ [CallGetInto (name ns) constructorRef] in
                      match err with
                      | Some _ =>
                          (Exit (Return (Wrapf err
                             (FailedToGetSourceConfig (name ns) constructorRef))), evs)
                      | None =>
                          match constructorValue with
                          | None =>
                              (Exit (Return (Wrapf err
                                 (FailedToGetSourceConfig (name ns) constructorRef))), evs)
                          | Some cv =>
                              match CreateOf cv with
                              | Some _ => (Configured (Some cv), evs)
                              | None =>
                                  let '(converted, err) := dataGetInto cv constructorTmpl in
                                  let evs := evs ++ [CallDataGetInto cv] in
                                  match err with
                                  | None => (Configured converted, evs)
                                  | Some _ =>
                                      (Exit (Return (Some (Errorf
                                         (CannotFix (name ns) constructorRef)))), evs)
                                  end
                              end
                          end
                      end
                  end
            | _ => (Exit Panic, evs)
            end
        end
    end.

(** The references of one constructed type. *)
Fixpoint resolveRefs (srcs : list namedSource) (ctype : string) (info : constructorInfo)
    (refs : list (string * bool)) (constructorByRef : list (string * iface))
    : (list (string * iface) * option (outcome (option error))) * list event :=
  match refs with
  | [] => ((constructorByRef, None), [])
  | (ref, _) :: rest =>
      let '(r, evs) := resolveConstructor srcs ctype info ref in
      match r with
      | Exit out => ((constructorByRef, Some out), evs)
      | Configured cv =>
          let '(r', evs') :=
            resolveRefs srcs ctype info rest (assign ref cv constructorByRef) in
          (r', evs ++ evs')
      end
  end.

(** The second loop of [Load]. *)
Fixpoint resolveTypes (srcs : list namedSource) (types : list (string * constructorInfo))
    (constructorByRef : list (string * iface))
    : (list (string * iface) * option (outcome (option error))) * list event :=
  match types with
  | [] => ((constructorByRef, None), [])
  | (ctype, info) :: rest =>
      let '((byRef, out), evs) :=
        resolveRefs srcs ctype info (mustConstructByRef info) constructorByRef in
      match out with
      | Some _ => ((byRef, out), evs)
      | None =>
          let '(r', evs') := resolveTypes srcs rest byRef in
          (r', evs ++ evs')
      end
  end.

(** The third loop of [Load]: the constructions. *)
Fixpoint construct (constructorByRef : list (string * iface)) (config : list (string * value))
    : (list (string * value) * option (outcome (option error))) * list event :=
  match constructorByRef with
  | [] => ((config, None), [])
  | (constructorRef, configured) :: rest =>
      match configured with
      | None => ((config, Some Panic), [])
      | Some cv =>
          match CreateOf cv with
          | None => ((config, Some Panic), [])
          | Some (result0, result1) =>
              let call := CallCreateOf constructorRef cv in
              match result1 with
              | Some _ =>
                  match asError result0 with
                  | None => ((config, Some Panic), [call])
                  | Some e =>
                      ((config, Some (Return (Wrapf (Some e) (FailedToConstruct constructorRef)))),
                       [call])
                  end
              | None =>
                  match result0 with
                  | None => ((config, Some (Return (Some (Errorf CreateReturnedNil)))), [call])
                  | Some created =>
                      let '(r, evs) := construct rest (assign constructorRef created config) in
                      (r, call :: evs)
                  end
              end
          end
      end
  end.

Definition set_config (config : list (string * value)) (done : bool) (st : state) : state :=
  {| loaded := done; sources := sources st;
     mustConfigureByRef := mustConfigureByRef st;
     constructorsByType := constructorsByType st;
     configByRef := config |}.

(** [Load] *)
Definition Load (st : state) : (outcome (option error) * state) * list event :=
  if loaded st then ((Return None, st), [])
  else if Nat.eqb (length (sources st)) 0
  then ((Return (Some (Errorf NoSources)), st), [])
  else
    let '((config, out1), evs1) :=
      loadConfigured (sources st) (mustConfigureByRef st) [] in
    match out1 with
    | Some r => ((r, set_config config false st), evs1)
    | None =>
        let '((constructorByRef, out2), evs2) :=
          resolveTypes (sources st) (constructorsByType st) [] in
        match out2 with
        | Some r => ((r, set_config config false st), evs1 ++ evs2)
        | None =>
            let '((config', out3), evs3) := construct constructorByRef config in
            match out3 with
            | Some r => ((r, set_config config' false st), evs1 ++ evs2 ++ evs3)
            | None => ((Return None, set_config config' true st), evs1 ++ evs2 ++ evs3)
            end
        end
    end.

(** [Get] of the loaded configuration: [None] stands for the panic. *)
Definition Get (ref : string) (st : state) : option value :=
  if negb (loaded st) then None else lookup_key ref (configByRef st).

End WithRuntime.

End Legacy.

(** ** Configurations used as examples *)

Module Examples.
Import Go Chain Binder.

(** A runtime that wraps a nil cause into an error, converts to the zero
    value, and has no validator. *)
Definition plain : Runtime := {|
  WrapfNil := fun m => Some (Errorf m);
  Marshal := fun _ => ("", None);
  Unmarshal := fun _ t => (zeroOf t, None);
  Validate := fun _ => None;
|}.

(** A runtime in which every value has a [Validate] method that fails. *)
Definition strict : Runtime := {|
  WrapfNil := fun m => Some (Errorf m);
  Marshal := fun _ => ("", None);
  Unmarshal := fun _ t => (zeroOf t, None);
  Validate := fun _ => Some (Some (Foreign "invalid"));
|}.

(** The source of [source/mem]: [(v, nil)] for a name it has, else
    [(nil, nil)]. *)
Definition memSource (byName : gmap string value) : ISource := {|
  Name := "inMemory";
  Get := fun name _ => (byName !! name, None);
|}.

(** A source that cannot be reached. *)
Definition brokenSource : ISource := {|
  Name := "broken";
  Get := fun _ _ => (None, Some (Foreign "unreachable"));
|}.

(** A runtime whose [Wrapf] gives nil for a nil cause, as that of
    pkg/errors does. *)
Definition lenient : Runtime := {|
  WrapfNil := fun _ => None;
  Marshal := fun _ => ("", None);
  Unmarshal := fun _ t => (zeroOf t, None);
  Validate := fun _ => None;
|}.

Definition P1 : ISource := memSource ∅.
Definition P2 : ISource := memSource {[ "name" := VString "Jan" ]}.
Definition P3 : ISource := memSource {[ "name" := VString "Other" ]}.
Definition Pempty : ISource := memSource {[ "name" := VString "" ]}.

(** [type person struct { Name string `json:"name"` }] *)
Definition nameField : StructField := {|
  FName := "Name"; Tag := "name"; FType := TString; CanInterface := true;
  Constructor := None; Destructor := None; ElemHasDestructor := false;
|}.

Definition personType : StructType :=
  {| TName := "person"; IsStruct := true; Fields := [nameField] |}.

Definition person (name : string) : template :=
  {| templateType := personType; templateFields := [VString name] |}.

(** [type home struct { Name string `json:"name"`; City string `json:"city"` }] *)
Definition cityField : StructField := {|
  FName := "City"; Tag := "city"; FType := TString; CanInterface := true;
  Constructor := None; Destructor := None; ElemHasDestructor := false;
|}.

Definition homeType : StructType :=
  {| TName := "home"; IsStruct := true; Fields := [nameField; cityField] |}.

(** Jan in Paris, revision 1, used by its creator and by one consumer. *)
Definition homeValue : configValue :=
  {| structPtrValue := [VString "Jan"; VString "Paris"]; valueType := homeType;
     revision := 1; users := {[creatorID; "main.go:42"]}; exited := false |}.

Definition homeBinder : configurable :=
  {| self := 0; structType := homeType;
     defaultStructValue := [VString ""; VString ""];
     hasConstructedValues := false; currentValue := Some 0;
     currentReleaseFunc := Some {| target := 0; callerID := creatorID |} |}.

Definition homeWorld (srcs : list ISource) : world :=
  {| allSources := srcs; heap := [homeValue]; nextConfigurable := 1;
     configurableList := [0]; calls := [] |}.

(** The source after both keys have changed. *)
Definition P4 : ISource :=
  memSource {[ "name" := VString "Other"; "city" := VString "Rome" ]}.

Definition emptyWorld (srcs : list ISource) : world :=
  {| allSources := srcs; heap := []; nextConfigurable := 0;
     configurableList := []; calls := [] |}.

(** The person loaded from P2, revision 1, used by its creator. *)
Definition janValue : configValue :=
  {| structPtrValue := [VString "Jan"]; valueType := personType; revision := 1;
     users := {[creatorID]}; exited := false |}.

Definition janBinder : configurable :=
  {| self := 0; structType := personType; defaultStructValue := [VString ""];
     hasConstructedValues := false; currentValue := Some 0;
     currentReleaseFunc := Some {| target := 0; callerID := creatorID |} |}.

Definition janWorld (srcs : list ISource) : world :=
  {| allSources := srcs; heap := [janValue]; nextConfigurable := 1;
     configurableList := [0];
     calls := [CallGet "inMemory" "name" (Some 0)] |}.

(** *** The example of the registry driven package *)

(** Every configured value has a [Create] that succeeds. *)
Definition creating : Legacy.Reflection := {|
  Legacy.CreateOf := fun v => Some (Some v, None);
  Legacy.dataGetInto := fun v _ => (Some v, None);
  Legacy.asError := fun _ => None;
|}.

(** A source with one reference: [ms.server] with two implementations
    named, [http] and [nats]. *)
Definition twoServers : Legacy.namedSource := {|
  Legacy.name := "custom";
  Legacy.GetInto := fun ref _ =>
    if String.eqb ref "ms.server"
    then (Some (VMap (Some {[ "http" := VString "localhost:8080";
                              "nats" := VString "localhost:4222" ]})), None)
    else (None, None);
|}.

(** A source that names the implementation [grpc], which is not
    registered. *)
Definition grpcServer : Legacy.namedSource := {|
  Legacy.name := "custom";
  Legacy.GetInto := fun ref _ =>
    if String.eqb ref "ms.server"
    then (Some (VMap (Some {[ "grpc" := VString "localhost:9090" ]})), None)
    else (None, None);
|}.

Definition serverInfo : Legacy.constructorInfo := {|
  Legacy.tmplByName := [("http", VStruct "HttpServerConfig" [VString ""]);
                        ("nats", VStruct "NatsServerConfig" [VString ""])];
  Legacy.mustConstructByRef := [("ms.server", true)];
|}.

Definition serverState (src : Legacy.namedSource) : Legacy.state := {|
  Legacy.loaded := false;
  Legacy.sources := [src];
  Legacy.mustConfigureByRef := [];
  Legacy.constructorsByType := [("Server", serverInfo)];
  Legacy.configByRef := [];
|}.

End Examples.

(** * Further code of the package *)

(** ** The chain as an object: [sources.Add] and [sources.Reset] *)

Module Sources.
Import Go Chain.

(** An [ISource] held in the chain: the sources of the package are pointers
    ([*memSource], [*source]), so [source == existing] compares addresses. *)
Record handle : Type := {
  address : nat;
  object : ISource;
}.

(** [sources.Reset] *)
Definition Reset (chain : list handle) : list handle := [].

(** [sources.Add]; [None] is the nil source. *)
Definition Add (source : option handle) (chain : list handle) : list handle :=
  match source with
  | None => chain
  | Some src =>
      if existsb (fun existing => Nat.eqb (address src) (address existing)) chain
      then chain
      else chain ++ [src]
  end.

(** The chain as [getValue] walks it. *)
Definition objects (chain : list handle) : list ISource := map object chain.

End Sources.


Module SourcesExamples.
Import Go Chain Sources.

Definition h1 : handle := {| address := 1; object := Examples.P1 |}.
Definition h2 : handle := {| address := 2; object := Examples.P2 |}.
Definition h3 : handle := {| address := 3; object := Examples.P3 |}.

End SourcesExamples.


(** ** Registration in the registry driven package *)

Module Registration.
Import Go Legacy.

(** What [RegisterConstructor] reads of the method [Create] of a template:
    [Out0] is the constructed type, the key of [constructorsByType]. *)
Record createMethod : Type := {
  NumIn : nat;
  NumOut : nat;
  Out1ImplementsError : bool;
  Out0 : string;
  Out0IsInterface : bool;
}.

(** [reflect.TypeOf(tmpl).MethodByName("Create")] *)
Class MethodTable : Type := {
  CreateMethodOf : value -> option createMethod;
}.

Inductive refused : Type :=
| AfterLoad (name : string)
| NilType
| NoCreateMethod
| TakesArguments
| WrongResults
| AlreadyRegistered (constructedType name : string).

(** [constructorInfoFor]: the entry of the type, made when there is none. *)
Definition constructorInfoFor (constructedType : string)
    (types : list (string * constructorInfo))
    : constructorInfo * list (string * constructorInfo) :=
  match lookup_key constructedType types with
  | Some info => (info, types)
  | None =>
      let info := {| tmplByName := []; mustConstructByRef := [] |} in
      (info, types ++ [(constructedType, info)])
  end.

(** [RegisterConstructor]; a nil template has a nil [reflect.Type], and
    [MethodByName] on it panics. *)
Definition RegisterConstructor `{MethodTable} (name : string) (tmpl : iface) (st : state)
    : refused + state :=
  if loaded st then inl (AfterLoad name)
  else
    match tmpl with
    | None => inl NilType
    | Some t =>
        match CreateMethodOf t with
        | None => inl NoCreateMethod
        | Some createMethod =>
            if (1 <? NumIn createMethod)%nat then inl TakesArguments
            else if negb (Nat.eqb (NumOut createMethod) 2) then inl WrongResults
            else if negb (Out1ImplementsError createMethod) then inl WrongResults
            else if negb (Out0IsInterface createMethod) then inl WrongResults
            else
              let constructedType := Out0 createMethod in
              let '(info, types) :=
                constructorInfoFor constructedType (constructorsByType st) in
              match lookup_key name (tmplByName info) with
              | Some _ => inl (AlreadyRegistered constructedType name)
              | None =>
                  inr {| loaded := loaded st; sources := sources st;
                         mustConfigureByRef := mustConfigureByRef st;
                         constructorsByType :=
                           assign constructedType
                             {| tmplByName := assign name t (tmplByName info);
                                mustConstructByRef := mustConstructByRef info |} types;
                         configByRef := configByRef st |}
              end
        end
    end.

(** [MayConfigure], [MustConfigure], [MayConstruct], [MustConstruct] *)
Definition MayConfigure (ref : string) (tmpl : iface) := flagConfigure ref tmpl false.
Definition MustConfigure (ref : string) (tmpl : iface) := flagConfigure ref tmpl true.
Definition MayConstruct (ref : string) (constructedType : option string) :=
  flagConstruct ref constructedType false.
Definition MustConstruct (ref : string) (constructedType : option string) :=
  flagConstruct ref constructedType true.

End Registration.

Module RegistrationExamples.
Import Go Legacy Registration.

(** Every template has a method [Create() (Server, error)]. *)
Definition servers : MethodTable := {|
  CreateMethodOf := fun _ =>
    Some {| NumIn := 1; NumOut := 2; Out1ImplementsError := true;
            Out0 := "Server"; Out0IsInterface := true |};
|}.

Definition nothing : state := {|
  loaded := false; sources := []; mustConfigureByRef := [];
  constructorsByType := []; configByRef := [];
|}.

(** A source that names the registered implementation [http] and has its
    configuration. *)
Definition httpServer : namedSource := {|
  name := "custom";
  GetInto := fun ref _ =>
    if String.eqb ref "ms.server"
    then (Some (VMap (Some {[ "http" := VString "localhost:8080" ]})), None)
    else if String.eqb ref "ms.server.http"
    then (Some (VStruct "HttpServerConfig" [VString "localhost:8080"]), None)
    else (None, None);
|}.

End RegistrationExamples.

(** ** The source in memory: [source/mem] *)

Module Mem.
Import Go.

(** [reflect.DeepEqual] on the values of the model: same dynamic type and
    equal contents, maps key by key, a nil map only equal to a nil map, pointers
    by what they point to. *)
Fixpoint DeepEqual (a b : value) {struct a} : bool :=
  match a, b with
  | VBool x, VBool y => Bool.eqb x y
  | VInt x, VInt y => Z.eqb x y
  | VString x, VString y => String.eqb x y
  | VMap None, VMap None => true
  | VMap (Some m1), VMap (Some m2) =>
      bool_decide (merge (fun x y => match x, y with
                                     | Some u, Some v => if DeepEqual u v then None else Some tt
                                     | None, None => None
                                     | _, _ => Some tt
                                     end) m1 m2 = (∅ : gmap string unit))
  | VStruct n1 f1, VStruct n2 f2 =>
      String.eqb n1 n2 &&
      (fix go (l1 l2 : list value) : bool :=
         match l1, l2 with
         | [], [] => true
         | x :: l1', y :: l2' => DeepEqual x y && go l1' l2'
         | _, _ => false
         end) f1 f2
  | VPtr e1 t1, VPtr e2 t2 =>
      bool_decide (e1 = e2) &&
      match t1, t2 with
      | Some x, Some y => DeepEqual x y
      | None, None => true
      | _, _ => false
      end
  | _, _ => false
  end.

(** The number of constructors of a value, the measure of the induction on
    values. *)
Fixpoint value_size (v : value) : nat :=
  match v with
  | VBool _ | VInt _ | VString _ => 1
  | VMap None => 1
  | VMap (Some m) => S (map_fold (fun _ u acc => value_size u + acc) 0 m)
  | VStruct _ fields => S (fold_right (fun u acc => value_size u + acc) 0 fields)
  | VPtr _ None => 1
  | VPtr _ (Some u) => S (value_size u)
  end.

(** [memSource].  A slice of notifiers is a list, the nil slice the empty
    list: the code tests a slice against nil, appends to it and ranges over it,
    and does not tell the two apart otherwise. *)
Record memSource : Type := {
  byName : gmap string value;
  notifiers : gmap string (list INotifier);
}.

(** [New] *)
Definition New : memSource := {| byName := ∅; notifiers := ∅ |}.

(** [memSource.Name] *)
Definition Name (s : memSource) : string := "inMemory".

(** [s.notifiers[name]]: the nil slice for a name that is no key. *)
Definition registered (name : string) (s : memSource) : list INotifier :=
  default [] (notifiers s !! name).

(** [memSource.Get] *)
Definition Get (name : string) (notifier : option INotifier) (s : memSource)
    : (iface * option error) * memSource :=
  match byName s !! name with
  | Some v =>
      let s' :=
        match notifier with
        | Some n =>
            if Nat.eqb (length (registered name s)) 0
            then {| byName := byName s; notifiers := <[name := [n]]> (notifiers s) |}
            else {| byName := byName s;
                    notifiers := <[name := registered name s ++ [n]]> (notifiers s) |}
        | None => s
        end in
      ((Some v, None), s')
  | None => ((None, None), s)
  end.

(** The end of [memSource.set], after a change: the notifiers of the name
    are handed out and, when the name is a key of [notifiers], reset. *)
Definition changed (name : string) (values : gmap string value) (s : memSource)
    : (list INotifier * option error) * memSource :=
  match notifiers s !! name with
  | Some registered =>
      ((registered, None),
       {| byName := values; notifiers := <[name := []]> (notifiers s) |})
  | None => (([], None), {| byName := values; notifiers := notifiers s |})
  end.

(** [memSource.set] *)
Definition set (name : string) (value : iface) (s : memSource)
    : (list INotifier * option error) * memSource :=
  match value with
  | None =>
      match byName s !! name with
      | None => (([], None), s)
      | Some _ => changed name (delete name (byName s)) s
      end
  | Some v =>
      match byName s !! name with
      | None => changed name (<[name := v]> (byName s)) s
      | Some existingValue =>
          if negb (DeepEqual existingValue v)
          then changed name (<[name := v]> (byName s)) s
          else (([], None), s)
      end
  end.

(** [errors.Wrapf(err, "failed to set")] *)
Inductive failure : Type :=
| FailedToSet (cause : error).

(** [memSource.Set], whose name is a word of the language: the error, and
    the notifiers whose [Notify(name)] is called, in the order of the calls. *)
Definition Set_ (name : string) (value : iface) (s : memSource)
    : (option failure * list INotifier) * memSource :=
  let '((notifiers, err), s') := set name value s in
  match err with
  | Some e => ((Some (FailedToSet e), []), s')
  | None => ((None, notifiers), s')
  end.

(** [memSource.With] *)
Definition With (name : string) (value : iface) (s : memSource) : memSource :=
  snd (set name value s).

(** No notifier is registered for a name that has no value. *)
Definition watched_have_values (s : memSource) : Prop :=
  forall name, byName s !! name = None -> registered name s = [].

End Mem.

(** ** The lookup in a JSON file: [source/files] *)

Module Files.
Import Go.

(** [for len(name) > 0 && name[0] == '.' { name = name[1:] }] *)
Fixpoint skipDots (name : string) : string :=
  match name with
  | String c rest => if Ascii.eqb c "." then skipDots rest else name
  | EmptyString => name
  end.

(** [strings.SplitN(name, ".", 2)] *)
Fixpoint SplitN2 (name : string) : list string :=
  match name with
  | EmptyString => [EmptyString]
  | String c rest =>
      if Ascii.eqb c "." then [EmptyString; rest]
      else
        match SplitN2 rest with
        | part :: parts => String c part :: parts
        | [] => [String c EmptyString]
        end
  end.

(** [obj[key]] of a map that may be nil.  A key with the JSON value null is
    no key of the map of the model: [jsonGet] answers nil for both. *)
Definition index (obj : option (gmap string value)) (key : string) : option value :=
  match obj with
  | Some m => m !! key
  | None => None
  end.

(** [jsonGet]; each call of the recursion takes one unit of fuel. *)
Fixpoint jsonGet_rec (fuel : nat) (obj : option (gmap string value)) (name : string)
    : iface :=
  match fuel with
  | 0 => None
  | S fuel =>
      let name := skipDots name in
      match SplitN2 name with
      | [] => None
      | part0 :: more =>
          if Nat.eqb (String.length part0) 0 then None
          else
            match index obj part0 with
            | None => None
            | Some namedValue =>
                match more with
                | [] => Some namedValue
                | part1 :: _ =>
                    match namedValue with
                    | VMap subObj => jsonGet_rec fuel subObj part1
                    | _ => None
                    end
                end
            end
      end
  end.

(** The name gets shorter with each call. *)
Definition jsonGet (obj : option (gmap string value)) (name : string) : iface :=
  jsonGet_rec (S (String.length name)) obj name.

(** The value at the end of a path of keys. *)
Fixpoint lookup_path (obj : option (gmap string value)) (path : list string) : iface :=
  match path with
  | [] => None
  | key :: rest =>
      match index obj key with
      | None => None
      | Some v =>
          match rest with
          | [] => Some v
          | _ :: _ =>
              match v with
              | VMap subObj => lookup_path subObj rest
              | _ => None
              end
          end
      end
  end.

(** A key of a path: not empty, no dot in it. *)
Definition is_key (key : string) : bool :=
  negb (Nat.eqb (String.length key) 0) &&
  forallb (fun c => negb (Ascii.eqb c ".")) (list_ascii_of_string key).

End Files.

(** ** The life of a current value *)

Module Lifetime.
Import Go Chain Binder.

(** The configurable has a current value: it is in the heap, made for the
    struct type of the configurable, held by its creator through the release
    closure of the configurable, and its loop of [cleanup] runs. *)
Definition bound (c : configurable) (w : world) : Prop :=
  exists a cv,
    currentValue c = Some a /\
    currentReleaseFunc c = Some {| target := a; callerID := creatorID |} /\
    heap w !! a = Some cv /\
    valueType cv = structType c /\
    length (structPtrValue cv) = length (Fields (structType c)) /\
    creatorID ∈ users cv /\ exited cv = false.

(** The field type has a method [Create]. *)
Definition hasConstructor (f : StructField) : bool :=
  match Constructor f with Some _ => true | None => false end.

(** What [validateConfigStructType] asks of a field. *)
Definition configurableField (f : StructField) : Prop :=
  isPtr (if isPtr (FType f) then Elem (FType f) else FType f) = false /\
  Tag f <> "" /\
  CanInterface f = true /\
  (forall k, Constructor f = Some k ->
     NumIn (csig k) = 2 /\ In1IsPtr (csig k) = false /\ NumOut (csig k) = 2 /\
     Out0IsPtrToValType (csig k) = true /\ Out1IsError (csig k) = true) /\
  (forall d, Destructor f = Some d -> NumIn d = 1 /\ NumOut d = 0).

End Lifetime.

Module LifetimeExamples.
Import Go Chain Binder.

(** The method [Create] of [database]: it takes a [dbConfig] and returns a
    pointer to a [database] and an error. *)
Definition createDatabase : constructor := {|
  csig := {| NumIn := 2; In1IsPtr := false; NumOut := 2;
             Out0IsPtrToValType := true; Out1IsError := true |};
  argZero := Some (VStruct "dbConfig" [VString ""]);
  Create := fun cfg => (Some (VStruct "database" [cfg]), None);
|}.

(** The method [Destroy] of a pointer to [database]. *)
Definition destroyDatabase : signature :=
  {| NumIn := 1; In1IsPtr := false; NumOut := 0;
     Out0IsPtrToValType := false; Out1IsError := false |}.

(** [Db *database `json:"db"`] *)
Definition dbField : StructField := {|
  FName := "Db"; Tag := "db"; FType := TPtr (TStruct "database"); CanInterface := true;
  Constructor := Some createDatabase; Destructor := Some destroyDatabase;
  ElemHasDestructor := false;
|}.

(** [Db database `json:"db"`] *)
Definition dbValueField : StructField := {|
  FName := "Db"; Tag := "db"; FType := TStruct "database"; CanInterface := true;
  Constructor := Some createDatabase; Destructor := Some destroyDatabase;
  ElemHasDestructor := false;
|}.

(** [type service struct { Name string `json:"name"`; Db *database `json:"db"` }] *)
Definition serviceType : StructType :=
  {| TName := "service"; IsStruct := true; Fields := [Examples.nameField; dbField] |}.

Definition service : template :=
  {| templateType := serviceType;
     templateFields := [VString ""; VPtr (TStruct "database") None] |}.

(** The same struct with a database that is no pointer. *)
Definition strictServiceType : StructType :=
  {| TName := "service"; IsStruct := true; Fields := [Examples.nameField; dbValueField] |}.

Definition strictService : template :=
  {| templateType := strictServiceType;
     templateFields := [VString ""; VStruct "database" []] |}.

(** A source with the name and the database of the service. *)
Definition configured : ISource :=
  Examples.memSource {[ "name" := VString "Jan";
                        "db" := VStruct "dbConfig" [VString "postgres"] ]}.

(** The service made from [configured], revision 1, used by its creator. *)
Definition serviceValue : configValue :=
  {| structPtrValue :=
       [VString "Jan";
        VPtr (TStruct "database")
          (Some (VStruct "database" [VStruct "dbConfig" [VString "postgres"]]))];
     valueType := serviceType; revision := 1;
     users := {[creatorID]}; exited := false |}.

Definition serviceBinder : configurable :=
  {| self := 0; structType := serviceType;
     defaultStructValue := [VString ""; VPtr (TStruct "database") None];
     hasConstructedValues := true; currentValue := Some 0;
     currentReleaseFunc := Some {| target := 0; callerID := creatorID |} |}.

Definition serviceWorld (srcs : list ISource) : world :=
  {| allSources := srcs; heap := [serviceValue]; nextConfigurable := 1;
     configurableList := [0]; calls := [] |}.

(** The method [Create] of [cache]: it takes a [cacheConfig] and returns a
    pointer to a [cache] and an error. *)
Definition createCache : constructor := {|
  csig := {| NumIn := 2; In1IsPtr := false; NumOut := 2;
             Out0IsPtrToValType := true; Out1IsError := true |};
  argZero := Some (VStruct "cacheConfig" [VInt 0]);
  Create := fun cfg => (Some (VStruct "cache" [cfg]), None);
|}.

(** The field [Cache] of type pointer to [cache], with the tag [cache]; the
    method [Destroy] of [cache] has a value receiver, so it is a method of
    [cache] and of the pointer to [cache]. *)
Definition cacheField : StructField := {|
  FName := "Cache"; Tag := "cache"; FType := TPtr (TStruct "cache"); CanInterface := true;
  Constructor := Some createCache; Destructor := Some destroyDatabase;
  ElemHasDestructor := true;
|}.

Definition cachedType : StructType :=
  {| TName := "cached"; IsStruct := true; Fields := [Examples.nameField; cacheField] |}.

Definition cached : template :=
  {| templateType := cachedType;
     templateFields := [VString ""; VPtr (TStruct "cache") None] |}.

(** The cached service that [Add] makes from a source with the name only:
    the cache is nil. *)
Definition cachedValue : configValue :=
  {| structPtrValue := [VString "Jan"; VPtr (TStruct "cache") None];
     valueType := cachedType; revision := 1;
     users := {[creatorID]}; exited := false |}.

Definition cachedBinder : configurable :=
  {| self := 0; structType := cachedType;
     defaultStructValue := [VString ""; VPtr (TStruct "cache") None];
     hasConstructedValues := true; currentValue := Some 0;
     currentReleaseFunc := Some {| target := 0; callerID := creatorID |} |}.

Definition cachedWorld (srcs : list ISource) : world :=
  {| allSources := srcs; heap := [cachedValue]; nextConfigurable := 1;
     configurableList := [0];
     calls := [CallGet "inMemory" "name" (Some 0); CallGet "inMemory" "cache" (Some 0)] |}.

(** The source after the name has changed. *)
Definition renamed : ISource :=
  Examples.memSource {[ "name" := VString "Piet";
                        "db" := VStruct "dbConfig" [VString "postgres"] ]}.

End LifetimeExamples.

(** ** Adding sources to the registry driven package *)

Module Adding.
Import Go Legacy.

(** [strings.TrimSpace] *)
Class Strings : Type := {
  TrimSpace : string -> string;
}.

Inductive rejected : Type :=
| InvalidSourceName (name : string)
| NilSource.

(** [AddSource] *)
Definition AddSource `{Strings} (name : string)
    (source : option (string -> value -> iface * option error)) (st : state)
    : option rejected * state :=
  let name := TrimSpace name in
  if String.eqb name "" then (Some (InvalidSourceName name), st)
  else
    match source with
    | None => (Some NilSource, st)
    | Some getInto =>
        (None,
         {| loaded := loaded st;
            sources := sources st ++ [{| Legacy.name := name; GetInto := getInto |}];
            mustConfigureByRef := mustConfigureByRef st;
            constructorsByType := constructorsByType st;
            configByRef := configByRef st |})
    end.

End Adding.

Module AddingExamples.
Import Go Legacy Adding.

(** Spaces in front and at the end are cut off. *)
Fixpoint trimFront (s : string) : string :=
  match s with
  | String c rest => if Ascii.eqb c " " then trimFront rest else s
  | EmptyString => s
  end.

Definition reverse (s : string) : string :=
  string_of_list_ascii (rev (list_ascii_of_string s)).

Definition spaces : Strings := {|
  TrimSpace := fun s => reverse (trimFront (reverse (trimFront s)));
|}.

(** A source that has the name of the service. *)
Definition named (who : string) : string -> value -> iface * option error :=
  fun ref _ => if String.eqb ref "ms.name" then (Some (VString who), None) else (None, None).

(** The name of the service is asked for, and two sources have it. *)
Definition twoNames : state := {|
  loaded := false;
  sources := [{| name := "first"; GetInto := named "Jan" |};
              {| name := "second"; GetInto := named "Piet" |}];
  mustConfigureByRef := [("ms.name", VString "")];
  constructorsByType := [];
  configByRef := [];
|}.

End AddingExamples.

(** ** The package with [Require]: [config.go] and [source.go] *)

Module Requiring.
Import Go.

(** [Source]: the method [GetInto]. *)
Definition Source : Type := string -> iface -> iface * option error.

(** The type assertion [configValue.(Constructor)] with the results of
    [Create]: [None] when the value is no [Constructor]. *)
Class Constructors : Type := {
  CreateOf : value -> option (iface * option error);
}.

(** The variables of the package; a map is [None] when it is nil, and the
    list of its entries otherwise. *)
Record state : Type := {
  sources : list (string * option Source);
  required : list (string * iface);
  valueByName : option (list (string * value));
  createdByName : option (list (string * iface));
}.

(** The package as it is declared: [createdByName] and [valueByName] are
    nil maps. *)
Definition declared : state :=
  {| sources := []; required := []; valueByName := None; createdByName := None |}.

Inductive failure : Type :=
| RequireAfterLoad (name : string)
| ConflictingType (name : string)
| SourceInvalid (cause : error) (sourceName configName : string)
| FoundInSources (configName : string) (count : nat)
| FailedToConstruct (cause : error) (configName : string)
| LoadFailed (name : string)
| NotRequired (name : string).

(** [AddSource] *)
Definition AddSource (name : string) (source : option Source) (st : state)
    : option failure * state :=
  (None,
   {| sources := Legacy.assign name source (sources st); required := required st;
      valueByName := valueByName st; createdByName := createdByName st |}).

(** [Require] *)
Definition Require (name : string) (tmpl : iface) (st : state) : option failure * state :=
  match valueByName st with
  | Some _ => (Some (RequireAfterLoad name), st)
  | None =>
      match Legacy.lookup_key name (required st) with
      | Some existingTmpl =>
          if decide (TypeOf <$> tmpl = TypeOf <$> existingTmpl) then (None, st)
          else (Some (ConflictingType name), st)
      | None =>
          (None,
           {| sources := sources st;
              required := Legacy.assign name tmpl (required st);
              valueByName := valueByName st; createdByName := createdByName st |})
      end
  end.

(** The loop over the sources for one name: the values, the names of the
    sources that have the name, and how the loop left [Load], if it did. *)
Fixpoint askSources (srcs : list (string * option Source)) (configName : string)
    (requiredTmpl : iface) (values : list (string * value)) (found : gset string)
    : ((list (string * value) * gset string) * option (outcome (option failure))) * list event :=
  match srcs with
  | [] => ((values, found, None), [])
  | (sourceName, source) :: rest =>
      match source with
      | None => ((values, found, Some Panic), [])
      | Some getInto =>
          let '(configuredValue, err) := getInto configName requiredTmpl in
          let call := CallGetInto sourceName configName in
          match err with
          | Some e =>
              ((values, found,
                Some (Return (Some (SourceInvalid e sourceName configName)))), [call])
          | None =>
              match configuredValue with
              | Some v =>
                  let '(r, evs) :=
                    askSources rest configName requiredTmpl
                      (Legacy.assign configName v values) ({[sourceName]} ∪ found) in
                  (r, call :: evs)
              | None =>
                  let '(r, evs) := askSources rest configName requiredTmpl values found in
                  (r, call :: evs)
              end
          end
      end
  end.

(** The loop over the required names. *)
Fixpoint loadRequired (srcs : list (string * option Source)) (names : list (string * iface))
    (values : list (string * value))
    : (list (string * value) * option (outcome (option failure))) * list event :=
  match names with
  | [] => ((values, None), [])
  | (configName, requiredTmpl) :: rest =>
      let '((values, found, out), evs) :=
        askSources srcs configName requiredTmpl values ∅ in
      match out with
      | Some _ => ((values, out), evs)
      | None =>
          if negb (Nat.eqb (size found) 1)
          then ((values, Some (Return (Some (FoundInSources configName (size found))))), evs)
          else
            let '(r, evs') := loadRequired srcs rest values in
            (r, evs ++ evs')
      end
  end.

(** The loop over the values: a write to [createdByName] panics while that
    map is nil. *)
Fixpoint constructAll `{Constructors} (values : list (string * value))
    (created : option (list (string * iface)))
    : (option (list (string * iface)) * option (outcome (option failure))) * list event :=
  match values with
  | [] => ((created, None), [])
  | (configName, configValue) :: rest =>
      match CreateOf configValue with
      | None => constructAll rest created
      | Some (made, err) =>
          let call := CallCreateOf configName configValue in
          match err with
          | Some e => ((created, Some (Return (Some (FailedToConstruct e configName)))), [call])
          | None =>
              match created with
              | None => ((created, Some Panic), [call])
              | Some m =>
                  let '(r, evs) := constructAll rest (Some (Legacy.assign configName made m)) in
                  (r, call :: evs)
              end
          end
      end
  end.

(** [Load] *)
Definition Load `{Constructors} (st : state)
    : (outcome (option failure) * state) * list event :=
  match valueByName st with
  | Some _ => ((Return None, st), [])
  | None =>
      let '((values, out1), evs1) := loadRequired (sources st) (required st) [] in
      match out1 with
      | Some r =>
          ((r, {| sources := sources st; required := required st;
                  valueByName := Some values; createdByName := createdByName st |}), evs1)
      | None =>
          let '((created, out2), evs2) := constructAll values (createdByName st) in
          let st' := {| sources := sources st; required := required st;
                        valueByName := Some values; createdByName := created |} in
          match out2 with
          | Some r => ((r, st'), evs1 ++ evs2)
          | None => ((Return None, st'), evs1 ++ evs2)
          end
      end
  end.

(** The source is there and has no value for the name. *)
Definition quiet (name : string) (tmpl : iface) (s : string * option Source) : Prop :=
  exists getInto, snd s = Some getInto /\ getInto name tmpl = (None, None).

(** [m[name]] of a map that may be nil. *)
Definition entry {A : Type} (name : string) (m : option (list (string * A))) : option A :=
  match m with
  | Some entries => Legacy.lookup_key name entries
  | None => None
  end.

(** [Get] *)
Definition Get `{Constructors} (name : string) (st : state)
    : (outcome (iface * option failure) * state) * list event :=
  let '((r, st'), evs) := Load st in
  match r with
  | Panic => ((Panic, st'), evs)
  | Blocked => ((Blocked, st'), evs)
  | Return (Some _) => ((Return (None, Some (LoadFailed name)), st'), evs)
  | Return None =>
      match Legacy.lookup_key name (required st') with
      | None => ((Return (None, Some (NotRequired name)), st'), evs)
      | Some _ =>
          match entry name (createdByName st') with
          | Some v => ((Return (v, None), st'), evs)
          | None =>
              match entry name (valueByName st') with
              | Some v => ((Return (Some v, None), st'), evs)
              | None => ((Panic, st'), evs)
              end
          end
      end
  end.

End Requiring.

Module RequiringExamples.
Import Go Requiring.

(** No value is a [Constructor]. *)
Definition plainValues : Constructors := {| CreateOf := fun _ => None |}.

(** Every value is a [Constructor] whose [Create] gives the value back. *)
Definition constructing : Constructors :=
  {| CreateOf := fun v => Some (Some v, None) |}.

(** A source that has the name of the service. *)
Definition named (who : string) : Source :=
  fun name _ => if String.eqb name "name" then (Some (VString who), None) else (None, None).

(** A source without values. *)
Definition nothing : Source := fun _ _ => (None, None).

(** The name is required; one source has it. *)
Definition oneName : state :=
  {| sources := [("env", Some nothing); ("file", Some (named "Jan"))];
     required := [("name", Some (VString ""))];
     valueByName := None; createdByName := None |}.

(** The name is required; no source has it. *)
Definition noName : state :=
  {| sources := [("env", Some nothing)];
     required := [("name", Some (VString ""))];
     valueByName := None; createdByName := None |}.

End RequiringExamples.

(** * Properties *)

(** ** The matcher decides the language *)

Module RegexpFacts.
Import Regexp.

Lemma matches_void_inv s : matches Void s -> False.
Proof. inversion 1. Qed.

Lemma matches_empty_inv s : matches Empty s -> s = [].
Proof. by inversion 1. Qed.

Lemma matches_class_inv cl s :
  matches (Class cl) s -> exists c, s = [c] /\ in_class cl c = true.
Proof. inversion 1; subst; eauto. Qed.

Lemma matches_concat_inv r1 r2 s :
  matches (Concat r1 r2) s ->
  exists s1 s2, s = s1 ++ s2 /\ matches r1 s1 /\ matches r2 s2.
Proof. inversion 1; subst; eauto. Qed.

Lemma matches_alt_inv r1 r2 s :
  matches (Alternate r1 r2) s -> matches r1 s \/ matches r2 s.
Proof. inversion 1; subst; auto. Qed.

(** A non-empty word of a star starts with a non-empty word of the body. *)
Lemma matches_star_cons r c s :
  matches (Star r) (c :: s) ->
  exists s1 s2, s = s1 ++ s2 /\ matches r (c :: s1) /\ matches (Star r) s2.
Proof.
  intros Hm.
  remember (Star r) as e eqn:He. remember (c :: s) as w eqn:Hw.
  revert c s Hw.
  induction Hm as [| | | | | |r' s1 s2 H1 _ H2 IH2]; try discriminate.
  intros c s Hw. injection He as ->.
  destruct s1 as [|c1 s1]; simpl in Hw.
  - apply (IH2 eq_refl _ _ Hw).
  - injection Hw as -> <-. eauto.
Qed.

Lemma nullable_matches r : nullable r = true <-> matches r [].
Proof.
  induction r as [| |cl|r1 IH1 r2 IH2|r1 IH1 r2 IH2|r IH]; simpl.
  - split; [discriminate | intros Hm; destruct (matches_void_inv _ Hm)].
  - split; [constructor | reflexivity].
  - split; [discriminate|].
    intros Hm. apply matches_class_inv in Hm as (c & Hc & _). discriminate.
  - rewrite andb_true_iff, IH1, IH2. split.
    + intros [H1 H2]. apply (MConcat _ _ [] [] H1 H2).
    + intros Hm. apply matches_concat_inv in Hm as (s1 & s2 & Hs & H1 & H2).
      symmetry in Hs. apply app_eq_nil in Hs as [-> ->]. auto.
  - rewrite orb_true_iff, IH1, IH2. split.
    + intros [H1|H2]; [by apply MAltL | by apply MAltR].
    + apply matches_alt_inv.
  - split; [constructor | reflexivity].
Qed.

Lemma derive_matches c r s : matches (derive c r) s <-> matches r (c :: s).
Proof.
  revert s.
  induction r as [| |cl|r1 IH1 r2 IH2|r1 IH1 r2 IH2|r IH]; intros s; simpl.
  - split; intros Hm; destruct (matches_void_inv _ Hm).
  - split; intros Hm; [destruct (matches_void_inv _ Hm)|].
    apply matches_empty_inv in Hm. discriminate.
  - destruct (in_class cl c) eqn:Hc.
    + split; intros Hm.
      * apply matches_empty_inv in Hm as ->. by constructor.
      * apply matches_class_inv in Hm as (c' & Hs & _). injection Hs as -> ->. constructor.
    + split; intros Hm; [destruct (matches_void_inv _ Hm)|].
      apply matches_class_inv in Hm as (c' & Hs & Hc'). injection Hs as -> ->. congruence.
  - assert (Hleft : matches (Concat (derive c r1) r2) s ->
                    matches (Concat r1 r2) (c :: s)).
    { intros Hm. apply matches_concat_inv in Hm as (s1 & s2 & -> & H1 & H2).
      apply IH1 in H1. apply (MConcat _ _ (c :: s1) s2 H1 H2). }
    assert (Hsplit : matches (Concat r1 r2) (c :: s) ->
                     matches (Concat (derive c r1) r2) s \/
                     (matches r1 [] /\ matches r2 (c :: s))).
    { intros Hm. apply matches_concat_inv in Hm as (s1 & s2 & Hs & H1 & H2).
      destruct s1 as [|c1 s1]; simpl in Hs.
      - right. subst s2. auto.
      - injection Hs as <- ->. left. apply IH1 in H1. by constructor. }
    destruct (nullable r1) eqn:Hn.
    + split; intros Hm.
      * apply matches_alt_inv in Hm as [Hm|Hm]; [auto|].
        apply IH2 in Hm. apply nullable_matches in Hn.
        apply (MConcat _ _ [] (c :: s) Hn Hm).
      * apply Hsplit in Hm as [Hm|[_ Hm]]; [by apply MAltL|].
        apply MAltR. by apply IH2.
    + split; [auto|]. intros Hm.
      apply Hsplit in Hm as [Hm|[Hm _]]; [done|].
      apply nullable_matches in Hm. congruence.
  - split; intros Hm.
    + apply matches_alt_inv in Hm as [Hm|Hm]; [apply MAltL, IH1 | apply MAltR, IH2]; done.
    + apply matches_alt_inv in Hm as [Hm|Hm]; [apply MAltL, IH1 | apply MAltR, IH2]; done.
  - split; intros Hm.
    + apply matches_concat_inv in Hm as (s1 & s2 & -> & H1 & H2).
      apply IH in H1. apply (MStarApp _ (c :: s1) s2 H1 H2).
    + apply matches_star_cons in Hm as (s1 & s2 & -> & H1 & H2).
      apply IH in H1. by constructor.
Qed.

Lemma accepts_matches r s : accepts r s = true <-> matches r s.
Proof.
  revert r. induction s as [|c s IH]; intros r; simpl.
  - apply nullable_matches.
  - rewrite IH. apply derive_matches.
Qed.

(** The star of a class holds the words made of its characters. *)
Lemma matches_star_class cl s :
  matches (Star (Class cl)) s <-> forallb (in_class cl) s = true.
Proof.
  split.
  - intros Hm. remember (Star (Class cl)) as e eqn:He.
    induction Hm as [| | | | | |r' s1 s2 H1 _ H2 IH2]; try discriminate; [done|].
    injection He as ->.
    apply matches_class_inv in H1 as (c & -> & Hc).
    simpl. rewrite Hc. by apply IH2.
  - induction s as [|c s IH]; simpl; [constructor|].
    intros [Hc Hs]%andb_true_iff.
    apply (MStarApp _ [c] s); [by constructor | auto].
Qed.

End RegexpFacts.

(** ** The reference grammar *)

Module ReferenceFacts.
Import Regexp RegexpFacts Reference.

Lemma alnum_name_char c : is_alnum c = true -> is_name_char c = true.
Proof.
  unfold is_alnum, is_name_char, in_class, alnums, nameChars. simpl.
  rewrite !orb_true_iff. tauto.
Qed.

Lemma letter_alnum c : is_letter c = true -> is_alnum c = true.
Proof.
  unfold is_letter, is_alnum, in_class, letters, alnums. simpl.
  rewrite !orb_true_iff. tauto.
Qed.

Lemma name_char_not_dot c : is_name_char c = true -> is_dot c = false.
Proof.
  destruct c as [[] [] [] [] [] [] [] []]; vm_compute; congruence.
Qed.

Lemma dot_is_dot c : is_dot c = true -> c = "."%char.
Proof.
  destruct c as [[] [] [] [] [] [] [] []]; vm_compute; congruence.
Qed.

Lemma last_app_cons {A} (l1 : list A) x l2 d : List.last (l1 ++ x :: l2) d = List.last (x :: l2) d.
Proof.
  induction l1 as [|y l1 IH]; [done|].
  change ((y :: l1) ++ x :: l2) with (y :: (l1 ++ x :: l2)).
  destruct (l1 ++ x :: l2) eqn:E; [by destruct l1|].
  simpl. simpl in IH. by rewrite <- IH.
Qed.

Lemma last_cons_default {A} (x : A) l d d' : List.last (x :: l) d = List.last (x :: l) d'.
Proof.
  revert x. induction l as [|y l IH]; intros x; [done|].
  change (List.last (y :: l) d = List.last (y :: l) d'). apply IH.
Qed.

Lemma nameTail_sound l d :
  is_alnum d = true ->
  matches nameTail l ->
  forallb is_name_char l = true /\ is_alnum (List.last l d) = true.
Proof.
  intros Hd Hm. unfold nameTail in Hm.
  remember (Star (Concat (Star (Class nameChars)) (Class alnums))) as e eqn:He.
  induction Hm as [| | | | | |r' s1 s2 H1 _ H2 IH2]; try discriminate; [done|].
  injection He as ->. specialize (IH2 eq_refl) as [IHa IHb].
  apply matches_concat_inv in H1 as (p & q & -> & Hp & Hq).
  apply matches_star_class in Hp.
  apply matches_class_inv in Hq as (a & -> & Ha).
  split.
  - rewrite !forallb_app. simpl. change (forallb is_name_char p = true) in Hp. rewrite Hp, IHa.
    by rewrite (alnum_name_char a Ha).
  - rewrite <- app_assoc. simpl.
    destruct s2 as [|b s2].
    + by rewrite last_app_cons.
    + rewrite last_app_cons.
      change (List.last (a :: b :: s2) d) with (List.last (b :: s2) d). done.
Qed.

Lemma nameTail_complete l d :
  forallb is_name_char l = true -> is_alnum (List.last l d) = true ->
  matches nameTail l.
Proof.
  intros Hall Hlast. unfold nameTail.
  destruct l as [|c l]; [constructor|].
  assert (Hne : c :: l <> []) by done.
  rewrite (app_removelast_last d Hne) in *.
  rewrite forallb_app in Hall. apply andb_true_iff in Hall as [Hinit _].
  rewrite last_app_cons in Hlast. simpl in Hlast.
  rewrite <- (app_nil_r (_ ++ _)).
  apply MStarApp; [|constructor].
  apply MConcat; [by apply matches_star_class | by constructor].
Qed.

Lemma namePattern_strict l : matches namePattern l <-> strict_name l = true.
Proof.
  unfold namePattern. fold nameTail. split.
  - intros Hm. apply matches_concat_inv in Hm as (s1 & s2 & -> & H1 & H2).
    apply matches_class_inv in H1 as (c & -> & Hc).
    apply (nameTail_sound _ c (letter_alnum c Hc)) in H2 as [Ha Hb].
    simpl. unfold is_letter. by rewrite Hc, Ha, Hb.
  - destruct l as [|c rest]; [discriminate|]. simpl.
    intros [[Hc Hall]%andb_true_iff Hlast]%andb_true_iff.
    apply (MConcat _ _ [c] rest); [by constructor|].
    by apply (nameTail_complete rest c).
Qed.

Lemma strict_name_no_dot n : strict_name n = true -> forallb (fun c => negb (is_dot c)) n = true.
Proof.
  destruct n as [|c rest]; [discriminate|]. simpl.
  intros [[Hc Hall]%andb_true_iff _]%andb_true_iff.
  rewrite (name_char_not_dot c (alnum_name_char c (letter_alnum c Hc))). simpl.
  induction rest as [|x rest IH]; [done|]. simpl in *.
  apply andb_true_iff in Hall as [Hx Hall].
  by rewrite (name_char_not_dot x Hx), IH.
Qed.

Lemma split_dots_cons_view s : exists seg segs, split_dots s = seg :: segs.
Proof.
  destruct s as [|c s]; simpl; [eauto|].
  destruct (is_dot c); [eauto|]. destruct (split_dots s); eauto.
Qed.

Lemma split_dots_app n tail :
  forallb (fun c => negb (is_dot c)) n = true ->
  split_dots (n ++ "."%char :: tail) = n :: split_dots tail.
Proof.
  induction n as [|c n IH]; simpl; [done|].
  intros [Hc Hn]%andb_true_iff. apply negb_true_iff in Hc. rewrite Hc.
  by rewrite (IH Hn).
Qed.

Lemma split_dots_plain n :
  forallb (fun c => negb (is_dot c)) n = true -> split_dots n = [n].
Proof.
  induction n as [|c n IH]; simpl; [done|].
  intros [Hc Hn]%andb_true_iff. apply negb_true_iff in Hc. rewrite Hc.
  by rewrite (IH Hn).
Qed.

Lemma join_split s : join_dots (split_dots s) = s.
Proof.
  induction s as [|c s IH]; simpl; [done|].
  destruct (is_dot c) eqn:Hc.
  - apply dot_is_dot in Hc as ->. simpl.
    destruct (split_dots_cons_view s) as (seg & segs & E). rewrite E in *.
    simpl in IH. simpl. by rewrite IH.
  - destruct (split_dots_cons_view s) as (seg & segs & E). rewrite E in *.
    simpl in *. by rewrite IH.
Qed.

Lemma refTail_sound tail :
  matches refTail tail ->
  forall n, strict_name n = true -> forallb strict_name (split_dots (n ++ tail)) = true.
Proof.
  intros Hm. unfold refTail in Hm.
  remember (Star (Concat (Class dot) namePattern)) as e eqn:He.
  induction Hm as [| | | | | |r' s1 s2 H1 _ H2 IH2]; try discriminate.
  - intros n Hn. rewrite app_nil_r, (split_dots_plain n (strict_name_no_dot n Hn)).
    simpl. by rewrite Hn.
  - injection He as ->. specialize (IH2 eq_refl). intros n Hn.
    apply matches_concat_inv in H1 as (p & q & -> & Hp & Hq).
    apply matches_class_inv in Hp as (c & -> & Hc). apply dot_is_dot in Hc as ->.
    apply namePattern_strict in Hq.
    simpl. rewrite (split_dots_app n _ (strict_name_no_dot n Hn)).
    simpl. rewrite Hn. by apply IH2.
Qed.

Lemma refTail_complete segs :
  forallb strict_name segs = true ->
  matches refTail (flat_map (fun seg => "."%char :: seg) segs).
Proof.
  unfold refTail. induction segs as [|n segs IH]; simpl; [constructor|].
  intros [Hn Hsegs]%andb_true_iff.
  change ("."%char :: n ++ flat_map (fun seg => "."%char :: seg) segs)
    with (("."%char :: n) ++ flat_map (fun seg => "."%char :: seg) segs).
  apply MStarApp; [|by apply IH].
  apply (MConcat _ _ ["."%char] n); [by constructor | by apply namePattern_strict].
Qed.

Lemma refPattern_strict l :
  matches refPattern l <-> forallb strict_name (split_dots l) = true.
Proof.
  unfold refPattern. fold refTail. split.
  - intros Hm. apply matches_concat_inv in Hm as (n & tail & -> & Hn & Ht).
    apply namePattern_strict in Hn. by apply refTail_sound.
  - intros Hall. rewrite <- (join_split l).
    destruct (split_dots_cons_view l) as (n & segs & E). rewrite E in *.
    simpl in *. apply andb_true_iff in Hall as [Hn Hsegs].
    apply MConcat; [by apply namePattern_strict | by apply refTail_complete].
Qed.

Lemma validReference_strict s : validReference s = strict_reference s.
Proof.
  unfold validReference, strict_reference, MatchString, refRegex.
  apply eq_true_iff_eq. rewrite accepts_matches. apply refPattern_strict.
Qed.

End ReferenceFacts.

(** ** The provider chain *)

Module ChainFacts.
Import Go Chain.

Section WithRuntime.
Context `{Runtime}.

Lemma getValue_silent name d n srcs :
  Forall (silent name n) srcs ->
  getValue srcs name d n = ((d, None), map (call_of name n) srcs).
Proof.
  induction 1 as [|s srcs Hs _ IH]; simpl; [done|].
  unfold silent in Hs. by rewrite Hs, IH.
Qed.

Lemma getValue_skip name d n before rest :
  Forall (silent name n) before ->
  getValue (before ++ rest) name d n =
    (fst (getValue rest name d n),
     map (call_of name n) before ++ snd (getValue rest name d n)).
Proof.
  induction 1 as [|s before Hs _ IH]; simpl.
  - by destruct (getValue rest name d n).
  - unfold silent in Hs. by rewrite Hs, IH.
Qed.

Lemma getValue_only_gets srcs name d n :
  Forall (fun ev => is_CallGet ev = true) (snd (getValue srcs name d n)).
Proof.
  induction srcs as [|s srcs IH]; simpl; [constructor|].
  destruct (Get s name n) as [v [e|]]; simpl; [by repeat constructor|].
  destruct v as [v|]; simpl; [by repeat constructor|].
  destruct (getValue srcs name d n) as [r evs]. simpl in *. by constructor.
Qed.

End WithRuntime.

(** C2, amended.  [getValue] asks the sources in the order of the chain.
    The sources in front of the first one that answers have all said
    [(nil, nil)]; the first value that is not nil is the result, and the first
    error ends the resolution with that error wrapped; in both cases the calls
    made are those to the sources up to that one, none to a later source.  When
    every source says [(nil, nil)] the result is the default value handed in,
    with no error. *)
Theorem getValue_first_answer `{Runtime} (name : string) (d : iface)
    (n : option INotifier) (before : list ISource) :
  Forall (silent name n) before ->
  getValue before name d n = ((d, None), map (call_of name n) before) /\
  (forall s after v,
     Get s name n = (Some v, None) ->
     getValue (before ++ s :: after) name d n =
       ((Some v, None), map (call_of name n) (before ++ [s]))) /\
  (forall s after v e,
     Get s name n = (v, Some e) ->
     getValue (before ++ s :: after) name d n =
       ((None, Some (Wrapped e (SourceGetFailed (Name s) name))),
        map (call_of name n) (before ++ [s]))).
Proof.
  intros Hb. split; [by apply getValue_silent|]. split.
  - intros s after v Hs. rewrite (getValue_skip _ _ _ _ _ Hb). simpl.
    rewrite Hs. simpl. by rewrite map_app.
  - intros s after v e Hs. rewrite (getValue_skip _ _ _ _ _ Hb). simpl.
    rewrite Hs. simpl. by rewrite map_app.
Qed.

(** C9, amended.  When the value that [getValue] hands to [Get] is the zero
    value of its type, whether a source had it or it is the default, [Get]
    answers [(nil, nil)] and makes no further call: the same answer as with no
    source and no default at all.  A chain in which no source has the name
    gives that answer when the default is nil or a zero value, and only then:
    with any other default it gives the default or the error of its
    [Validate].  And a source that has the zero value for the name ends the
    resolution, the sources behind it are not asked, whereas a source that has
    nothing for the name leaves the answer to the sources behind it. *)
Theorem Get_zero_value_is_absent `{Runtime} (srcs : list ISource) (name : string)
    (d : iface) (n : option INotifier) (v : value) (calls : list event) :
  getValue srcs name d n = ((Some v, None), calls) ->
  IsZero v = true ->
  sources_Get srcs name d n = ((None, None), calls) /\
  fst (sources_Get srcs name d n) = fst (sources_Get [] name None n) /\
  (forall srcs',
     Forall (silent name n) srcs' ->
     (fst (sources_Get srcs' name d n) = fst (sources_Get srcs name d n) <->
      forall d', d = Some d' -> IsZero d' = true)) /\
  (forall before s after d0,
     Forall (silent name n) before ->
     Get s name n = (Some v, None) ->
     sources_Get (before ++ s :: after) name d0 n =
       ((None, None), map (call_of name n) (before ++ [s])) /\
     fst (sources_Get (before ++ after) name d0 n) = fst (sources_Get after name d0 n)).
Proof.
  intros Hg Hz.
  assert (Hget : sources_Get srcs name d n = ((None, None), calls)).
  { unfold sources_Get. by rewrite Hg, Hz. }
  split; [done|]. split; [by rewrite Hget|]. split.
  - intros srcs' Hs. rewrite Hget. unfold sources_Get.
    rewrite (getValue_silent _ _ _ _ Hs). cbn [fst]. split.
    + intros Hr d' ->. destruct (IsZero d') eqn:Hd; [done|].
      unfold convert in Hr. rewrite decide_True in Hr by done.
      unfold validated in Hr. by destruct (Validate d') as [[e|]|].
    + intros Hd. destruct d as [d'|]; [|done]. by rewrite (Hd d' eq_refl).
  - intros before s after d0 Hb Hs. split.
    + unfold sources_Get. rewrite (getValue_skip _ _ _ _ _ Hb). simpl.
      rewrite Hs. simpl. by rewrite Hz, map_app.
    + unfold sources_Get. rewrite (getValue_skip _ _ _ _ _ Hb).
      destruct (getValue after name d0 n) as [[v0 [e|]] evs]; simpl; [done|].
      destruct v0 as [v0|]; [|done]. destruct (IsZero v0); [done|].
      destruct d0 as [d'|]; [|done].
      destruct (convert v0 (TypeOf d')) as [[v1 [e|]] evs1]; [done|].
      by destruct (validated name v1).
Qed.

(** C10, amended.  With a nil default [Get] makes no call but the [Get] of
    the sources: no conversion and no [Validate], whatever the type of the
    value exposes.  The value of the first source that has one is returned
    as it is when it is not a zero value, and [(nil, nil)] is returned when it
    is; and a run of [Get] that converts or validates had a default that is
    not nil. *)
Theorem Get_nil_default `{Runtime} (srcs : list ISource) (name : string)
    (n : option INotifier) :
  Forall (fun ev => is_CallGet ev = true) (snd (sources_Get srcs name None n)) /\
  (forall v calls,
     getValue srcs name None n = ((Some v, None), calls) ->
     sources_Get srcs name None n = ((if IsZero v then None else Some v, None), calls)) /\
  (forall d, ~ Forall (fun ev => is_CallGet ev = true) (snd (sources_Get srcs name d n)) ->
             d <> None).
Proof.
  assert (Hnil : Forall (fun ev => is_CallGet ev = true) (snd (sources_Get srcs name None n))).
  { pose proof (getValue_only_gets srcs name None n) as Hg.
    unfold sources_Get. destruct (getValue srcs name None n) as [[v e] evs]. simpl in Hg.
    destruct e; [done|]. destruct v as [v|]; [|done]. by destruct (IsZero v). }
  split; [done|]. split.
  - intros v calls Hg. unfold sources_Get. rewrite Hg. by destruct (IsZero v).
  - intros d Hd ->. by apply Hd.
Qed.

(** The scenario of the specification: P1 has nothing, P2 has Jan, P3 has
    Other; the name resolves to Jan and P3 is not asked. *)
Lemma getValue_first_answer_witness :
  Forall (silent "name" None) [Examples.P1] /\
  @getValue Examples.plain [Examples.P1; Examples.P2; Examples.P3] "name" None None =
    ((Some (VString "Jan"), None),
     [CallGet "inMemory" "name" None; CallGet "inMemory" "name" None]).
Proof.
  assert (Hs : Forall (silent "name" None) [Examples.P1]).
  { constructor; [reflexivity | constructor]. }
  split; [exact Hs|].
  exact (proj1 (proj2 (@getValue_first_answer Examples.plain "name" None None
                         [Examples.P1] Hs))
           Examples.P2 [Examples.P3] (VString "Jan") eq_refl).
Defined.

(** No source has the name, and still the result is not [(nil, nil)]: it is
    the default. *)
Lemma getValue_absent_counterexample :
  Forall (silent "name" None) [Examples.P1] /\
  fst (@getValue Examples.plain [Examples.P1] "name" (Some (VString "Jan")) None)
    = (Some (VString "Jan"), None) /\
  fst (@sources_Get Examples.plain [Examples.P1] "name" (Some (VString "Jan")) None)
    <> (None, None).
Proof.
  split; [constructor; [reflexivity | constructor]|].
  split; [reflexivity|]. vm_compute. discriminate.
Qed.

Lemma Get_zero_value_is_absent_witness :
  @sources_Get Examples.plain [Examples.P1; Examples.Pempty; Examples.P2] "name"
     (Some (VString "default")) None =
    ((None, None), [CallGet "inMemory" "name" None; CallGet "inMemory" "name" None]).
Proof.
  exact (proj1 (@Get_zero_value_is_absent Examples.plain
                  [Examples.P1; Examples.Pempty; Examples.P2] "name"
                  (Some (VString "default")) None (VString "")
                  [CallGet "inMemory" "name" None; CallGet "inMemory" "name" None]
                  eq_refl eq_refl)).
Defined.

(** One chain has the empty string for the name, the other has nothing.  With
    the default Jan the first answers [(nil, nil)] and the second Jan; with
    Jan in a later source the first answers [(nil, nil)] and the second Jan. *)
Lemma Get_zero_value_counterexample :
  Get Examples.Pempty "name" None = (Some (VString ""), None) /\
  Get Examples.P1 "name" None = (None, None) /\
  fst (@sources_Get Examples.plain [Examples.Pempty] "name" (Some (VString "Jan")) None)
    = (None, None) /\
  fst (@sources_Get Examples.plain [Examples.P1] "name" (Some (VString "Jan")) None)
    = (Some (VString "Jan"), None) /\
  fst (@sources_Get Examples.plain [Examples.Pempty; Examples.P2] "name" None None)
    = (None, None) /\
  fst (@sources_Get Examples.plain [Examples.P1; Examples.P2] "name" None None)
    = (Some (VString "Jan"), None).
Proof.
  repeat split; vm_compute; reflexivity.
Qed.

Lemma Get_nil_default_witness :
  @sources_Get Examples.strict [Examples.P2] "name" None None =
    ((Some (VString "Jan"), None), [CallGet "inMemory" "name" None]).
Proof.
  exact (proj1 (proj2 (@Get_nil_default Examples.strict [Examples.P2] "name" None))
           (VString "Jan") [CallGet "inMemory" "name" None] eq_refl).
Defined.

(** The first source has the empty string for the name; with a nil default
    [Get] does not return it: it answers [(nil, nil)]. *)
Lemma Get_nil_default_counterexample :
  Get Examples.Pempty "name" None = (Some (VString ""), None) /\
  fst (@sources_Get Examples.strict [Examples.Pempty] "name" None None) = (None, None) /\
  fst (@sources_Get Examples.strict [Examples.Pempty] "name" None None)
    <> (Some (VString ""), None).
Proof.
  split; [reflexivity|]. split; [reflexivity|]. vm_compute. discriminate.
Qed.

End ChainFacts.

(** ** References at registration *)

Module RegistrationFacts.
Import Go Reference ReferenceFacts Legacy.

(** C8, amended.  [validReference] accepts a string exactly when it is a
    sequence of names separated by dots, each name beginning with a letter,
    made of letters, digits, underscore and hyphen, and ending with a letter
    or a digit; [flagConfigure] and [flagConstruct] panic at once, whatever
    the state, on any other string. *)
Theorem validReference_grammar (ref : string) :
  (validReference ref = true <-> strict_reference ref = true) /\
  (strict_reference ref = false ->
   (forall tmpl required st, exists p, flagConfigure ref tmpl required st = inl p) /\
   (forall ctype required st, exists p, flagConstruct ref ctype required st = inl p)).
Proof.
  rewrite validReference_strict. split; [done|].
  intros Hbad. split.
  - intros tmpl required st. unfold flagConfigure.
    destruct (loaded st); [eauto|]. rewrite validReference_strict, Hbad. simpl. eauto.
  - intros ctype required st. unfold flagConstruct.
    destruct (loaded st); [eauto|]. rewrite validReference_strict, Hbad. simpl. eauto.
Qed.

Lemma validReference_grammar_witness :
  strict_reference "ms..server" = false /\
  exists p, flagConfigure "ms..server" (Some (VString ""))  true
              {| loaded := false; sources := []; mustConfigureByRef := [];
                 constructorsByType := []; configByRef := [] |} = inl p.
Proof.
  split; [reflexivity|].
  exact (proj1 (proj2 (validReference_grammar "ms..server") eq_refl) _ _ _).
Defined.

(** A name that ends with a hyphen is a name in the words of the
    specification, and [validReference] turns it down. *)
Lemma validReference_loose_counterexample :
  loose_reference "ms.server-" = true /\ validReference "ms.server-" = false.
Proof. split; reflexivity. Qed.

End RegistrationFacts.

(** ** The configurable *)

Module BinderFacts.
Import Go Chain ChainFacts Binder.

Example Add_person_from_P2 :
  @Add Examples.plain (Some (Examples.person "")) (Examples.emptyWorld [Examples.P2]) =
    (Return (Some Examples.janBinder, None), Examples.janWorld [Examples.P2]).
Proof. vm_compute. reflexivity. Qed.

Section WithRuntime.
Context `{Runtime}.

Lemma release_cases rel w r w1 :
  release rel w = (r, w1) ->
  (r <> Return tt /\ w1 = w) \/
  (exists cv,
     heap w !! target rel = Some cv /\ exited cv = false /\
     r = (if snd (snd (cleanupRound (callerID rel) cv)) then Panic else Return tt) /\
     w1 = log (fst (snd (cleanupRound (callerID rel) cv)))
            (set_heap (<[target rel := fst (cleanupRound (callerID rel) cv)]> (heap w)) w)).
Proof.
  unfold release. destruct (heap w !! target rel) as [cv|] eqn:Hcv.
  - destruct (exited cv) eqn:Hex.
    + intros [= <- <-]. by left.
    + destruct (cleanupRound (callerID rel) cv) as [cv' [evs panicked]] eqn:Hr.
      intros [= <- <-]. right. exists cv. by rewrite Hr.
  - intros [= <- <-]. by left.
Qed.

Lemma release_length rel w r w1 :
  release rel w = (r, w1) -> length (heap w1) = length (heap w).
Proof.
  intros Hr. apply release_cases in Hr as [[_ ->]|(cv & _ & _ & _ & ->)]; [done|].
  simpl. by rewrite length_insert.
Qed.

(** What [install] does when it returns: the creator's use of the current
    value is released, and the new value is appended to the heap and made
    current. *)
Lemma install_success c sv w c' w' :
  install c sv w = (Return None, c', w') ->
  exists w1 rev,
    match currentReleaseFunc c with
    | None => w1 = w /\ rev = 1%Z
    | Some rel =>
        exists a old, currentValue c = Some a /\ heap w !! a = Some old /\
          rev = wrap_int (revision old + 1) /\ release rel w = (Return tt, w1)
    end /\
    c' = set_current (Some (length (heap w1)))
           (Some {| target := length (heap w1); callerID := creatorID |}) c /\
    w' = set_heap (heap w1 ++ [fresh rev (structType c) sv]) w1.
Proof.
  unfold install. destruct (currentReleaseFunc c) as [rel|].
  - destruct (currentValue c) as [a|]; [|discriminate].
    destruct (heap w !! a) as [old|] eqn:Hold; [|discriminate].
    destruct (release rel w) as [r w1] eqn:Hrel.
    destruct r as [[]| |]; [|discriminate|discriminate].
    unfold newConfigValue. intros [= <- <-].
    exists w1, (wrap_int (revision old + 1)). split; [|done].
    exists a, old. done.
  - unfold newConfigValue. intros [= <- <-]. exists w, 1%Z. done.
Qed.

Lemma install_failure c sv w r c' w' :
  install c sv w = (r, c', w') -> r <> Return None -> c' = c /\ w' = w.
Proof.
  unfold install. destruct (currentReleaseFunc c) as [rel|].
  - destruct (currentValue c) as [a|]; [|by intros [= <- <- <-]].
    destruct (heap w !! a) as [old|]; [|by intros [= <- <- <-]].
    destruct (release rel w) as [r1 w1].
    destruct r1 as [[]| |]; [|by intros [= <- <- <-]|by intros [= <- <- <-]].
    unfold newConfigValue. by intros [= <- <- <-].
  - unfold newConfigValue. by intros [= <- <- <-].
Qed.

(** The two ways in which [load] ends: it leaves the configurable and the
    heap as they are, or it returns nil from [install].  The calls made are
    those of the loop over the fields, then at most the [Validate] of the
    struct, then those of [install]. *)
Lemma load_cases c names w r c' w' :
  load c names w = (r, c', w') ->
  exists s evs vs,
    loadFields (allSources w) c
      (match currentValue c with Some a => heap w !! a | None => None end)
      names 0 (Fields (structType c)) (newStruct (structType c)) = (s, evs) /\
    (vs = [] \/ exists v, vs = [CallValidate v]) /\
    ((c' = c /\ w' = log (evs ++ vs) w) \/
     (r = Return None /\ exists sv,
        s = Next sv /\ install c sv (log (evs ++ vs) w) = (Return None, c', w'))).
Proof.
  unfold load.
  destruct (loadFields _ _ _ _ _ _ _) as [s evs] eqn:Hl.
  intros Hload. exists s, evs.
  assert (Hlog : forall vs, log vs (log evs w) = log (evs ++ vs) w).
  { intros vs. unfold log. simpl. by rewrite app_assoc. }
  destruct s as [sv|r0].
  - assert (Hinst : forall vs,
              install c sv (log (evs ++ vs) w) = (r, c', w') ->
              (c' = c /\ w' = log (evs ++ vs) w) \/
              (r = Return None /\ exists sv0,
                 Next sv = Next sv0 /\
                 install c sv0 (log (evs ++ vs) w) = (Return None, c', w'))).
    { intros vs Hi.
      assert (Hdec : r = Return None \/ r <> Return None).
      { destruct r as [[e|]| |]; [right|left|right|right]; congruence. }
      destruct Hdec as [->|Hr].
      - right. split; [done|]. by exists sv.
      - left. by apply install_failure in Hi as [-> ->]. }
    destruct (Validate _) as [[e|]|] eqn:Hv.
    + injection Hload as <- <- <-. eexists. split; [done|]. split; [right; eauto|].
      left. by rewrite Hlog.
    + rewrite Hlog in Hload. eexists. split; [done|]. split; [right; eauto|].
      by apply Hinst.
    + exists []. split; [done|]. split; [by left|].
      apply Hinst. by rewrite app_nil_r.
  - injection Hload as <- <- <-. exists []. split; [done|]. split; [by left|].
    left. by rewrite app_nil_r.
Qed.

(** With a [Wrapf] that makes an error of a nil cause, the loop over the
    fields is never left with a nil result. *)
Lemma loadField_leave srcs c cur names i f sv r evs :
  (forall m, WrapfNil m <> None) ->
  loadField srcs c cur names i f sv = (Leave r, evs) ->
  r = Panic \/ exists e, r = Return (Some e).
Proof.
  intros Hw. unfold loadField, loadPlain, loadConstructed, GetAndWatch.
  intros Hl. repeat (case_match; simplify_eq/=); eauto.
  all: destruct (WrapfNil _) as [e|] eqn:He; [eauto|]; by apply Hw in He.
Qed.

Lemma loadFields_leave srcs c cur names fields : forall i sv r evs,
  (forall m, WrapfNil m <> None) ->
  loadFields srcs c cur names i fields sv = (Leave r, evs) ->
  r = Panic \/ exists e, r = Return (Some e).
Proof.
  induction fields as [|f fields IH]; intros i sv r evs Hw; simpl; [done|].
  destruct (loadField srcs c cur names i f sv) as [s evs1] eqn:Hf.
  destruct s as [sv1|r1].
  - destruct (loadFields srcs c cur names (S i) fields sv1) as [s' evs'] eqn:Hr.
    intros [= -> <-]. by eapply IH.
  - intros [= <- <-]. by eapply loadField_leave.
Qed.

Lemma load_nil_installs c names w c' w' :
  (forall m, WrapfNil m <> None) ->
  load c names w = (Return None, c', w') ->
  exists sv evs vs,
    loadFields (allSources w) c
      (match currentValue c with Some a => heap w !! a | None => None end)
      names 0 (Fields (structType c)) (newStruct (structType c)) = (Next sv, evs) /\
    (vs = [] \/ exists v, vs = [CallValidate v]) /\
    install c sv (log (evs ++ vs) w) = (Return None, c', w').
Proof.
  intros Hw. unfold load.
  destruct (loadFields _ _ _ _ _ _ _) as [s evs] eqn:Hf.
  assert (Hlog : forall vs, log vs (log evs w) = log (evs ++ vs) w).
  { intros vs. unfold log. simpl. by rewrite app_assoc. }
  destruct s as [sv|r0].
  - destruct (Validate _) as [[e|]|]; [discriminate| |].
    + rewrite Hlog. intros Hi. exists sv, evs. eauto 6.
    + intros Hi. exists sv, evs, []. rewrite app_nil_r. eauto.
  - intros [= -> _ _].
    apply loadFields_leave in Hf as [?|[e ?]]; done.
Qed.

Lemma wrap_int_small z :
  (- 2 ^ 63 <= z < 2 ^ 63)%Z -> wrap_int z = z.
Proof.
  unfold wrap_int. intros Hz.
  change (2 ^ 63)%Z with 9223372036854775808%Z in *.
  change (2 ^ 64)%Z with 18446744073709551616%Z in *.
  rewrite Z.mod_small; lia.
Qed.

(** A user other than the one released keeps the value alive. *)
Lemma cleanupRound_keeps id cv :
  structPtrValue (fst (cleanupRound id cv)) = structPtrValue cv /\
  revision (fst (cleanupRound id cv)) = revision cv /\
  valueType (fst (cleanupRound id cv)) = valueType cv /\
  users (fst (cleanupRound id cv)) = users cv ∖ {[id]} /\
  (forall other, other ∈ users cv -> other <> id ->
     other ∈ users (fst (cleanupRound id cv)) /\
     exited (fst (cleanupRound id cv)) = false /\
     snd (cleanupRound id cv) = ([], false)).
Proof.
  unfold cleanupRound. simpl. repeat split; try done.
  - set_solver.
  - apply bool_decide_eq_false. intros Hsz. apply size_empty_inv in Hsz. set_solver.
  - rewrite bool_decide_eq_false_2; [done|].
    intros Hsz. apply size_empty_inv in Hsz. set_solver.
Qed.

(** The value that was current, after the release by [install]. *)
Lemma release_keeps rel w w1 a old :
  release rel w = (Return tt, w1) ->
  heap w !! a = Some old ->
  exists old',
    heap w1 !! a = Some old' /\
    structPtrValue old' = structPtrValue old /\
    revision old' = revision old /\
    (forall id, id ∈ users old -> id <> callerID rel ->
       id ∈ users old' /\ exited old' = exited old).
Proof.
  intros Hr Hold.
  apply release_cases in Hr as [[Hr _]|(cv & Hcv & Hex & _ & ->)]; [done|].
  simpl. destruct (decide (a = target rel)) as [->|Hne].
  - rewrite Hold in Hcv. injection Hcv as <-.
    exists (fst (cleanupRound (callerID rel) old)).
    rewrite list_lookup_insert_eq; [|by eapply lookup_lt_Some].
    destruct (cleanupRound_keeps (callerID rel) old) as (Hs & Hrev & _ & _ & Hk).
    split; [done|]. split; [done|]. split; [done|].
    intros id Hid Hne. destruct (Hk id Hid Hne) as (Hin & Hnot & _).
    by rewrite Hex.
  - exists old. by rewrite list_lookup_insert_ne.
Qed.

(** *** The calls of a load *)

Lemma Get_resolves_only srcs name d n :
  Forall (fun ev => resolves_only name ev = true) (snd (sources_Get srcs name d n)).
Proof.
  assert (Hg : Forall (fun ev => resolves_only name ev = true)
                 (snd (getValue srcs name d n))).
  { induction srcs as [|s srcs IH]; simpl; [constructor|].
    assert (Hc : resolves_only name (call_of name n s) = true).
    { simpl. apply String.eqb_refl. }
    destruct (Chain.Get s name n) as [v [e|]]; simpl; [by repeat constructor|].
    destruct v as [v|]; simpl; [by repeat constructor|].
    destruct (getValue srcs name d n) as [r evs]. simpl in *. by constructor. }
  unfold sources_Get. destruct (getValue srcs name d n) as [[v e] evs]. simpl in Hg.
  destruct e; [done|]. destruct v as [v|]; [|done].
  destruct (IsZero v); [done|]. destruct d as [d|]; [|done].
  unfold convert, validated.
  repeat (case_match; simplify_eq/=); rewrite ?app_nil_r, ?Forall_app; repeat split;
    try done; by repeat constructor.
Qed.

Lemma loadField_events srcs c cv name i f sv s evs :
  loadField srcs c (Some cv) [name] i f sv = (s, evs) ->
  Forall (fun ev => resolves_only name ev = true) evs.
Proof.
  unfold loadField. simpl.
  destruct (String.eqb (Tag f) name) eqn:Htag; simpl.
  - apply String.eqb_eq in Htag.
    unfold loadPlain, loadConstructed, GetAndWatch.
    destruct (Constructor f) as [k|].
    + pose proof (Get_resolves_only srcs (Tag f) (argZero k) (Some (self c))) as Hg.
      rewrite Htag in *.
      destruct (sources_Get srcs name (argZero k) (Some (self c))) as [[v e] evs0].
      simpl in Hg. intros Hl.
      repeat (case_match; simplify_eq/=); rewrite ?Forall_app; repeat split; try done.
      all: repeat constructor; simpl; apply String.eqb_refl.
    + destruct (defaultStructValue c !! i) as [d|]; [|by intros [= <- <-]].
      pose proof (Get_resolves_only srcs (Tag f) (Some d) (Some (self c))) as Hg.
      rewrite Htag in *.
      destruct (sources_Get srcs name (Some d) (Some (self c))) as [[v e] evs0].
      simpl in Hg. intros Hl.
      repeat (case_match; simplify_eq/=); done.
  - destruct (structPtrValue cv !! i); by intros [= <- <-].
Qed.

Lemma loadFields_events srcs c cv name fields : forall i sv s evs,
  loadFields srcs c (Some cv) [name] i fields sv = (s, evs) ->
  Forall (fun ev => resolves_only name ev = true) evs.
Proof.
  induction fields as [|f fields IH]; intros i sv s evs; simpl.
  { by intros [= <- <-]. }
  destruct (loadField srcs c (Some cv) [name] i f sv) as [s1 evs1] eqn:Hf.
  apply loadField_events in Hf.
  destruct s1 as [sv1|r1].
  - destruct (loadFields srcs c (Some cv) [name] (S i) fields sv1) as [s' evs'] eqn:Hr.
    intros [= <- <-]. apply Forall_app. split; [done|]. by eapply IH.
  - by intros [= <- <-].
Qed.

(** *** The fields that a load keeps *)

Lemma loadField_frame srcs c cur names i f sv sv' evs :
  loadField srcs c cur names i f sv = (Next sv', evs) ->
  length sv' = length sv /\ forall j, j <> i -> sv' !! j = sv !! j.
Proof.
  unfold loadField, loadPlain, loadConstructed, GetAndWatch. intros Hl.
  repeat (case_match; simplify_eq/=);
    rewrite ?length_insert; split; try done;
    intros j Hj; by rewrite ?list_lookup_insert_ne.
Qed.

Lemma loadField_kept srcs c cv name i f sv sv' evs :
  Tag f <> name -> i < length sv ->
  loadField srcs c (Some cv) [name] i f sv = (Next sv', evs) ->
  sv' !! i = structPtrValue cv !! i /\ evs = [].
Proof.
  intros Htag Hi. unfold loadField. simpl.
  apply String.eqb_neq in Htag. rewrite Htag. simpl.
  destruct (structPtrValue cv !! i) as [v|]; [|discriminate].
  intros [= <- <-]. by rewrite list_lookup_insert_eq.
Qed.

Lemma loadFields_frame srcs c cv name fields : forall i sv sv' evs,
  loadFields srcs c (Some cv) [name] i fields sv = (Next sv', evs) ->
  length sv' = length sv /\
  (forall j, j < i -> sv' !! j = sv !! j) /\
  (forall k f, fields !! k = Some f -> Tag f <> name -> i + k < length sv ->
     sv' !! (i + k) = structPtrValue cv !! (i + k)).
Proof.
  induction fields as [|f fields IH]; intros i sv sv' evs; simpl.
  { intros [= <- <-]. repeat split; try done. }
  destruct (loadField srcs c (Some cv) [name] i f sv) as [s1 evs1] eqn:Hf.
  destruct s1 as [sv1|r1]; [|discriminate].
  destruct (loadFields srcs c (Some cv) [name] (S i) fields sv1) as [s' evs'] eqn:Hr.
  intros [= -> <-].
  destruct (loadField_frame _ _ _ _ _ _ _ _ _ Hf) as [Hlen1 Hother].
  destruct (IH _ _ _ _ Hr) as (Hlen & Hbelow & Hkept).
  split; [congruence|]. split.
  - intros j Hj. rewrite Hbelow; [|lia]. apply Hother. lia.
  - intros [|k] g Hg Htag Hk.
    + simpl in Hg. injection Hg as <-. rewrite Nat.add_0_r in *.
      rewrite Hbelow; [|lia].
      by destruct (loadField_kept _ _ _ _ _ _ _ _ _ Htag Hk Hf).
    + simpl in Hg. replace (i + S k) with (S i + k) by lia.
      apply (Hkept k g Hg Htag). lia.
Qed.

Lemma destroyAll_calls rev name fields : forall values,
  Forall (fun ev => resolves_only name ev = true) (fst (destroyAll rev fields values)).
Proof.
  induction fields as [|f fields IH]; intros values; simpl; [constructor|].
  destruct values as [|vf values]; [constructor|].
  destruct (destroyField rev f vf) as [evs|] eqn:Hd; [|constructor].
  specialize (IH values). destruct (destroyAll rev fields values) as [evs' p]. simpl in *.
  apply Forall_app. split; [|done].
  unfold destroyField in Hd. repeat case_match; simplify_eq; by repeat constructor.
Qed.

Lemma release_calls rel w r w1 :
  release rel w = (r, w1) ->
  exists ds, calls w1 = calls w ++ ds /\
    forall name, Forall (fun ev => resolves_only name ev = true) ds.
Proof.
  intros Hr. apply release_cases in Hr as [[_ ->]|(cv & _ & _ & _ & ->)].
  - exists []. by rewrite app_nil_r.
  - cbn [calls log set_heap]. eexists. split; [done|]. intros name.
    unfold cleanupRound. cbn [fst snd]. case_match; [|constructor].
    apply destroyAll_calls.
Qed.

(** *** A required field that no source has *)

Lemma loadFields_app srcs c cur names before rest : forall i sv,
  loadFields srcs c cur names i (before ++ rest) sv =
    match loadFields srcs c cur names i before sv with
    | (Leave r, evs) => (Leave r, evs)
    | (Next sv1, evs) =>
        let '(s', evs') := loadFields srcs c cur names (i + length before) rest sv1 in
        (s', evs ++ evs')
    end.
Proof.
  induction before as [|f before IH]; intros i sv; simpl.
  - rewrite Nat.add_0_r. by destruct (loadFields srcs c cur names i rest sv).
  - destruct (loadField srcs c cur names i f sv) as [[sv1|r] evs1]; [|done].
    rewrite IH. destruct (loadFields srcs c cur names (S i) before sv1) as [[sv2|r] evs2];
      [|done].
    replace (i + S (length before)) with (S i + length before) by lia.
    destruct (loadFields srcs c cur names (S i + length before) rest sv2) as [s' evs'].
    by rewrite app_assoc.
Qed.

Lemma loadField_missing srcs c names i f sv d :
  Constructor f = None -> isPtr (FType f) = false ->
  defaultStructValue c !! i = Some d -> IsZero d = true ->
  Forall (silent (Tag f) (Some (self c))) srcs ->
  loadField srcs c None names i f sv =
    (Leave (Return (WrapfNil (MissingConfig (TName (structType c)) (FName f) (Tag f)))),
     map (call_of (Tag f) (Some (self c))) srcs).
Proof.
  intros Hk Hp Hd Hz Hs. unfold loadField, loadPlain, GetAndWatch, sources_Get.
  rewrite Hk, Hd, (getValue_silent _ _ _ _ Hs), Hz, Hp. done.
Qed.

End WithRuntime.

(** C1.  A load that does not return nil (it returns an error, or panics)
    leaves the configurable as it was, with the same current value and the same
    release closure, and leaves the heap as it was: the value that was current
    keeps its users, its creator among them, and is not retired.  So does
    every load that leaves the loop over the fields, whatever it returns.
    [Notify] swallows the error of its load and changes nothing.  When the first load
    fails, [Add] returns the error and no configurable, and the list of
    configurables and the heap are as before: an error of the first load comes
    back wrapped as a failed first load, a panic as a panic; so it is when the
    loop over the fields is left (the [Wrapf] of the runtime is taken to make an
    error of a nil cause, as for C6) and when [Validate] fails. *)
Theorem load_failure_keeps_current `{Runtime} :
  (forall c names w r c' w',
     load c names w = (r, c', w') -> r <> Return None ->
     c' = c /\ heap w' = heap w /\ configurableList w' = configurableList w) /\
  (forall c names w r evs,
     loadFields (allSources w) c
       (match currentValue c with Some a => heap w !! a | None => None end)
       names 0 (Fields (structType c)) (newStruct (structType c)) = (Leave r, evs) ->
     load c names w = (r, c, log evs w)) /\
  (forall c name w e c' w',
     load c [name] w = (Return (Some e), c', w') ->
     Notify c name w = (Return tt, c, w') /\ heap w' = heap w) /\
  (forall tmpl w r w',
     Add tmpl w = (r, w') -> (forall c, r <> Return (Some c, None)) ->
     heap w' = heap w /\ configurableList w' = configurableList w /\
     forall b e, r = Return (b, Some e) -> b = None) /\
  (forall tmpl w has r0 c' w0,
     validateConfigStructType (templateType tmpl) = (has, None) ->
     load (initial tmpl has w) [] (allocated w) = (r0, c', w0) ->
     r0 <> Return None ->
     Add (Some tmpl) w =
       (match r0 with
        | Return (Some e) => Return (None, Some (Wrapped e FailedOnInitLoad))
        | Return None => Return (Some c', None)
        | Panic => Panic
        | Blocked => Blocked
        end, w0) /\
     (forall c e, fst (Add (Some tmpl) w) <> Return (Some c, e)) /\
     heap w0 = heap w /\ configurableList w0 = configurableList w) /\
  (forall tmpl w has r evs,
     (forall m, WrapfNil m <> None) ->
     validateConfigStructType (templateType tmpl) = (has, None) ->
     loadFields (allSources w) (initial tmpl has w) None [] 0
       (Fields (templateType tmpl)) (newStruct (templateType tmpl)) = (Leave r, evs) ->
     (forall c e, fst (Add (Some tmpl) w) <> Return (Some c, e)) /\
     snd (Add (Some tmpl) w) = log evs (allocated w)) /\
  (forall tmpl w has sv evs e,
     validateConfigStructType (templateType tmpl) = (has, None) ->
     loadFields (allSources w) (initial tmpl has w) None [] 0
       (Fields (templateType tmpl)) (newStruct (templateType tmpl)) = (Next sv, evs) ->
     Validate (VPtr (TStruct (TName (templateType tmpl)))
                 (Some (VStruct (TName (templateType tmpl)) sv))) = Some (Some e) ->
     fst (Add (Some tmpl) w) =
       Return (None, Some (Wrapped (Wrapped e InvalidConfig) FailedOnInitLoad)) /\
     heap (snd (Add (Some tmpl) w)) = heap w /\
     configurableList (snd (Add (Some tmpl) w)) = configurableList w).
Proof.
  assert (Hload : forall c names w r c' w',
            load c names w = (r, c', w') -> r <> Return None ->
            c' = c /\ heap w' = heap w /\ configurableList w' = configurableList w).
  { intros c names w r c' w' Hl Hr.
    apply load_cases in Hl as (s & evs & vs & _ & _ & [[-> ->]|[-> _]]); done. }
  assert (Hadd : forall tmpl w has r0 c' w0,
            validateConfigStructType (templateType tmpl) = (has, None) ->
            load (initial tmpl has w) [] (allocated w) = (r0, c', w0) ->
            r0 <> Return None ->
            Add (Some tmpl) w =
              (match r0 with
               | Return (Some e) => Return (None, Some (Wrapped e FailedOnInitLoad))
               | Return None => Return (Some c', None)
               | Panic => Panic
               | Blocked => Blocked
               end, w0) /\
            (forall c e, fst (Add (Some tmpl) w) <> Return (Some c, e)) /\
            heap w0 = heap w /\ configurableList w0 = configurableList w).
  { intros tmpl w has r0 c' w0 Hv Hl Hr.
    destruct (Hload _ _ _ _ _ _ Hl Hr) as (_ & Hh & Hc).
    assert (Ha : Add (Some tmpl) w =
              (match r0 with
               | Return (Some e) => Return (None, Some (Wrapped e FailedOnInitLoad))
               | Return None => Return (Some c', None)
               | Panic => Panic
               | Blocked => Blocked
               end, w0)).
    { unfold Add. rewrite Hv, Hl. by destruct r0 as [[e|]| |]. }
    split; [done|]. split; [|done].
    intros c e. rewrite Ha. by destruct r0 as [[e0|]| |]. }
  split; [exact Hload|]. split.
  { intros c names w r evs Hf. unfold load. by rewrite Hf. }
  split.
  { intros c name w e c' w' Hl.
    destruct (Hload _ _ _ _ _ _ Hl) as (-> & Hh & _); [done|].
    unfold Notify. by rewrite Hl. }
  split.
  { intros [tmpl|] w r w'; simpl.
    + destruct (validateConfigStructType (templateType tmpl)) as [has [e|]].
      { intros [= <- <-] _. repeat split; try done. by intros b e0 [= <- _]. }
      destruct (load _ _ _) as [[r0 c'] w0] eqn:Hl.
      destruct r0 as [[e|]| |].
      * intros [= <- <-] _.
        destruct (Hload _ _ _ _ _ _ Hl) as (_ & Hh & Hc); [done|].
        repeat split; try done. by intros b e0 [= <- _].
      * intros [= <- <-] Hno. by destruct (Hno c').
      * intros [= <- <-] _.
        destruct (Hload _ _ _ _ _ _ Hl) as (_ & Hh & Hc); [done|].
        repeat split; done.
      * intros [= <- <-] _.
        destruct (Hload _ _ _ _ _ _ Hl) as (_ & Hh & Hc); [done|].
        repeat split; done.
    + intros [= <- <-] _. repeat split; try done. by intros b e [= <- _]. }
  split; [exact Hadd|]. split.
  { intros tmpl w has r evs Hw Hv Hf.
    assert (Hl : load (initial tmpl has w) [] (allocated w) =
                 (r, initial tmpl has w, log evs (allocated w))).
    { unfold load. cbn [currentValue initial structType allSources allocated].
      by rewrite Hf. }
    assert (Hr : r <> Return None).
    { intros ->. apply loadFields_leave in Hf as [?|[e ?]]; done. }
    destruct (Hadd _ _ _ _ _ _ Hv Hl Hr) as (Ha & Hno & _).
    split; [done|]. by rewrite Ha. }
  intros tmpl w has sv evs e Hv Hf Hval.
  assert (Hl : load (initial tmpl has w) [] (allocated w) =
               (Return (Some (Wrapped e InvalidConfig)), initial tmpl has w,
                log [CallValidate (VPtr (TStruct (TName (templateType tmpl)))
                                     (Some (VStruct (TName (templateType tmpl)) sv)))]
                  (log evs (allocated w)))).
  { unfold load. cbn [currentValue initial structType allSources allocated].
    by rewrite Hf, Hval. }
  destruct (Hadd _ _ _ _ _ _ Hv Hl) as (Ha & _ & Hh & Hc); [done|].
  rewrite Ha. done.
Qed.

(** The source of the loaded person has become unreachable: the reload of
    the name fails and Jan stays current.  With that source from the start,
    [Add] returns the error of the first load and no configurable. *)
Lemma load_failure_keeps_current_witness :
  (exists e w',
     @load Examples.plain Examples.janBinder ["name"] (Examples.janWorld [Examples.brokenSource])
       = (Return (Some e), Examples.janBinder, w') /\
     heap w' = [Examples.janValue] /\
     @Notify Examples.plain Examples.janBinder "name" (Examples.janWorld [Examples.brokenSource])
       = (Return tt, Examples.janBinder, w')) /\
  (exists e w0,
     @Add Examples.plain (Some (Examples.person ""))
        (Examples.emptyWorld [Examples.brokenSource]) =
       (Return (None, Some (Wrapped e FailedOnInitLoad)), w0) /\
     heap w0 = [] /\ configurableList w0 = []).
Proof.
  split.
  - destruct (@load Examples.plain Examples.janBinder ["name"]
                (Examples.janWorld [Examples.brokenSource])) as [[r c'] w'] eqn:Hl.
    assert (Hr : exists e, r = Return (Some e)).
    { vm_compute in Hl. injection Hl as <- _ _. eauto. }
    destruct Hr as [e ->].
    destruct (proj1 (@load_failure_keeps_current Examples.plain) _ _ _ _ _ _ Hl)
      as (-> & Hh & _); [discriminate|].
    destruct (proj1 (proj2 (proj2 (@load_failure_keeps_current Examples.plain)))
                _ _ _ _ _ _ Hl) as (Hn & _).
    exists e, w'. split; [reflexivity|]. split; [exact Hh | exact Hn].
  - destruct (@load Examples.plain
                (initial (Examples.person "") false (Examples.emptyWorld [Examples.brokenSource]))
                [] (allocated (Examples.emptyWorld [Examples.brokenSource])))
      as [[r0 c'] w0] eqn:Hl.
    assert (Hr : exists e, r0 = Return (Some e)).
    { vm_compute in Hl. injection Hl as <- _ _. eauto. }
    destruct Hr as [e ->].
    destruct (proj1 (proj2 (proj2 (proj2 (proj2 (@load_failure_keeps_current Examples.plain)))))
                (Examples.person "") (Examples.emptyWorld [Examples.brokenSource]) false
                (Return (Some e)) c' w0 eq_refl Hl ltac:(discriminate))
      as (Ha & _ & Hh & Hc).
    exists e, w0. split; [exact Ha|]. split; [exact Hh | exact Hc].
Defined.

(** C6, amended.  A template has a field without constructor that is not a
    pointer, no source has a value for its tag, and the value of the field in
    the template is the zero value of its type.  Then [Add] gives no
    configurable: it returns an error (or panics, when a field in front does),
    and the heap and the list of configurables are as before; when the fields
    in front resolve, the error is the missing-config error of that field,
    wrapped as a failed first load.  The [Wrapf] of the runtime is taken to
    make an error of a nil cause. *)
Theorem Add_missing_required `{Runtime} (tmpl : template) (w : world) (has : bool)
    (before : list StructField) (f : StructField) (after : list StructField) (d : value) :
  (forall m, WrapfNil m <> None) ->
  validateConfigStructType (templateType tmpl) = (has, None) ->
  Fields (templateType tmpl) = before ++ f :: after ->
  Constructor f = None -> isPtr (FType f) = false ->
  templateFields tmpl !! length before = Some d -> IsZero d = true ->
  Forall (silent (Tag f) (Some (nextConfigurable w))) (allSources w) ->
  exists r w',
    Add (Some tmpl) w = (r, w') /\
    (r = Panic \/ exists e, r = Return (None, Some e)) /\
    heap w' = heap w /\ configurableList w' = configurableList w /\
    (forall sv evs,
       loadFields (allSources w) (initial tmpl has w) None [] 0 before
         (newStruct (templateType tmpl)) = (Next sv, evs) ->
       exists e,
         WrapfNil (MissingConfig (TName (templateType tmpl)) (FName f) (Tag f)) = Some e /\
         r = Return (None, Some (Wrapped e FailedOnInitLoad))).
Proof.
  intros Hw Hv Hfields Hk Hp Hd Hz Hs.
  set (c := initial tmpl has w).
  pose proof (loadField_missing (allSources w) c [] (length before) f) as Hmiss.
  assert (Hloop : exists r evs,
            loadFields (allSources w) c None [] 0 (before ++ f :: after)
              (newStruct (templateType tmpl)) = (Leave r, evs) /\
            (r = Panic \/ exists e, r = Return (Some e)) /\
            (forall sv evs0,
               loadFields (allSources w) c None [] 0 before
                 (newStruct (templateType tmpl)) = (Next sv, evs0) ->
               r = Return (WrapfNil
                     (MissingConfig (TName (templateType tmpl)) (FName f) (Tag f))))).
  { destruct (loadFields (allSources w) c None [] 0 (before ++ f :: after)
                (newStruct (templateType tmpl))) as [s evs] eqn:Hl.
    pose proof Hl as Hl'. rewrite loadFields_app in Hl'.
    destruct (loadFields (allSources w) c None [] 0 before
                (newStruct (templateType tmpl))) as [[sv1|r1] evs1] eqn:Hb.
    - simpl in Hl'. rewrite (Hmiss sv1 d Hk Hp Hd Hz Hs) in Hl'.
      injection Hl' as <- <-. eexists _, _. split; [done|]. split.
      + destruct (WrapfNil _) as [e|] eqn:He; [eauto|]. by apply Hw in He.
      + by intros sv evs0 [= <- <-].
    - injection Hl' as <- <-. eexists _, _. split; [done|]. split.
      + by eapply loadFields_leave.
      + intros sv evs0. discriminate. }
  destruct Hloop as (r & evs & Hl & Hr & Hexact).
  assert (Hload : load c [] (allocated w) = (r, c, log evs (allocated w))).
  { unfold load. simpl. unfold c at 2. simpl. rewrite Hfields.
    fold c. by rewrite Hl. }
  unfold Add. rewrite Hv. fold c. rewrite Hload.
  destruct Hr as [->|[e ->]].
  - eexists _, _. split; [done|]. split; [by left|]. split; [done|]. split; [done|].
    intros sv evs0 Hb. by specialize (Hexact _ _ Hb).
  - eexists _, _. split; [done|]. split; [right; eauto|]. split; [done|].
    split; [done|].
    intros sv evs0 Hb. specialize (Hexact _ _ Hb). injection Hexact as He.
    exists e. by rewrite <- He.
Qed.

(** A person without a name in the template and in the sources. *)
Lemma Add_missing_required_witness :
  exists w',
    @Add Examples.plain (Some (Examples.person "")) (Examples.emptyWorld [Examples.P1]) =
      (Return (None, Some (Wrapped (Errorf (MissingConfig "person" "Name" "name"))
                             FailedOnInitLoad)), w') /\
    heap w' = [] /\ configurableList w' = [].
Proof.
  assert (Hw : forall m, @WrapfNil Examples.plain m <> None) by (intros m; discriminate).
  assert (Hs : Forall (silent "name" (Some 0)) [Examples.P1]).
  { constructor; [reflexivity | constructor]. }
  destruct (@Add_missing_required Examples.plain (Examples.person "")
              (Examples.emptyWorld [Examples.P1]) false [] Examples.nameField []
              (VString "") Hw eq_refl eq_refl eq_refl eq_refl eq_refl eq_refl Hs)
    as (r & w' & Ha & _ & Hh & Hc & Hexact).
  destruct (Hexact _ _ eq_refl) as (e & He & ->).
  injection He as <-. by exists w'.
Defined.

(** The template names Jan and no source has a name: the first load takes
    the default and [Add] gives the configurable. *)
Lemma Add_missing_required_counterexample :
  Constructor Examples.nameField = None /\
  isPtr (FType Examples.nameField) = false /\
  Forall (silent "name" (Some 0)) [Examples.P1] /\
  exists c w',
    @Add Examples.plain (Some (Examples.person "Jan")) (Examples.emptyWorld [Examples.P1]) =
      (Return (Some c, None), w') /\
    configurableList w' = [self c] /\
    (exists cv, heap w' !! 0 = Some cv /\ structPtrValue cv = [VString "Jan"]).
Proof.
  split; [reflexivity|]. split; [reflexivity|].
  split; [constructor; [reflexivity | constructor]|].
  eexists _, _. split; [vm_compute; reflexivity|].
  split; [reflexivity|]. eexists. split; reflexivity.
Qed.

(** With a [Wrapf] that gives nil for a nil cause the same [Add] returns a
    configurable that has no current value. *)
Remark Add_missing_required_lenient :
  exists c w',
    @Add Examples.lenient (Some (Examples.person "")) (Examples.emptyWorld [Examples.P1]) =
      (Return (Some c, None), w') /\
    currentValue c = None /\ heap w' = [].
Proof. eexists _, _. split; [vm_compute; reflexivity|]. split; reflexivity. Qed.

(** C3.  For a configurable with a current value, the calls that
    [Notify(name)] makes to the sources and to constructors are all for the
    name notified: no field with another tag is resolved or constructed.  When
    a new value becomes current, each of its fields with another tag holds
    what the same field of the value that was current holds. *)
Theorem Notify_reloads_named_fields `{Runtime} (c : configurable) (name : string)
    (w : world) (a : nat) (cv : configValue) (r : outcome unit)
    (c' : configurable) (w' : world) :
  currentValue c = Some a -> heap w !! a = Some cv ->
  Notify c name w = (r, c', w') ->
  (exists evs, calls w' = calls w ++ evs /\
     Forall (fun ev => resolves_only name ev = true) evs) /\
  (forall a' new,
     currentValue c' = Some a' -> a' <> a -> heap w' !! a' = Some new ->
     forall i f, Fields (structType c) !! i = Some f -> Tag f <> name ->
       structPtrValue new !! i = structPtrValue cv !! i).
Proof.
  intros Ha Hcv. unfold Notify.
  destruct (load c [name] w) as [[r0 c0] w0] eqn:Hl.
  intros Hn. assert (c0 = c' /\ w0 = w') as [-> ->].
  { by destruct r0; injection Hn as _ <- <-. }
  clear Hn r.
  apply load_cases in Hl as (s & evs & vs & Hf & Hvs & Hcases).
  rewrite Ha, Hcv in Hf.
  pose proof (loadFields_events _ _ _ _ _ _ _ _ _ Hf) as Hevs.
  assert (Hboth : Forall (fun ev => resolves_only name ev = true) (evs ++ vs)).
  { apply Forall_app. split; [done|].
    destruct Hvs as [->|[v ->]]; by repeat constructor. }
  destruct Hcases as [[-> ->]|[_ (sv & -> & Hi)]].
  - split; [by exists (evs ++ vs)|].
    intros a' new Ha'. congruence.
  - apply install_success in Hi as (w1 & rev & Hrel & -> & ->). simpl.
    assert (Hw1 : (exists ds, calls w1 = calls w ++ (evs ++ vs) ++ ds /\
                     Forall (fun ev => resolves_only name ev = true) ds) /\
                  length (heap w1) = length (heap w)).
    { destruct (currentReleaseFunc c) as [rel|].
      - destruct Hrel as (a0 & old & _ & _ & _ & Hr).
        pose proof (release_length _ _ _ _ Hr) as Hlen.
        apply release_calls in Hr as (ds & Hds & Hall). simpl in *.
        split; [|done]. exists ds. rewrite Hds. by rewrite <- app_assoc.
      - destruct Hrel as [-> _]. simpl. split; [|done].
        exists []. by rewrite !app_nil_r. }
    destruct Hw1 as [(ds & Hds & Hall) Hlen]. split.
    + exists ((evs ++ vs) ++ ds). split; [done|]. apply Forall_app. by split.
    + intros a' new [= <-] _ Hnew i f Hfield Htag.
      rewrite lookup_app_r in Hnew; [|lia]. rewrite Nat.sub_diag in Hnew.
      injection Hnew as <-. simpl.
      destruct (loadFields_frame _ _ _ _ _ _ _ _ _ Hf) as (_ & _ & Hkept).
      apply (Hkept i f Hfield Htag). simpl.
      unfold newStruct. rewrite length_map. by eapply lookup_lt_Some.
Qed.

(** Name and city have both changed at the source; the name is notified:
    the new value has the new name and the city it had, and the source was
    asked for the name only. *)
Lemma Notify_reloads_named_fields_witness :
  exists c' w' new,
    @Notify Examples.plain Examples.homeBinder "name" (Examples.homeWorld [Examples.P4])
      = (Return tt, c', w') /\
    calls w' = [CallGet "inMemory" "name" (Some 0)] /\
    currentValue c' = Some 1 /\ heap w' !! 1 = Some new /\
    structPtrValue new !! 0 = Some (VString "Other") /\
    structPtrValue new !! 1 = Some (VString "Paris").
Proof.
  destruct (@Notify Examples.plain Examples.homeBinder "name"
              (Examples.homeWorld [Examples.P4])) as [[r c'] w'] eqn:Hn.
  destruct (@Notify_reloads_named_fields Examples.plain Examples.homeBinder "name"
              (Examples.homeWorld [Examples.P4]) 0 Examples.homeValue r c' w'
              eq_refl eq_refl Hn) as [_ Hkeep].
  vm_compute in Hn. injection Hn as <- <- <-.
  eexists _, _, _. split; [reflexivity|]. split; [reflexivity|].
  split; [reflexivity|]. split; [reflexivity|]. split; [reflexivity|].
  refine (Hkeep 1 _ eq_refl _ eq_refl 1 Examples.cityField eq_refl _); discriminate.
Defined.

(** C4.  A load that returns nil puts exactly one new value on the heap and
    makes it current, with a release closure for its creator.  Its number is 1
    when the configurable had no release closure, as on the first load, the
    one of [Add]; else it is the number of the value that was current plus
    one, in Go's [int], hence greater as long as that number is below the
    largest [int].  The value that was current is still on the heap with the
    same fields and the same number, and a user of it other than the released
    one is still among its users, the value no more ended than it was.  The
    [Wrapf] of the runtime is taken to make an error of a nil cause. *)
Theorem load_installs_next_revision `{Runtime} :
  (forall m, WrapfNil m <> None) ->
  (forall c names w c' w',
     load c names w = (Return None, c', w') ->
     exists new,
       currentValue c' = Some (length (heap w)) /\
       currentReleaseFunc c' = Some {| target := length (heap w); callerID := creatorID |} /\
       heap w' !! length (heap w) = Some new /\
       length (heap w') = S (length (heap w)) /\
       match currentReleaseFunc c with
       | None => revision new = 1%Z
       | Some rel =>
           exists a old old',
             currentValue c = Some a /\ heap w !! a = Some old /\
             revision new = wrap_int (revision old + 1) /\
             ((- 2 ^ 63 <= revision old < 2 ^ 63 - 1)%Z ->
                revision new = (revision old + 1)%Z /\ (revision old < revision new)%Z) /\
             heap w' !! a = Some old' /\
             structPtrValue old' = structPtrValue old /\
             revision old' = revision old /\
             (forall id, id ∈ users old -> id <> callerID rel ->
                id ∈ users old' /\ exited old' = exited old)
       end) /\
  (forall tmpl w c w',
     Add (Some tmpl) w = (Return (Some c, None), w') ->
     exists new,
       currentValue c = Some (length (heap w)) /\
       heap w' !! length (heap w) = Some new /\
       length (heap w') = S (length (heap w)) /\
       revision new = 1%Z).
Proof.
  intros Hw.
  match goal with |- ?A /\ _ => assert (Hload : A) end.
  { intros c names w c' w' Hl.
    apply load_nil_installs in Hl as (sv & evs & vs & _ & _ & Hi); [|done].
    apply install_success in Hi as (w1 & rev & Hrel & -> & ->).
    exists (fresh rev (structType c) sv).
    destruct (currentReleaseFunc c) as [rel|].
    - destruct Hrel as (a & old & Ha & Hold & -> & Hr).
      simpl in Hold.
      pose proof (release_length _ _ _ _ Hr) as Hlen. simpl in Hlen.
      destruct (release_keeps _ _ _ _ _ Hr Hold) as (old' & Hold' & Hs & Hrev & Hk).
      simpl. rewrite Hlen. split; [done|]. split; [done|]. split.
      { rewrite lookup_app_r; [|lia]. by rewrite Hlen, Nat.sub_diag. }
      split; [rewrite length_app; simpl; lia|].
      exists a, old, old'.
      split; [done|]. split; [done|]. split; [done|]. split.
      { intros Hrange. rewrite wrap_int_small; lia. }
      split; [|done].
      rewrite lookup_app_l; [done|]. by eapply lookup_lt_Some.
    - destruct Hrel as [-> ->]. simpl. split; [done|]. split; [done|]. split.
      { rewrite lookup_app_r; [|lia]. by rewrite Nat.sub_diag. }
      split; [rewrite length_app; simpl; lia|done]. }
  split; [exact Hload|].
  intros tmpl w c w'. unfold Add.
  destruct (validateConfigStructType (templateType tmpl)) as [has [e|]]; [discriminate|].
  destruct (load (initial tmpl has w) [] (allocated w)) as [[r c0] w0] eqn:Hl.
  destruct r as [[e|]| |]; try discriminate.
  intros [= <- <-].
  destruct (Hload _ _ _ _ _ Hl) as (new & Hc & _ & Hnew & Hlen & Hrev).
  simpl in *. by exists new.
Qed.

(** Revision 1 has a consumer when the name changes: revision 2 is
    installed, and revision 1 stays as it was with its consumer. *)
Lemma load_installs_next_revision_witness :
  exists c' w' new old',
    @load Examples.plain Examples.homeBinder ["name"] (Examples.homeWorld [Examples.P4])
      = (Return None, c', w') /\
    currentValue c' = Some 1 /\ heap w' !! 1 = Some new /\ revision new = 2%Z /\
    heap w' !! 0 = Some old' /\
    structPtrValue old' = [VString "Jan"; VString "Paris"] /\
    "main.go:42" ∈ users old' /\ exited old' = false.
Proof.
  destruct (@load Examples.plain Examples.homeBinder ["name"]
              (Examples.homeWorld [Examples.P4])) as [[r c'] w'] eqn:Hl.
  assert (Hr : r = Return None).
  { vm_compute in Hl. by injection Hl as <- _ _. }
  subst r.
  assert (Hw : forall m, @WrapfNil Examples.plain m <> None) by (intros m; discriminate).
  destruct (proj1 (@load_installs_next_revision Examples.plain Hw) _ _ _ _ _ Hl)
    as (new & Hc & _ & Hnew & _ & Hold).
  simpl in Hold. destruct Hold as (a & old & old' & Ha & Ho & _ & Hrev & Ho' & Hs & _ & Hk).
  injection Ha as <-. simpl in Ho. injection Ho as <-.
  destruct Hrev as [Hrev _]; [simpl; lia|].
  destruct (Hk "main.go:42") as [Hin Hex].
  { apply elem_of_union_r. by apply elem_of_singleton. }
  { discriminate. }
  exists c', w', new, old'. repeat split; done.
Defined.

(** A second release of the same identity, taken by the loop, changes
    nothing. *)
Lemma cleanupRound_again id cv :
  exited (fst (cleanupRound id cv)) = false ->
  cleanupRound id (fst (cleanupRound id cv)) = (fst (cleanupRound id cv), ([], false)).
Proof.
  unfold cleanupRound. simpl.
  assert (Hgone : users cv ∖ {[id]} ∖ {[id]} = users cv ∖ {[id]}).
  { apply set_eq. intros x. rewrite !elem_of_difference. tauto. }
  rewrite Hgone. intros Hb. by rewrite Hb.
Qed.

(** C7, amended.  [use] puts the identity of the caller into the set of
    users and hands out a closure for that identity.  A release that the loop
    of [cleanup] takes removes the identity from the set.  Calling the same
    closure again is not detected: while the loop runs the call returns as the
    first did and changes nothing, and once the loop has ended the call blocks
    for ever. *)
Theorem release_removes_identity :
  (forall a caller w v rel w',
     use a caller w = (Return (v, rel), w') ->
     rel = {| target := a; callerID := caller |} /\
     exists cv', heap w' !! a = Some cv' /\ caller ∈ users cv') /\
  (forall rel w w1,
     release rel w = (Return tt, w1) ->
     exists cv1,
       heap w1 !! target rel = Some cv1 /\ (callerID rel ∉ users cv1) /\
       (exited cv1 = false -> release rel w1 = (Return tt, w1)) /\
       (exited cv1 = true -> release rel w1 = (Blocked, w1))).
Proof.
  split.
  - intros a caller w v rel w'. unfold use.
    destruct (heap w !! a) as [cv|] eqn:Hcv; [|discriminate].
    intros [= <- <- <-]. split; [done|]. eexists. split.
    + simpl. apply list_lookup_insert_eq. by eapply lookup_lt_Some.
    + simpl. apply elem_of_union_l. by apply elem_of_singleton.
  - intros rel w w1 Hr.
    apply release_cases in Hr as [[Hr _]|(cv & Hcv & Hex & _ & ->)]; [done|].
    pose proof (cleanupRound_again (callerID rel) cv) as Hagain.
    destruct (cleanupRound_keeps (callerID rel) cv) as (_ & _ & _ & Husers & _).
    destruct (cleanupRound (callerID rel) cv) as [cv1 [evs panicked]] eqn:Hrc. simpl in *.
    assert (Hlook : <[target rel := cv1]> (heap w) !! target rel = Some cv1).
    { apply list_lookup_insert_eq. by eapply lookup_lt_Some. }
    exists cv1. split; [done|]. split.
    { rewrite Husers. intros [_ Hnot]%elem_of_difference.
      apply Hnot. by apply elem_of_singleton. }
    split.
    + intros Hex1. unfold release. cbn [heap log set_heap].
      rewrite Hlook, Hex1, (Hagain Hex1). unfold log, set_heap.
      cbn [heap allSources nextConfigurable configurableList calls].
      by rewrite list_insert_insert_eq, app_nil_r.
    + intros Hex1. unfold release. cbn [heap log set_heap]. by rewrite Hlook, Hex1.
Qed.

(** The consumer of the home value releases it, and then once more. *)
Lemma release_removes_identity_witness :
  exists w1 cv1,
    release {| target := 0; callerID := "main.go:42" |} (Examples.homeWorld []) =
      (Return tt, w1) /\
    heap w1 !! 0 = Some cv1 /\ ("main.go:42" ∉ users cv1) /\
    release {| target := 0; callerID := "main.go:42" |} w1 = (Return tt, w1).
Proof.
  destruct (release {| target := 0; callerID := "main.go:42" |} (Examples.homeWorld []))
    as [r w1] eqn:Hr.
  assert (Hret : r = Return tt).
  { vm_compute in Hr. by injection Hr as <- _. }
  subst r.
  destruct (proj2 release_removes_identity _ _ _ Hr) as (cv1 & Hl & Hn & Hrun & _).
  exists w1, cv1. split; [reflexivity|]. split; [exact Hl|]. split; [exact Hn|].
  apply Hrun. vm_compute in Hr. injection Hr as <-.
  vm_compute in Hl. by injection Hl as <-.
Defined.

(** Two consumers take the value from the same place, so under the same
    identity.  One release takes that identity out of the set of users while
    the other consumer still holds the value; and the same closure called
    once more returns as before and leaves every thing as it is: nothing tells
    the second call from the first. *)
Lemma release_twice_counterexample :
  exists v rel w1 w2 w3 cv,
    use 0 "main.go:42" (Examples.janWorld []) = (Return (v, rel), w1) /\
    use 0 "main.go:42" w1 = (Return (v, rel), w2) /\
    release rel w2 = (Return tt, w3) /\
    heap w3 !! 0 = Some cv /\ exited cv = false /\ ("main.go:42" ∉ users cv) /\
    release rel w3 = (Return tt, w3).
Proof.
  eexists _, _, _, _, _, _.
  split; [vm_compute; reflexivity|]. split; [vm_compute; reflexivity|].
  split; [vm_compute; reflexivity|]. split; [vm_compute; reflexivity|].
  split; [reflexivity|]. split; [|vm_compute; reflexivity].
  intros Hin. vm_compute in Hin. discriminate.
Qed.

End BinderFacts.

(** ** The registry driven [Load] *)

Module LegacyFacts.
Import Go Legacy.

Section WithRuntime.
Context `{Runtime} `{Reflection}.

Lemma rangeLastKey_singleton k v : rangeLastKey (Some {[k := v]}) = k.
Proof. unfold rangeLastKey. by rewrite map_to_list_singleton. Qed.

Lemma firstSource_no_construction srcs ref tmpl :
  Forall (fun ev => is_construction ev = false) (snd (firstSource srcs ref tmpl)).
Proof.
  induction srcs as [|ns srcs IH]; simpl; [constructor|].
  destruct (GetInto ns ref tmpl) as [v [e|]]; simpl; [by repeat constructor|].
  destruct v as [v|]; simpl; [by repeat constructor|].
  destruct (firstSource srcs ref tmpl) as [r evs]. simpl in *. by constructor.
Qed.

Lemma loadConfigured_no_construction srcs required : forall config,
  Forall (fun ev => is_construction ev = false) (snd (loadConfigured srcs required config)).
Proof.
  induction required as [|[ref tmpl] required IH]; intros config; simpl; [constructor|].
  pose proof (firstSource_no_construction srcs ref tmpl) as Hf.
  destruct (firstSource srcs ref tmpl) as [[found err] evs]. simpl in Hf.
  destruct err; [done|]. destruct found as [[ns v]|]; [|done].
  specialize (IH (assign ref v config)).
  destruct (loadConfigured srcs required (assign ref v config)) as [r evs'].
  simpl in *. by apply Forall_app.
Qed.

Lemma loadConfigured_exit srcs required : forall config config' out evs,
  loadConfigured srcs required config = ((config', Some out), evs) ->
  exists e, out = Return (Some e).
Proof.
  induction required as [|[ref tmpl] required IH]; intros config config' out evs; simpl;
    [discriminate|].
  destruct (firstSource srcs ref tmpl) as [[found err] evs1].
  destruct err as [e|]; [intros [= _ <- _]; eauto|].
  destruct found as [[ns v]|]; [|intros [= _ <- _]; eauto].
  destruct (loadConfigured srcs required (assign ref v config)) as [r evs'] eqn:Hr.
  intros [= -> <-]. by eapply IH.
Qed.

Lemma resolveConstructor_no_construction srcs ctype info ref :
  Forall (fun ev => is_construction ev = false)
    (snd (resolveConstructor srcs ctype info ref)).
Proof.
  unfold resolveConstructor.
  pose proof (firstSource_no_construction srcs ref (VMap (Some ∅))) as Hf.
  destruct (firstSource srcs ref (VMap (Some ∅))) as [[found err] evs]. simpl in Hf.
  repeat (case_match; simplify_eq/=); rewrite ?Forall_app; repeat split; try done;
    by repeat constructor.
Qed.

Lemma resolveConstructor_exit srcs ctype info ref out evs :
  (forall m, WrapfNil m <> None) ->
  resolveConstructor srcs ctype info ref = (Exit out, evs) ->
  out = Panic \/ exists e, out = Return (Some e).
Proof.
  intros Hw. unfold resolveConstructor. intros Hr.
  repeat (case_match; simplify_eq/=); eauto.
  all: destruct (WrapfNil _) as [e|] eqn:He; [eauto|]; by apply Hw in He.
Qed.

Lemma resolveRefs_no_construction srcs ctype info refs : forall byRef,
  Forall (fun ev => is_construction ev = false)
    (snd (resolveRefs srcs ctype info refs byRef)).
Proof.
  induction refs as [|[ref b] refs IH]; intros byRef; simpl; [constructor|].
  pose proof (resolveConstructor_no_construction srcs ctype info ref) as Hc.
  destruct (resolveConstructor srcs ctype info ref) as [[cv|out] evs]; [|done].
  specialize (IH (assign ref cv byRef)).
  destruct (resolveRefs srcs ctype info refs (assign ref cv byRef)) as [r evs'].
  simpl in *. by apply Forall_app.
Qed.

Lemma resolveRefs_exit srcs ctype info refs : forall byRef byRef' out evs,
  (forall m, WrapfNil m <> None) ->
  resolveRefs srcs ctype info refs byRef = ((byRef', Some out), evs) ->
  out = Panic \/ exists e, out = Return (Some e).
Proof.
  induction refs as [|[ref b] refs IH]; intros byRef byRef' out evs Hw; simpl;
    [discriminate|].
  destruct (resolveConstructor srcs ctype info ref) as [[cv|out1] evs1] eqn:Hc.
  - destruct (resolveRefs srcs ctype info refs (assign ref cv byRef)) as [r evs'] eqn:Hr.
    intros [= -> <-]. by eapply IH.
  - intros [= _ <- _]. by eapply resolveConstructor_exit.
Qed.

(** A reference that the second loop refuses makes the loop leave. *)
Lemma resolveRefs_refused srcs ctype info refs ref b out evs : forall byRef,
  In (ref, b) refs ->
  resolveConstructor srcs ctype info ref = (Exit out, evs) ->
  exists out', snd (fst (resolveRefs srcs ctype info refs byRef)) = Some out'.
Proof.
  induction refs as [|[ref1 b1] refs IH]; intros byRef; simpl; [done|].
  intros [Hin|Hin] Hc.
  - injection Hin as -> ->. rewrite Hc. simpl. eauto.
  - destruct (resolveConstructor srcs ctype info ref1) as [[cv|out1] evs1]; [|simpl; eauto].
    destruct (IH (assign ref1 cv byRef) Hin Hc) as [out' Ho].
    destruct (resolveRefs srcs ctype info refs (assign ref1 cv byRef)) as [[a o] evs'].
    simpl in *. eauto.
Qed.

Lemma resolveTypes_no_construction srcs types : forall byRef,
  Forall (fun ev => is_construction ev = false) (snd (resolveTypes srcs types byRef)).
Proof.
  induction types as [|[ctype info] types IH]; intros byRef; simpl; [constructor|].
  pose proof (resolveRefs_no_construction srcs ctype info (mustConstructByRef info) byRef)
    as Hr.
  destruct (resolveRefs srcs ctype info (mustConstructByRef info) byRef)
    as [[byRef1 out] evs].
  destruct out; [done|].
  specialize (IH byRef1). destruct (resolveTypes srcs types byRef1) as [r evs'].
  simpl in *. by apply Forall_app.
Qed.

Lemma resolveTypes_exit srcs types : forall byRef byRef' out evs,
  (forall m, WrapfNil m <> None) ->
  resolveTypes srcs types byRef = ((byRef', Some out), evs) ->
  out = Panic \/ exists e, out = Return (Some e).
Proof.
  induction types as [|[ctype info] types IH]; intros byRef byRef' out evs Hw; simpl;
    [discriminate|].
  destruct (resolveRefs srcs ctype info (mustConstructByRef info) byRef)
    as [[byRef1 out1] evs1] eqn:Hr.
  destruct out1 as [out1|].
  - intros [= _ <- _]. by eapply resolveRefs_exit.
  - destruct (resolveTypes srcs types byRef1) as [r evs'] eqn:Ht.
    intros [= -> <-]. by eapply IH.
Qed.

Lemma resolveTypes_refused srcs types ctype info ref b out evs : forall byRef,
  In (ctype, info) types -> In (ref, b) (mustConstructByRef info) ->
  resolveConstructor srcs ctype info ref = (Exit out, evs) ->
  exists out', snd (fst (resolveTypes srcs types byRef)) = Some out'.
Proof.
  induction types as [|[ctype1 info1] types IH]; intros byRef; simpl; [done|].
  intros [Hin|Hin] Href Hc.
  - injection Hin as -> ->.
    destruct (resolveRefs_refused _ _ _ _ _ _ _ _ byRef Href Hc) as [out' Ho].
    destruct (resolveRefs srcs ctype info (mustConstructByRef info) byRef)
      as [[byRef1 o] evs1].
    simpl in Ho. subst o. simpl. eauto.
  - destruct (resolveRefs srcs ctype1 info1 (mustConstructByRef info1) byRef)
      as [[byRef1 [o|]] evs1]; [simpl; eauto|].
    destruct (IH byRef1 Hin Href Hc) as [out' Ho].
    destruct (resolveTypes srcs types byRef1) as [[a o] evs'].
    simpl in *. eauto.
Qed.

(** A [Load] with a reference that the second loop refuses constructs
    nothing, does not return nil, and leaves the package not loaded. *)
Lemma Load_refused st ctype info ref b out evs :
  (forall m, WrapfNil m <> None) ->
  loaded st = false ->
  In (ctype, info) (constructorsByType st) -> In (ref, b) (mustConstructByRef info) ->
  resolveConstructor (sources st) ctype info ref = (Exit out, evs) ->
  (fst (fst (Load st)) = Panic \/ exists e, fst (fst (Load st)) = Return (Some e)) /\
  Forall (fun ev => is_construction ev = false) (snd (Load st)) /\
  loaded (snd (fst (Load st))) = false.
Proof.
  intros Hw Hl Hin Href Hc. unfold Load. rewrite Hl.
  destruct (Nat.eqb (length (sources st)) 0); [simpl; eauto|].
  pose proof (loadConfigured_no_construction (sources st) (mustConfigureByRef st) []) as H1.
  destruct (loadConfigured (sources st) (mustConfigureByRef st) [])
    as [[config out1] evs1] eqn:Hcfg. simpl in H1.
  destruct out1 as [r|].
  { simpl. apply loadConfigured_exit in Hcfg as [e ->]. eauto. }
  pose proof (resolveTypes_no_construction (sources st) (constructorsByType st) []) as H2.
  destruct (resolveTypes_refused _ _ _ _ _ _ _ _ [] Hin Href Hc) as [out' Ho].
  destruct (resolveTypes (sources st) (constructorsByType st) [])
    as [[byRef out2] evs2] eqn:Hty. simpl in H2, Ho. subst out2.
  simpl. split; [by eapply resolveTypes_exit|]. split; [by apply Forall_app|done].
Qed.

End WithRuntime.

(** C5.  [Load] runs on a package that is not loaded, and the first source
    that has the reference of a constructed type gives the map [m].  With
    constructors registered for the type: when [m] has no key, or more than
    one, the reference is refused with an error; when [m] has the one key [k]
    and no constructor is registered under [k], it is refused with the error
    that lists the registered names.  With no constructor registered the
    reference is refused before the sources are asked.  In each case no
    constructor has been called for the reference, and [Load] as a whole calls
    no constructor, does not return nil (it returns an error, or panics on a
    value of another reference that is no map), and leaves the package not
    loaded.  The [Wrapf] of the runtime is taken to make an error of a nil
    cause. *)
Theorem Load_refuses_unclear_implementation `{Runtime} `{Reflection} (st : state)
    (ctype : string) (info : constructorInfo) (ref : string) (b : bool)
    (ns : namedSource) (m : option (gmap string value)) (evs : list event) :
  (forall msg, WrapfNil msg <> None) ->
  loaded st = false ->
  In (ctype, info) (constructorsByType st) -> In (ref, b) (mustConstructByRef info) ->
  firstSource (sources st) ref (VMap (Some ∅)) = ((Some (ns, VMap m), None), evs) ->
  (tmplByName info <> [] ->
     (map_len m = 0 ->
        resolveConstructor (sources st) ctype info ref =
          (Exit (Return (Some (Errorf (NoImplementation (name ns) ref)))), evs)) /\
     (1 < map_len m ->
        resolveConstructor (sources st) ctype info ref =
          (Exit (Return (Some (Errorf (MultipleImplementations (name ns) ref)))), evs)) /\
     (forall k v, m = Some {[k := v]} -> lookup_key k (tmplByName info) = None ->
        resolveConstructor (sources st) ctype info ref =
          (Exit (Return (Some (Errorf
             (NoConstructorFor ref k (map fst (tmplByName info)))))), evs))) /\
  (tmplByName info = [] ->
     resolveConstructor (sources st) ctype info ref =
       (Exit (Return (Some (Errorf (NoRegisteredConstructors ref ctype)))), [])) /\
  (map_len m <> 1 \/
   (exists k v, m = Some {[k := v]} /\ lookup_key k (tmplByName info) = None) ->
     Forall (fun ev => is_construction ev = false)
       (snd (resolveConstructor (sources st) ctype info ref)) /\
     (fst (fst (Load st)) = Panic \/ exists e, fst (fst (Load st)) = Return (Some e)) /\
     Forall (fun ev => is_construction ev = false) (snd (Load st)) /\
     loaded (snd (fst (Load st))) = false).
Proof.
  intros Hw Hl Hin Href Hf.
  assert (Hreg : tmplByName info <> [] -> Nat.eqb (length (tmplByName info)) 0 = false).
  { destruct (tmplByName info); [done|]. done. }
  assert (Hzero : tmplByName info <> [] -> map_len m = 0 ->
            resolveConstructor (sources st) ctype info ref =
              (Exit (Return (Some (Errorf (NoImplementation (name ns) ref)))), evs)).
  { intros Hne Hm. unfold resolveConstructor. by rewrite (Hreg Hne), Hf, Hm. }
  assert (Hmany : tmplByName info <> [] -> 1 < map_len m ->
            resolveConstructor (sources st) ctype info ref =
              (Exit (Return (Some (Errorf (MultipleImplementations (name ns) ref)))), evs)).
  { intros Hne Hm. unfold resolveConstructor. rewrite (Hreg Hne), Hf.
    destruct (map_len m) as [|[|n]] eqn:Hlen; [lia|lia|done]. }
  assert (Hunknown : tmplByName info <> [] -> forall k v,
            m = Some {[k := v]} -> lookup_key k (tmplByName info) = None ->
            resolveConstructor (sources st) ctype info ref =
              (Exit (Return (Some (Errorf
                 (NoConstructorFor ref k (map fst (tmplByName info)))))), evs)).
  { intros Hne k v -> Hk. unfold resolveConstructor. rewrite (Hreg Hne), Hf.
    assert (Hone : map_len (Some ({[k := v]} : gmap string value)) = 1).
    { simpl. apply map_size_singleton. }
    rewrite Hone, (rangeLastKey_singleton k v), Hk. done. }
  assert (Hnone : tmplByName info = [] ->
            resolveConstructor (sources st) ctype info ref =
              (Exit (Return (Some (Errorf (NoRegisteredConstructors ref ctype)))), [])).
  { intros Hnil. unfold resolveConstructor. by rewrite Hnil. }
  split.
  { intros Hne. split; [by apply Hzero|]. split; [by apply Hmany|by apply Hunknown]. }
  split; [done|].
  intros Hbad.
  assert (Hexit : exists out evs',
            resolveConstructor (sources st) ctype info ref = (Exit out, evs')).
  { destruct (tmplByName info) as [|t ts] eqn:Ht; [rewrite Hnone; eauto|].
    destruct Hbad as [Hlen|(k & v & Hm & Hk)].
    - destruct (map_len m) as [|[|n]] eqn:Hm.
      + rewrite Hzero; eauto.
      + done.
      + rewrite Hmany; eauto. lia.
    - rewrite (Hunknown ltac:(done) k v Hm Hk). eauto. }
  destruct Hexit as (out & evs' & Hexit).
  split; [apply LegacyFacts.resolveConstructor_no_construction|].
  by eapply LegacyFacts.Load_refused.
Qed.

(** The source names [grpc] for [ms.server]; [http] and [nats] are
    registered. *)
Lemma Load_refuses_unclear_implementation_witness :
  @resolveConstructor Examples.plain Examples.creating [Examples.grpcServer] "Server"
     Examples.serverInfo "ms.server" =
    (Exit (Return (Some (Errorf (NoConstructorFor "ms.server" "grpc" ["http"; "nats"])))),
     [CallGetInto "custom" "ms.server"]) /\
  Forall (fun ev => is_construction ev = false)
    (snd (@Load Examples.plain Examples.creating (Examples.serverState Examples.grpcServer))) /\
  loaded (snd (fst (@Load Examples.plain Examples.creating
                      (Examples.serverState Examples.grpcServer)))) = false.
Proof.
  assert (Hw : forall m, @WrapfNil Examples.plain m <> None) by (intros m; discriminate).
  destruct (@Load_refuses_unclear_implementation Examples.plain Examples.creating
              (Examples.serverState Examples.grpcServer) "Server" Examples.serverInfo
              "ms.server" true Examples.grpcServer
              (Some {[ "grpc" := VString "localhost:9090" ]})
              [CallGetInto "custom" "ms.server"]
              Hw eq_refl (or_introl eq_refl) (or_introl eq_refl) eq_refl)
    as (Hreg & _ & Hload).
  destruct Hreg as (_ & _ & Hunknown); [discriminate|].
  destruct Hload as (_ & _ & Hno & Hnot).
  { right. by exists "grpc", (VString "localhost:9090"). }
  split; [|by split].
  exact (Hunknown "grpc" (VString "localhost:9090") eq_refl eq_refl).
Defined.

End LegacyFacts.

(** * Further properties *)

(** ** Names and references *)

Module NameFacts.
Import Regexp RegexpFacts Reference ReferenceFacts.

Lemma chars_app (a b : string) :
  list_ascii_of_string (a +:+ b) = list_ascii_of_string a ++ list_ascii_of_string b.
Proof. induction a as [|c a IH]; simpl; [done|]. by rewrite IH. Qed.

Lemma validName_strict (n : string) :
  validName n = strict_name (list_ascii_of_string n).
Proof.
  unfold validName, MatchString, nameRegex.
  apply eq_true_iff_eq. rewrite accepts_matches. apply namePattern_strict.
Qed.

Lemma split_dots_dot (a b : list ascii) :
  split_dots (a ++ "."%char :: b) = split_dots a ++ split_dots b.
Proof.
  induction a as [|c a IH]; simpl; [done|].
  destruct (is_dot c); [by rewrite IH|].
  rewrite IH. destruct (split_dots_cons_view a) as (seg & segs & ->). done.
Qed.

(** X1.  A string is a valid reference exactly when each of the pieces
    between its dots is a valid name. *)
Theorem validReference_names (ref : string) :
  validReference ref =
    forallb (fun seg => validName (string_of_list_ascii seg))
      (split_dots (list_ascii_of_string ref)).
Proof.
  rewrite validReference_strict. unfold strict_reference.
  induction (split_dots (list_ascii_of_string ref)) as [|seg segs IH]; simpl; [done|].
  by rewrite validName_strict, list_ascii_of_string_of_list_ascii, IH.
Qed.

(** X2.  Two strings joined by a dot are a valid reference exactly when
    both are: so is the reference [ref + "." + implName] that [Load] asks its
    source for. *)
Theorem validReference_join (a b : string) :
  validReference (a +:+ "." +:+ b) = validReference a && validReference b.
Proof.
  rewrite !validReference_strict. unfold strict_reference.
  rewrite !chars_app. simpl. by rewrite split_dots_dot, forallb_app.
Qed.

End NameFacts.

(** ** The chain as an object *)

Module SourcesFacts.
Import Go Chain ChainFacts Sources.

Lemma Add_known src chain :
  existsb (fun existing => Nat.eqb (address src) (address existing)) chain = true <->
  In (address src) (map address chain).
Proof.
  rewrite existsb_exists, in_map_iff. split.
  - intros (x & Hx & Heq). apply Nat.eqb_eq in Heq. eauto.
  - intros (x & Heq & Hx). exists x. split; [done|]. by apply Nat.eqb_eq.
Qed.

(** X3.  [Add] puts a source at the end of the chain unless a source with
    the same address is in it, and then leaves the chain as it is: adding twice
    is adding once, the chain before is the front of the chain after, the
    source is in the chain afterwards, and a chain without repeated addresses
    stays one.  A nil source changes nothing, and [Reset] followed by [Add]
    gives the chain of that one source. *)
Theorem Add_appends_once (src : handle) (chain : list handle) :
  Add (Some src) (Add (Some src) chain) = Add (Some src) chain /\
  (exists tail, Add (Some src) chain = chain ++ tail /\ (tail = [] \/ tail = [src])) /\
  In (address src) (map address (Add (Some src) chain)) /\
  (NoDup (map address chain) -> NoDup (map address (Add (Some src) chain))) /\
  Add None chain = chain /\
  Add (Some src) (Reset chain) = [src].
Proof.
  assert (Hin : In (address src) (map address (Add (Some src) chain))).
  { unfold Add. destruct (existsb _ chain) eqn:He.
    - by apply Add_known.
    - rewrite map_app, in_app_iff. right. by left. }
  split.
  { apply Add_known in Hin. unfold Add at 1. by rewrite Hin. }
  split.
  { unfold Add. destruct (existsb _ chain).
    - exists []. rewrite app_nil_r. auto.
    - exists [src]. auto. }
  split; [done|]. split; [|done].
  intros Hnd. unfold Add. destruct (existsb _ chain) eqn:He; [done|].
  rewrite map_app. simpl. apply NoDup_app. split; [done|]. split.
  - intros x Hx Hx'. apply list_elem_of_In in Hx. apply list_elem_of_In in Hx'.
    destruct Hx' as [<-|[]]. apply Add_known in Hx. congruence.
  - apply NoDup_singleton.
Qed.

Lemma Add_appends_once_witness :
  NoDup (map address (Add (Some SourcesExamples.h3)
                        [SourcesExamples.h1; SourcesExamples.h2])).
Proof.
  apply (proj1 (proj2 (proj2 (proj2
           (Add_appends_once SourcesExamples.h3
              [SourcesExamples.h1; SourcesExamples.h2]))))).
  simpl. apply NoDup_cons_2; [|apply NoDup_singleton].
  intros Hin. apply list_elem_of_In in Hin. destruct Hin as [Heq|[]]. discriminate Heq.
Defined.

Section WithRuntime.
Context `{Runtime}.

Lemma getValue_answered name d n srcs more :
  ~ Forall (silent name n) srcs ->
  getValue (srcs ++ more) name d n = getValue srcs name d n.
Proof.
  induction srcs as [|s srcs IH]; simpl; intros Hns.
  { destruct Hns. constructor. }
  destruct (Get s name n) as [v [e|]] eqn:Hs; [done|].
  destruct v as [v|]; [done|].
  rewrite IH; [done|]. intros Hall. apply Hns. by constructor.
Qed.

End WithRuntime.

(** X4.  A source added to the chain does not change what the chain
    answers for a name that a source of the chain has, or fails on: the result
    is the same and the new source is not asked.  When no source of the chain
    has the name, the new source is asked after all of them and its answer is
    the result. *)
Theorem Add_keeps_answers `{Runtime} (src : handle) (chain : list handle)
    (name : string) (d : iface) (n : option INotifier) :
  (~ Forall (silent name n) (objects chain) ->
   getValue (objects (Add (Some src) chain)) name d n = getValue (objects chain) name d n) /\
  (Forall (silent name n) (objects chain) ->
   ~ In (address src) (map address chain) ->
   getValue (objects (Add (Some src) chain)) name d n =
     (fst (getValue [object src] name d n),
      map (call_of name n) (objects chain) ++ snd (getValue [object src] name d n))).
Proof.
  split.
  - intros Hans. unfold Add. destruct (existsb _ chain); [done|].
    unfold objects. rewrite map_app. by apply getValue_answered.
  - intros Hs Hnew. unfold Add.
    destruct (existsb _ chain) eqn:He; [by apply Add_known in He|].
    unfold objects. rewrite map_app. by apply getValue_skip.
Qed.

(** P3 is added to the chain of P1 and P2: the name is still Jan, and P3
    is not asked. *)
Lemma Add_keeps_answers_witness :
  @getValue Examples.plain
     (objects (Add (Some SourcesExamples.h3) [SourcesExamples.h1; SourcesExamples.h2]))
     "name" None None =
    ((Some (VString "Jan"), None),
     [CallGet "inMemory" "name" None; CallGet "inMemory" "name" None]).
Proof.
  refine (eq_trans
    (proj1 (@Add_keeps_answers Examples.plain SourcesExamples.h3
              [SourcesExamples.h1; SourcesExamples.h2] "name" None None) _) eq_refl).
  intros Hall. inversion Hall as [|? ? _ Hrest]. inversion Hrest as [|? ? Hsilent _].
  discriminate Hsilent.
Defined.

End SourcesFacts.

(** ** What [sources.Get] hands out *)

Module GetFacts.
Import Go Chain ChainFacts.

(** X5.  [Get] never returns a value together with an error.  Its error is
    the error of a source wrapped as a failed get, or the error of the
    conversion, or the error of [Validate] wrapped as an invalid value; and a
    value returned for a default that is not nil has no failing [Validate]. *)
Theorem Get_value_or_error `{Runtime} (srcs : list ISource) (name : string)
    (d : iface) (n : option INotifier) (v : iface) (e : option error)
    (calls : list event) :
  sources_Get srcs name d n = ((v, e), calls) ->
  (v = None \/ e = None) /\
  (forall err, e = Some err ->
     exists cause, err = Wrapped cause (FailedToGet name) \/
                   err = Wrapped cause CannotWriteJSON \/
                   err = Wrapped cause CannotParseJSON \/
                   err = Wrapped cause (InvalidValue name)) /\
  (forall v', v = Some v' -> d <> None -> forall bad, Validate v' <> Some (Some bad)).
Proof.
  unfold sources_Get, convert, validated. intros Hg.
  repeat (case_match; simplify_eq/=).
  all: split; [auto|]; split;
    [intros err Herr; simplify_eq; eauto 6
    |intros v' Hv Hd bad Hbad; simplify_eq; congruence].
Qed.

(** The chain of P1 and P2 gives Jan for the name, and no error. *)
Lemma Get_value_or_error_witness :
  Some (VString "Jan") = None \/ (None : option error) = None.
Proof.
  exact (proj1 (@Get_value_or_error Examples.plain [Examples.P1; Examples.P2] "name"
                  None None (Some (VString "Jan")) None
                  [CallGet "inMemory" "name" None; CallGet "inMemory" "name" None]
                  eq_refl)).
Defined.

(** X6.  With a default that is not nil, and a JSON decoder that gives a
    value of the type asked for, the value that [Get] returns has the type of
    the default.  When the value of the source has that type already, [Get]
    makes no conversion call and hands out the value of the source itself. *)
Theorem Get_has_type_of_default `{Runtime} (srcs : list ISource) (name : string)
    (d : value) (n : option INotifier) :
  (forall js t, TypeOf (fst (Unmarshal js t)) = t) ->
  (forall v calls,
     sources_Get srcs name (Some d) n = ((Some v, None), calls) ->
     TypeOf v = TypeOf d) /\
  (forall v0 calls0,
     getValue srcs name (Some d) n = ((Some v0, None), calls0) ->
     IsZero v0 = false -> TypeOf v0 = TypeOf d ->
     forall v calls,
       sources_Get srcs name (Some d) n = ((Some v, None), calls) ->
       v = v0 /\
       Forall (fun ev => match ev with CallMarshal _ | CallUnmarshal _ => False | _ => True end)
         calls).
Proof.
  intros Htyped. split.
  - intros v calls. unfold sources_Get, convert, validated. intros Hg.
    repeat (case_match; simplify_eq/=); try done.
    all: match goal with
         | Hu : Unmarshal ?js ?t = (?p, _) |- TypeOf ?p = _ =>
             by rewrite <- (Htyped js t), Hu
         end.
  - intros v0 calls0 Hg0 Hz Ht v calls.
    pose proof (getValue_only_gets srcs name (Some d) n) as Hgets.
    unfold sources_Get, convert, validated. rewrite Hg0, Hz in *. simpl in Hgets.
    destruct (decide (TypeOf v0 = TypeOf d)); [|done].
    assert (Hok : Forall (fun ev => match ev with
                                    | CallMarshal _ | CallUnmarshal _ => False
                                    | _ => True end) calls0).
    { eapply Forall_impl; [exact Hgets|]. by intros [] ?. }
    intros Hg. repeat (case_match; simplify_eq/=); split; try done.
    all: rewrite ?app_nil_r, ?Forall_app; repeat split; try done; by repeat constructor.
Qed.

Lemma Get_has_type_of_default_witness :
  TypeOf (VString "Jan") = TypeOf (VString "").
Proof.
  exact (proj1 (@Get_has_type_of_default Examples.plain [Examples.P1; Examples.P2] "name"
                  (VString "") None
                  (fun js t => match t with
                               | TBool | TInt | TString | TMap | TStruct _ | TPtr _ => eq_refl
                               end))
           (VString "Jan")
           [CallGet "inMemory" "name" None; CallGet "inMemory" "name" None] eq_refl).
Defined.

End GetFacts.

(** ** Registration in the registry driven package *)

Module RegistryFacts.
Import Go Legacy Registration.

Lemma lookup_key_app {A} (k : string) (m1 m2 : list (string * A)) :
  lookup_key k (m1 ++ m2) =
    match lookup_key k m1 with Some v => Some v | None => lookup_key k m2 end.
Proof.
  unfold lookup_key. induction m1 as [|[k1 v1] m1 IH]; simpl; [done|].
  destruct (String.eqb k1 k); [done|]. exact IH.
Qed.

Lemma lookup_key_single {A} (k k' : string) (v : A) :
  lookup_key k' [(k, v)] = if String.eqb k k' then Some v else None.
Proof. unfold lookup_key. simpl. by destruct (String.eqb k k'). Qed.

Lemma lookup_key_replace {A} (k k' : string) (v : A) (m : list (string * A)) :
  lookup_key k' (map (fun e => if String.eqb (fst e) k then (k, v) else e) m) =
    if String.eqb k k'
    then match lookup_key k m with Some _ => Some v | None => None end
    else lookup_key k' m.
Proof.
  unfold lookup_key. induction m as [|[k1 v1] m IH]; simpl.
  { by destruct (String.eqb k k'). }
  destruct (String.eqb k1 k) eqn:H1; simpl.
  - apply String.eqb_eq in H1 as ->. by destruct (String.eqb k k').
  - destruct (String.eqb k1 k') eqn:H2; simpl.
    + apply String.eqb_eq in H2 as ->. by rewrite String.eqb_sym, H1.
    + exact IH.
Qed.

(** [m[k] = v], then [m[k']]. *)
Lemma lookup_key_assign {A} (k k' : string) (v : A) (m : list (string * A)) :
  lookup_key k' (assign k v m) = if String.eqb k k' then Some v else lookup_key k' m.
Proof.
  unfold assign. destruct (lookup_key k m) as [old|] eqn:Hk.
  - rewrite lookup_key_replace, Hk. done.
  - rewrite lookup_key_app, lookup_key_single.
    destruct (String.eqb k k') eqn:Hkk.
    + apply String.eqb_eq in Hkk as <-. by rewrite Hk.
    + by destruct (lookup_key k' m).
Qed.

Lemma lookup_key_In {A} (k : string) (v : A) (m : list (string * A)) :
  In (k, v) m -> is_Some (lookup_key k m).
Proof.
  unfold lookup_key. induction m as [|[k1 v1] m IH]; simpl; [done|].
  intros [Heq|Hin].
  - injection Heq as -> ->. rewrite String.eqb_refl. simpl. eauto.
  - destruct (String.eqb k1 k); simpl; [eauto|]. by apply IH.
Qed.

(** X7.  A constructor registered once is found under its type and name;
    the other types, the other names of the type, the references to construct
    and the rest of the state are as before; and registering the same name for
    the same type again panics. *)
Theorem RegisterConstructor_once `{MethodTable} (name : string) (t : value)
    (st st' : state) (m : createMethod) :
  CreateMethodOf t = Some m ->
  RegisterConstructor name (Some t) st = inr st' ->
  (exists info',
     lookup_key (Out0 m) (constructorsByType st') = Some info' /\
     lookup_key name (tmplByName info') = Some t /\
     (forall other, other <> name ->
        lookup_key other (tmplByName info') =
          match lookup_key (Out0 m) (constructorsByType st) with
          | Some info => lookup_key other (tmplByName info)
          | None => None
          end) /\
     mustConstructByRef info' =
       match lookup_key (Out0 m) (constructorsByType st) with
       | Some info => mustConstructByRef info
       | None => []
       end) /\
  (forall ctype, ctype <> Out0 m ->
     lookup_key ctype (constructorsByType st') = lookup_key ctype (constructorsByType st)) /\
  (loaded st' = loaded st /\ sources st' = sources st /\
   mustConfigureByRef st' = mustConfigureByRef st /\ configByRef st' = configByRef st) /\
  (forall t2, CreateMethodOf t2 = Some m ->
     RegisterConstructor name (Some t2) st' = inl (AlreadyRegistered (Out0 m) name)).
Proof.
  intros Hm. unfold RegisterConstructor at 1. rewrite Hm.
  destruct (loaded st) eqn:Hl; [discriminate|].
  destruct (1 <? NumIn m)%nat eqn:H1; [discriminate|].
  destruct (negb (Nat.eqb (NumOut m) 2)) eqn:H2; [discriminate|].
  destruct (negb (Out1ImplementsError m)) eqn:H3; [discriminate|].
  destruct (negb (Out0IsInterface m)) eqn:H4; [discriminate|].
  unfold constructorInfoFor.
  destruct (lookup_key (Out0 m) (constructorsByType st)) as [info|] eqn:Hty.
  - destruct (lookup_key name (tmplByName info)) eqn:Hn; [discriminate|].
    intros [= <-]. simpl.
    assert (Hnew : lookup_key (Out0 m)
              (assign (Out0 m) {| tmplByName := assign name t (tmplByName info);
                                  mustConstructByRef := mustConstructByRef info |}
                 (constructorsByType st)) =
              Some {| tmplByName := assign name t (tmplByName info);
                      mustConstructByRef := mustConstructByRef info |}).
    { by rewrite lookup_key_assign, String.eqb_refl. }
    split.
    { eexists. split; [exact Hnew|]. simpl. split.
      - by rewrite lookup_key_assign, String.eqb_refl.
      - split; [|done]. intros other Ho. rewrite lookup_key_assign.
        destruct (String.eqb name other) eqn:He; [|done].
        apply String.eqb_eq in He. congruence. }
    split.
    { intros ctype Hc. rewrite lookup_key_assign.
      destruct (String.eqb (Out0 m) ctype) eqn:He; [|done].
      apply String.eqb_eq in He. congruence. }
    split; [done|].
    intros t2 Hm2. unfold RegisterConstructor. simpl. rewrite ?Hl, Hm2, H1, H2, H3, H4.
    unfold constructorInfoFor. rewrite Hnew. simpl.
    by rewrite lookup_key_assign, String.eqb_refl.
  - simpl. intros [= <-]. simpl.
    assert (Hnew : lookup_key (Out0 m)
              (assign (Out0 m) {| tmplByName := assign name t [];
                                  mustConstructByRef := [] |}
                 (constructorsByType st ++
                    [(Out0 m, {| tmplByName := []; mustConstructByRef := [] |})])) =
              Some {| tmplByName := assign name t []; mustConstructByRef := [] |}).
    { by rewrite lookup_key_assign, String.eqb_refl. }
    split.
    { eexists. split; [exact Hnew|]. simpl. split.
      - unfold lookup_key. simpl. by rewrite String.eqb_refl.
      - split; [|done]. intros other Ho. unfold lookup_key. simpl.
        destruct (String.eqb name other) eqn:He; [|done].
        apply String.eqb_eq in He. congruence. }
    split.
    { intros ctype Hc. rewrite lookup_key_assign.
      destruct (String.eqb (Out0 m) ctype) eqn:He.
      - apply String.eqb_eq in He. congruence.
      - rewrite lookup_key_app, lookup_key_single, He.
        by destruct (lookup_key ctype (constructorsByType st)). }
    split; [done|].
    intros t2 Hm2. unfold RegisterConstructor. simpl. rewrite ?Hl, Hm2, H1, H2, H3, H4.
    unfold constructorInfoFor. rewrite Hnew. simpl.
    unfold lookup_key. simpl. by rewrite String.eqb_refl.
Qed.

Lemma RegisterConstructor_once_witness :
  exists st',
    @RegisterConstructor RegistrationExamples.servers "http"
       (Some (VStruct "HttpServerConfig" [VString ""])) RegistrationExamples.nothing = inr st' /\
    @RegisterConstructor RegistrationExamples.servers "http"
       (Some (VStruct "OtherConfig" [])) st' = inl (AlreadyRegistered "Server" "http").
Proof.
  eexists. split; [reflexivity|].
  exact (proj2 (proj2 (proj2
    (@RegisterConstructor_once RegistrationExamples.servers "http"
       (VStruct "HttpServerConfig" [VString ""]) RegistrationExamples.nothing _ _
       eq_refl eq_refl))) (VStruct "OtherConfig" []) eq_refl).
Defined.

End RegistryFacts.

(** ** Declaring what is required, and [Load] to the end *)

Module LoadFacts.
Import Go Reference Legacy Registration RegistryFacts LegacyFacts.

Lemma assign_again {A} (k : string) (v : A) (m : list (string * A)) :
  assign k v (assign k v m) = assign k v m.
Proof.
  assert (Hmap : forall l : list (string * A),
            map (fun e => if String.eqb (fst e) k then (k, v) else e)
              (map (fun e => if String.eqb (fst e) k then (k, v) else e) l) =
            map (fun e => if String.eqb (fst e) k then (k, v) else e) l).
  { intros l. rewrite map_map. apply map_ext. intros [k1 v1]. simpl.
    destruct (String.eqb k1 k) eqn:He; simpl; [by rewrite String.eqb_refl|by rewrite He]. }
  unfold assign at 1. rewrite lookup_key_assign, String.eqb_refl.
  unfold assign. destruct (lookup_key k m) as [old|] eqn:Hk; [apply Hmap|].
  rewrite map_app. simpl. rewrite String.eqb_refl. f_equal.
  clear -Hk. unfold lookup_key in Hk.
  induction m as [|[k1 v1] m IH]; simpl in *; [done|].
  destruct (String.eqb k1 k); [done|]. by rewrite IH.
Qed.

(** X8.  After [flagConfigure] has accepted a template for a reference, the
    reference has a template of that type: the one it had before, if any, and
    else the one given.  Every later call for the reference with a template of
    that type changes nothing, whatever the values in the template and whatever
    the flag; a template of another type panics. *)
Theorem flagConfigure_keeps_first (ref : string) (t1 : value) (r1 : bool) (st st1 : state) :
  flagConfigure ref (Some t1) r1 st = inr st1 ->
  exists kept,
    lookup_key ref (mustConfigureByRef st1) = Some kept /\
    TypeOf kept = TypeOf t1 /\
    kept = default t1 (lookup_key ref (mustConfigureByRef st)) /\
    forall t2 r2,
      flagConfigure ref (Some t2) r2 st1 =
        if decide (TypeOf t2 = TypeOf t1) then inr st1 else inl (ConflictingType ref).
Proof.
  unfold flagConfigure at 1.
  destruct (loaded st) eqn:Hl; [discriminate|].
  destruct (validReference ref) eqn:Hv; [|discriminate]. simpl.
  destruct (lookup_key ref (mustConfigureByRef st)) as [old|] eqn:Hk.
  - destruct (decide (TypeOf t1 = TypeOf old)) as [Ht|]; [|discriminate].
    intros [= <-]. exists old. split; [done|]. split; [done|]. split; [done|].
    intros t2 r2. unfold flagConfigure. rewrite Hl, Hv, Hk. simpl.
    rewrite Ht. by destruct (decide (TypeOf t2 = TypeOf old)).
  - intros [= <-]. exists t1. simpl.
    assert (Hnew : lookup_key ref (mustConfigureByRef st ++ [(ref, t1)]) = Some t1).
    { by rewrite lookup_key_app, Hk, lookup_key_single, String.eqb_refl. }
    split; [done|]. split; [done|]. split; [done|].
    intros t2 r2. unfold flagConfigure. simpl. rewrite Hv, Hnew. simpl.
    by destruct (decide (TypeOf t2 = TypeOf t1)).
Qed.

Lemma flagConfigure_keeps_first_witness :
  exists st1,
    flagConfigure "ms.name" (Some (VString "Jan")) true RegistrationExamples.nothing = inr st1 /\
    flagConfigure "ms.name" (Some (VString "Other")) false st1 = inr st1 /\
    lookup_key "ms.name" (mustConfigureByRef st1) = Some (VString "Jan") /\
    flagConfigure "ms.name" (Some (VInt 1)) true st1 = inl (ConflictingType "ms.name").
Proof.
  destruct (flagConfigure "ms.name" (Some (VString "Jan")) true RegistrationExamples.nothing)
    as [p|st1] eqn:Hf; [discriminate Hf|].
  destruct (flagConfigure_keeps_first _ _ _ _ _ Hf) as (kept & Hk & _ & Hfirst & Hnext).
  exists st1. split; [reflexivity|]. split; [exact (Hnext (VString "Other") false)|].
  split; [by rewrite Hk, Hfirst|]. exact (Hnext (VInt 1) true).
Defined.

(** X9.  After [flagConstruct] the reference is among those to construct
    for the type, the constructors registered for the type and the other
    types are as before, and a second call changes nothing. *)
Theorem flagConstruct_marks (ref ctype : string) (r1 : bool) (st st1 : state) :
  flagConstruct ref (Some ctype) r1 st = inr st1 ->
  (exists info1,
     lookup_key ctype (constructorsByType st1) = Some info1 /\
     lookup_key ref (mustConstructByRef info1) = Some true /\
     tmplByName info1 =
       match lookup_key ctype (constructorsByType st) with
       | Some info => tmplByName info
       | None => []
       end) /\
  (forall other, other <> ctype ->
     lookup_key other (constructorsByType st1) = lookup_key other (constructorsByType st)) /\
  (forall r2, flagConstruct ref (Some ctype) r2 st1 = inr st1).
Proof.
  unfold flagConstruct at 1.
  destruct (loaded st) eqn:Hl; [discriminate|].
  destruct (validReference ref) eqn:Hv; [|discriminate]. simpl.
  intros [= <-]. simpl. unfold markConstruct.
  set (info := match lookup_key ctype (constructorsByType st) with
               | Some info => info
               | None => {| tmplByName := []; mustConstructByRef := [] |}
               end).
  set (info1 := {| tmplByName := tmplByName info;
                   mustConstructByRef := assign ref true (mustConstructByRef info) |}).
  assert (Hnew : lookup_key ctype (assign ctype info1 (constructorsByType st)) = Some info1).
  { by rewrite lookup_key_assign, String.eqb_refl. }
  split.
  { exists info1. split; [done|]. split.
    - simpl. by rewrite lookup_key_assign, String.eqb_refl.
    - unfold info1, info. simpl. by destruct (lookup_key ctype (constructorsByType st)). }
  split.
  { intros other Ho. rewrite lookup_key_assign.
    destruct (String.eqb ctype other) eqn:He; [|done].
    apply String.eqb_eq in He. congruence. }
  intros r2. unfold flagConstruct. simpl. rewrite Hv. simpl. f_equal. f_equal.
  unfold markConstruct. rewrite Hnew. unfold info1 at 1 2. simpl.
  rewrite assign_again. fold info1. apply assign_again.
Qed.

Lemma flagConstruct_marks_witness :
  exists st1,
    flagConstruct "ms.server" (Some "Server") true RegistrationExamples.nothing = inr st1 /\
    flagConstruct "ms.server" (Some "Server") false st1 = inr st1.
Proof.
  destruct (flagConstruct "ms.server" (Some "Server") true RegistrationExamples.nothing)
    as [p|st1] eqn:Hf; [discriminate Hf|].
  exists st1. split; [reflexivity|].
  exact (proj2 (proj2 (flagConstruct_marks _ _ _ _ _ Hf)) false).
Defined.

Section WithRuntime.
Context `{Runtime} `{Reflection}.

Lemma lookup_key_assign_some {A} (k k' : string) (v : A) (m : list (string * A)) :
  is_Some (lookup_key k' m) -> is_Some (lookup_key k' (assign k v m)).
Proof. rewrite lookup_key_assign. destruct (String.eqb k k'); eauto. Qed.

Lemma loadConfigured_keys srcs required : forall config config' evs,
  loadConfigured srcs required config = ((config', None), evs) ->
  (forall k, is_Some (lookup_key k config) -> is_Some (lookup_key k config')) /\
  (forall ref tmpl, In (ref, tmpl) required -> is_Some (lookup_key ref config')).
Proof.
  induction required as [|[ref tmpl] required IH]; intros config config' evs; simpl.
  { intros [= <- _]. split; [done|]. by intros ? ? []. }
  destruct (firstSource srcs ref tmpl) as [[found err] evs1].
  destruct err as [e|]; [discriminate|].
  destruct found as [[ns v]|]; [|discriminate].
  destruct (loadConfigured srcs required (assign ref v config)) as [[c o] evs'] eqn:Hr.
  intros [= -> -> _]. destruct (IH _ _ _ Hr) as [Hkeep Hall]. split.
  - intros k Hk. by apply Hkeep, lookup_key_assign_some.
  - intros ref' tmpl' [Heq|Hin]; [|by eapply Hall].
    injection Heq as -> ->. apply Hkeep. rewrite lookup_key_assign, String.eqb_refl. eauto.
Qed.

Lemma resolveRefs_keys srcs ctype info refs : forall byRef byRef' evs,
  resolveRefs srcs ctype info refs byRef = ((byRef', None), evs) ->
  (forall k, is_Some (lookup_key k byRef) -> is_Some (lookup_key k byRef')) /\
  (forall ref b, In (ref, b) refs -> is_Some (lookup_key ref byRef')).
Proof.
  induction refs as [|[ref b] refs IH]; intros byRef byRef' evs; simpl.
  { intros [= <- _]. split; [done|]. by intros ? ? []. }
  destruct (resolveConstructor srcs ctype info ref) as [[cv|out] evs1]; [|discriminate].
  destruct (resolveRefs srcs ctype info refs (assign ref cv byRef)) as [[c o] evs'] eqn:Hr.
  intros [= -> -> _]. destruct (IH _ _ _ Hr) as [Hkeep Hall]. split.
  - intros k Hk. by apply Hkeep, lookup_key_assign_some.
  - intros ref' b' [Heq|Hin]; [|by eapply Hall].
    injection Heq as -> ->. apply Hkeep. rewrite lookup_key_assign, String.eqb_refl. eauto.
Qed.

Lemma resolveTypes_keys srcs types : forall byRef byRef' evs,
  resolveTypes srcs types byRef = ((byRef', None), evs) ->
  (forall k, is_Some (lookup_key k byRef) -> is_Some (lookup_key k byRef')) /\
  (forall ctype info ref b,
     In (ctype, info) types -> In (ref, b) (mustConstructByRef info) ->
     is_Some (lookup_key ref byRef')).
Proof.
  induction types as [|[ctype info] types IH]; intros byRef byRef' evs; simpl.
  { intros [= <- _]. split; [done|]. by intros ? ? ? ? []. }
  destruct (resolveRefs srcs ctype info (mustConstructByRef info) byRef)
    as [[byRef1 [o|]] evs1] eqn:Hrefs; [discriminate|].
  destruct (resolveTypes srcs types byRef1) as [[c o] evs'] eqn:Hr.
  intros [= -> -> _].
  destruct (resolveRefs_keys _ _ _ _ _ _ _ Hrefs) as [Hkeep1 Hall1].
  destruct (IH _ _ _ Hr) as [Hkeep Hall]. split.
  - intros k Hk. by apply Hkeep, Hkeep1.
  - intros ctype' info' ref b [Heq|Hin] Href; [|by eapply Hall].
    injection Heq as -> ->. by eapply Hkeep, Hall1.
Qed.

Lemma construct_keys byRef : forall config config' evs,
  construct byRef config = ((config', None), evs) ->
  (forall k, is_Some (lookup_key k config) -> is_Some (lookup_key k config')) /\
  (forall ref cv, In (ref, cv) byRef -> is_Some (lookup_key ref config')).
Proof.
  induction byRef as [|[ref cv] byRef IH]; intros config config' evs; simpl.
  { intros [= <- _]. split; [done|]. by intros ? ? []. }
  destruct cv as [cv|]; [|discriminate].
  destruct (CreateOf cv) as [[result0 result1]|]; [|discriminate].
  destruct result1 as [e|]; [by destruct (asError result0)|].
  destruct result0 as [created|]; [|discriminate].
  destruct (construct byRef (assign ref created config)) as [[c o] evs'] eqn:Hr.
  intros [= -> -> _]. destruct (IH _ _ _ Hr) as [Hkeep Hall]. split.
  - intros k Hk. by apply Hkeep, lookup_key_assign_some.
  - intros ref' cv' [Heq|Hin]; [|by eapply Hall].
    injection Heq as -> _. apply Hkeep. rewrite lookup_key_assign, String.eqb_refl. eauto.
Qed.

Lemma construct_exit byRef : forall config config' out evs,
  construct byRef config = ((config', Some out), evs) ->
  out = Panic \/ exists e, out = Return (Some e).
Proof.
  induction byRef as [|[ref cv] byRef IH]; intros config config' out evs; simpl;
    [discriminate|].
  destruct cv as [cv|]; [|intros [= _ <- _]; eauto].
  destruct (CreateOf cv) as [[result0 result1]|]; [|intros [= _ <- _]; eauto].
  destruct result1 as [e|].
  { destruct (asError result0); intros [= _ <- _]; eauto. }
  destruct result0 as [created|]; [|intros [= _ <- _]; eauto].
  destruct (construct byRef (assign ref created config)) as [[c o] evs'] eqn:Hr.
  intros [= -> -> _]. by eapply IH.
Qed.

Lemma construct_calls byRef : forall config,
  Forall (fun ev => is_construction ev = true) (snd (construct byRef config)).
Proof.
  induction byRef as [|[ref cv] byRef IH]; intros config; simpl; [constructor|].
  destruct cv as [cv|]; [|constructor].
  destruct (CreateOf cv) as [[result0 result1]|]; [|constructor].
  destruct result1 as [e|].
  { destruct (asError result0); by repeat constructor. }
  destruct result0 as [created|]; [|by repeat constructor].
  specialize (IH (assign ref created config)).
  destruct (construct byRef (assign ref created config)) as [r evs']. simpl in *.
  by constructor.
Qed.

Lemma lookup_key_is_Some_In {A} (k : string) (m : list (string * A)) :
  is_Some (lookup_key k m) -> exists v, In (k, v) m.
Proof.
  unfold lookup_key. induction m as [|[k1 v1] m IH]; simpl; [by intros [? ?]|].
  destruct (String.eqb k1 k) eqn:He.
  - apply String.eqb_eq in He as ->. eauto.
  - intros Hs. destruct (IH Hs) as [v Hv]. eauto.
Qed.

End WithRuntime.

(** X10.  A [Load] that returns nil on a package that was not loaded has
    run its three loops to the end: the package is loaded, what was declared
    and registered is as before, and [Get] finds a value for every reference
    declared with [MustConfigure] or [MayConfigure] and for every reference to
    construct.  From then on [Load] does nothing, and [flagConfigure] and
    [flagConstruct] panic whatever they are given.  The [Wrapf] of the runtime
    is taken to make an error of a nil cause. *)
Theorem Load_completes `{Runtime} `{Reflection} (st st' : state) (evs : list event) :
  (forall m, WrapfNil m <> None) ->
  loaded st = false ->
  Load st = ((Return None, st'), evs) ->
  loaded st' = true /\
  (sources st' = sources st /\ mustConfigureByRef st' = mustConfigureByRef st /\
   constructorsByType st' = constructorsByType st) /\
  (forall ref tmpl, In (ref, tmpl) (mustConfigureByRef st) -> is_Some (Get ref st')) /\
  (forall ctype info ref b,
     In (ctype, info) (constructorsByType st) -> In (ref, b) (mustConstructByRef info) ->
     is_Some (Get ref st')) /\
  Load st' = ((Return None, st'), []) /\
  (forall ref tmpl r, flagConfigure ref tmpl r st' = inl (CalledAfterLoad ref)) /\
  (forall ref ctype r, flagConstruct ref ctype r st' = inl (CalledAfterLoad ref)).
Proof.
  intros Hw Hl. unfold Load at 1. rewrite Hl.
  destruct (Nat.eqb (length (sources st)) 0); [discriminate|].
  destruct (loadConfigured (sources st) (mustConfigureByRef st) [])
    as [[config out1] evs1] eqn:H1.
  destruct out1 as [r|].
  { intros [= -> _ _]. apply loadConfigured_exit in H1 as [e He]. discriminate. }
  destruct (resolveTypes (sources st) (constructorsByType st) [])
    as [[byRef out2] evs2] eqn:H2.
  destruct out2 as [r|].
  { intros [= -> _ _]. apply resolveTypes_exit in H2 as [?|[e ?]]; done. }
  destruct (construct byRef config) as [[config' out3] evs3] eqn:H3.
  destruct out3 as [r|].
  { intros [= -> _ _]. apply construct_exit in H3 as [?|[e ?]]; done. }
  intros [= <- _].
  destruct (loadConfigured_keys _ _ _ _ _ H1) as [_ Hconf].
  destruct (resolveTypes_keys _ _ _ _ _ H2) as [_ Hrefs].
  destruct (construct_keys _ _ _ _ H3) as [Hkeep Hmade].
  split; [done|]. split; [done|]. split.
  { intros ref tmpl Hin. unfold Get. simpl. by eapply Hkeep, Hconf. }
  split.
  { intros ctype info ref b Hin Href. unfold Get. simpl.
    destruct (lookup_key_is_Some_In _ _ (Hrefs _ _ _ _ Hin Href)) as [cv Hcv].
    by eapply Hmade. }
  split; [done|]. split; [done|done].
Qed.

(** The server named in the source is registered: [Load] constructs it. *)
Lemma Load_completes_witness :
  loaded (snd (fst (@Load Examples.plain Examples.creating
                      (Examples.serverState RegistrationExamples.httpServer)))) = true /\
  is_Some (Get "ms.server"
             (snd (fst (@Load Examples.plain Examples.creating
                          (Examples.serverState RegistrationExamples.httpServer))))).
Proof.
  assert (Hw : forall m, @WrapfNil Examples.plain m <> None) by (intros m; discriminate).
  destruct (@Load_completes Examples.plain Examples.creating
              (Examples.serverState RegistrationExamples.httpServer)
              (snd (fst (@Load Examples.plain Examples.creating
                           (Examples.serverState RegistrationExamples.httpServer))))
              (snd (@Load Examples.plain Examples.creating
                      (Examples.serverState RegistrationExamples.httpServer)))
              Hw eq_refl ltac:(vm_compute; reflexivity))
    as (Hloaded & _ & _ & Hget & _).
  split; [exact Hloaded|].
  exact (Hget "Server" Examples.serverInfo "ms.server" true (or_introl eq_refl)
           (or_introl eq_refl)).
Defined.

(** X11.  [Load] calls no constructor before it has read and checked every
    reference: its calls are reads, then constructions.  The package is loaded
    afterwards only if [Load] was called on a loaded package or returns nil,
    and what was declared and registered is always as before. *)
Theorem Load_reads_then_constructs `{Runtime} `{Reflection} (st : state) :
  (exists reads creates,
     snd (Load st) = reads ++ creates /\
     Forall (fun ev => is_construction ev = false) reads /\
     Forall (fun ev => is_construction ev = true) creates) /\
  (loaded (snd (fst (Load st))) = true ->
     loaded st = true \/ fst (fst (Load st)) = Return None) /\
  sources (snd (fst (Load st))) = sources st /\
  mustConfigureByRef (snd (fst (Load st))) = mustConfigureByRef st /\
  constructorsByType (snd (fst (Load st))) = constructorsByType st.
Proof.
  unfold Load. destruct (loaded st) eqn:Hl.
  { simpl. split; [exists [], []; by repeat constructor|]. auto. }
  destruct (Nat.eqb (length (sources st)) 0).
  { simpl. split; [exists [], []; by repeat constructor|]. rewrite Hl. by split. }
  pose proof (loadConfigured_no_construction (sources st) (mustConfigureByRef st) []) as H1.
  destruct (loadConfigured (sources st) (mustConfigureByRef st) [])
    as [[config out1] evs1]. simpl in H1.
  destruct out1 as [r|].
  { simpl. split; [exists evs1, []; rewrite app_nil_r; by repeat constructor|]. by split. }
  pose proof (resolveTypes_no_construction (sources st) (constructorsByType st) []) as H2.
  destruct (resolveTypes (sources st) (constructorsByType st) [])
    as [[byRef out2] evs2]. simpl in H2.
  assert (H12 : Forall (fun ev => is_construction ev = false) (evs1 ++ evs2)).
  { by apply Forall_app. }
  destruct out2 as [r|].
  { simpl. split; [exists (evs1 ++ evs2), []; rewrite app_nil_r; by repeat constructor|].
    by split. }
  pose proof (construct_calls byRef config) as H3.
  destruct (construct byRef config) as [[config' out3] evs3]. simpl in H3.
  destruct out3 as [r|]; simpl.
  - split; [exists (evs1 ++ evs2), evs3; by rewrite <- app_assoc|]. by split.
  - split; [exists (evs1 ++ evs2), evs3; by rewrite <- app_assoc|]. split; auto.
Qed.

(** X12.  A reference declared with [MustConfigure] or with [MayConfigure]
    that no source has makes [Load] return an error, with no constructor
    called and the package not loaded: the optional kind is required too. *)
Theorem Load_missing_configured `{Runtime} `{Reflection} (st : state) (ref : string)
    (tmpl : value) :
  loaded st = false ->
  In (ref, tmpl) (mustConfigureByRef st) ->
  Forall (fun ns => GetInto ns ref tmpl = (None, None)) (sources st) ->
  (exists e, fst (fst (Load st)) = Return (Some e)) /\
  Forall (fun ev => is_construction ev = false) (snd (Load st)) /\
  loaded (snd (fst (Load st))) = false.
Proof.
  intros Hl Hin Hs.
  assert (Hfirst : forall srcs,
            Forall (fun ns => GetInto ns ref tmpl = (None, None)) srcs ->
            fst (firstSource srcs ref tmpl) = (None, None)).
  { induction 1 as [|ns srcs Hns _ IH]; simpl; [done|].
    rewrite Hns. destruct (firstSource srcs ref tmpl) as [r evs]. by simpl in *. }
  assert (Hexit : forall required config,
            In (ref, tmpl) required ->
            exists out, snd (fst (loadConfigured (sources st) required config)) = Some out).
  { induction required as [|[ref1 tmpl1] required IH]; intros config; simpl; [done|].
    intros [Heq|Hin'].
    - injection Heq as -> ->. specialize (Hfirst _ Hs).
      destruct (firstSource (sources st) ref tmpl) as [[found err] evs].
      simpl in Hfirst. injection Hfirst as -> ->. simpl. eauto.
    - destruct (firstSource (sources st) ref1 tmpl1) as [[found err] evs].
      destruct err; [simpl; eauto|]. destruct found as [[ns v]|]; [|simpl; eauto].
      destruct (IH (assign ref1 v config) Hin') as [out Ho].
      destruct (loadConfigured (sources st) required (assign ref1 v config)) as [[c o] e'].
      simpl in *. eauto. }
  unfold Load. rewrite Hl.
  destruct (Nat.eqb (length (sources st)) 0); [simpl; eauto|].
  pose proof (loadConfigured_no_construction (sources st) (mustConfigureByRef st) []) as H1.
  destruct (Hexit _ [] Hin) as [out Ho].
  destruct (loadConfigured (sources st) (mustConfigureByRef st) [])
    as [[config out1] evs1] eqn:Hc. simpl in H1, Ho. subst out1. simpl.
  apply loadConfigured_exit in Hc as [e ->]. eauto.
Qed.

Lemma Load_missing_configured_witness :
  exists e,
    fst (fst (@Load Examples.plain Examples.creating
                {| loaded := false; sources := [Examples.grpcServer];
                   mustConfigureByRef := [("ms.name", VString "")];
                   constructorsByType := []; configByRef := [] |})) = Return (Some e).
Proof.
  refine (proj1 (@Load_missing_configured Examples.plain Examples.creating
                   {| loaded := false; sources := [Examples.grpcServer];
                      mustConfigureByRef := [("ms.name", VString "")];
                      constructorsByType := []; configByRef := [] |}
                   "ms.name" (VString "") eq_refl (or_introl eq_refl) _)).
  constructor; [reflexivity|constructor].
Defined.

End LoadFacts.

(** ** The source in memory *)

Module MemFacts.
Import Go Mem.

Lemma value_size_lookup (m : gmap string value) k u :
  m !! k = Some u ->
  value_size u <= map_fold (fun _ u acc => value_size u + acc) 0 m.
Proof.
  intros Hk. rewrite <- (insert_delete_id m k u Hk).
  rewrite map_fold_insert_L.
  - lia.
  - intros. lia.
  - apply lookup_delete_eq.
Qed.

Lemma value_size_In fields u :
  In u fields -> value_size u <= fold_right (fun u acc => value_size u + acc) 0 fields.
Proof.
  induction fields as [|x fields IH]; simpl; [done|].
  intros [->|Hin]; [lia|]. specialize (IH Hin). lia.
Qed.

(** Induction on values, through maps, structs and pointers. *)
Lemma value_induction (P : value -> Prop) :
  (forall b, P (VBool b)) -> (forall n, P (VInt n)) -> (forall s, P (VString s)) ->
  P (VMap None) ->
  (forall m : gmap string value, (forall k u, m !! k = Some u -> P u) -> P (VMap (Some m))) ->
  (forall name fields, Forall P fields -> P (VStruct name fields)) ->
  (forall e, P (VPtr e None)) ->
  (forall e u, P u -> P (VPtr e (Some u))) ->
  forall v, P v.
Proof.
  intros Hb Hi Hs Hn Hm Hst Hp0 Hp v.
  remember (value_size v) as n eqn:Hn'. revert v Hn'.
  induction n as [n IH] using lt_wf_ind. intros v ->.
  destruct v as [b|z|s|[m|]|name fields|e [u|]]; auto.
  - apply Hm. intros k u Hk. apply (IH (value_size u)); [|done].
    simpl. pose proof (value_size_lookup _ _ _ Hk). lia.
  - apply Hst. apply Forall_forall. intros u Hu. apply list_elem_of_In in Hu.
    apply (IH (value_size u)); [|done].
    simpl. pose proof (value_size_In _ _ Hu). lia.
  - apply Hp. apply (IH (value_size u)); [|done]. simpl. lia.
Qed.

(** [DeepEqual] decides the equality of values. *)
Lemma DeepEqual_eq : forall a b, DeepEqual a b = true <-> a = b.
Proof.
  induction a as [x|x|x| |m IH|name fields IH|e|e u IH] using value_induction;
    intros b; destruct b as [y|y|y|[m2|]|name2 fields2|e2 [u2|]]; simpl;
    try (split; [discriminate|congruence]).
  - rewrite Bool.eqb_true_iff. split; congruence.
  - rewrite Z.eqb_eq. split; congruence.
  - rewrite String.eqb_eq. split; congruence.
  - split; done.
  - rewrite bool_decide_eq_true. split.
    + intros Hm. f_equal. f_equal. apply map_eq. intros k.
      assert (Hk := f_equal (fun m => m !! k) Hm). simpl in Hk.
      rewrite lookup_merge, lookup_empty in Hk.
      destruct (m !! k) as [u|] eqn:Hu, (m2 !! k) as [v|] eqn:Hv; simpl in Hk; try done.
      destruct (DeepEqual u v) eqn:He; [|done]. apply (IH _ _ Hu) in He. by subst.
    + intros [= <-]. apply map_eq. intros k. rewrite lookup_merge, lookup_empty.
      destruct (m !! k) as [u|] eqn:Hu; simpl; [|done].
      by rewrite (proj2 (IH _ _ Hu u) eq_refl).
  - rewrite andb_true_iff, String.eqb_eq.
    assert (Hgo : forall l2,
      (fix go (l1 l2 : list value) : bool :=
         match l1, l2 with
         | [], [] => true
         | x :: l1', y :: l2' => DeepEqual x y && go l1' l2'
         | _, _ => false
         end) fields l2 = true <-> fields = l2).
    { induction IH as [|x l Hx _ IHl]; intros [|y l2]; try (split; [discriminate|congruence]).
      - done.
      - rewrite andb_true_iff, Hx, IHl. split; [by intros [-> ->]|by intros [= -> ->]]. }
    rewrite Hgo. split; [by intros [-> ->]|by intros [= -> ->]].
  - rewrite andb_true_iff, bool_decide_eq_true. split; [by intros [_ ?]|done].
  - rewrite andb_true_iff, bool_decide_eq_true. split; [by intros [-> _]|by intros [= ->]].
  - rewrite andb_true_iff, bool_decide_eq_true, IH. split; [by intros [-> ->]|by intros [= -> ->]].
  - rewrite andb_true_iff, bool_decide_eq_true. split; [by intros [_ ?]|done].
Qed.

Lemma DeepEqual_refl v : DeepEqual v v = true.
Proof. by apply DeepEqual_eq. Qed.

Lemma DeepEqual_neq a b : a <> b -> DeepEqual a b = false.
Proof.
  intros Hne. destruct (DeepEqual a b) eqn:He; [|done]. by apply DeepEqual_eq in He.
Qed.

Lemma changed_values name values s : byName (snd (changed name values s)) = values.
Proof. unfold changed. by destruct (notifiers s !! name). Qed.

Lemma changed_registered name values s name' :
  registered name' (snd (changed name values s)) =
    if String.eqb name name' then [] else registered name' s.
Proof.
  unfold changed, registered. destruct (String.eqb name name') eqn:He.
  - apply String.eqb_eq in He as <-.
    destruct (notifiers s !! name) eqn:Hn; simpl; [by rewrite lookup_insert_eq|by rewrite Hn].
  - apply String.eqb_neq in He.
    destruct (notifiers s !! name) eqn:Hn; simpl; [by rewrite lookup_insert_ne|done].
Qed.

Lemma changed_notifiers name values s :
  fst (changed name values s) = (registered name s, None).
Proof. unfold changed, registered. by destruct (notifiers s !! name). Qed.

(** What [set] does, case by case. *)
Lemma set_cases name value s :
  (byName s !! name = value /\ set name value s = (([], None), s)) \/
  (byName s !! name <> value /\
   set name value s =
     changed name (match value with
                   | Some v => <[name := v]> (byName s)
                   | None => delete name (byName s)
                   end) s).
Proof.
  unfold set. destruct value as [v|], (byName s !! name) as [old|] eqn:Hold.
  - destruct (DeepEqual old v) eqn:He; simpl.
    + apply DeepEqual_eq in He as ->. by left.
    + right. split; [|done]. intros [= ->]. by rewrite DeepEqual_refl in He.
  - right. by split.
  - right. by split.
  - by left.
Qed.

(** X13.  What is set can be got: after [set] of a value, [Get] of the
    name gives that value; after [set] of nil it gives nil; other names are
    answered as before; and a new source has no name.  [Get] never fails and
    never changes the values, and it answers as the fixed source of the same
    values does. *)
Theorem set_then_Get (name : string) (value : iface) (s : memSource)
    (name' : string) (n n' : option INotifier) :
  fst (Get name n (snd (set name value s))) = (value, None) /\
  (name' <> name ->
   fst (Get name' n (snd (set name value s))) = fst (Get name' n s)) /\
  fst (Get name n New) = (None, None) /\
  byName (snd (Get name n s)) = byName s /\
  fst (Get name n s) = Chain.Get (Examples.memSource (byName s)) name n' /\
  With name value s = snd (set name value s).
Proof.
  assert (Hget : forall k m s0, fst (Get k m s0) = (byName s0 !! k, None)).
  { intros k m s0. unfold Get. by destruct (byName s0 !! k). }
  rewrite !Hget. split.
  { destruct (set_cases name value s) as [[Hv ->]|[_ ->]]; simpl; [by rewrite Hv|].
    rewrite changed_values. destruct value; [by rewrite lookup_insert_eq|by rewrite lookup_delete_eq]. }
  split.
  { intros Hne.
    destruct (set_cases name value s) as [[Hv ->]|[_ ->]]; simpl; [done|].
    rewrite changed_values.
    destruct value; [by rewrite lookup_insert_ne|by rewrite lookup_delete_ne]. }
  split; [done|]. split; [|done].
  unfold Get. destruct (byName s !! name); [|done]. destruct n; [|done].
  by destruct (Nat.eqb _ 0).
Qed.

(** X14.  A notifier is called once for a change.  [Get] of a name that
    has a value puts the notifier last in the list of the name; [set] of a value
    that differs from the one held hands out the whole list, in the order of the
    calls of [Get], and empties it, so that the next [set] of the name hands out
    nothing.  [set] of the value held, or of nil for a name without a value,
    hands out nothing and changes nothing.  [Set] calls the notifiers that
    [set] hands out, and returns no error. *)
Theorem set_notifies_once (name : string) (s : memSource) (n : INotifier) (v : value)
    (value value' : iface) :
  byName s !! name = Some v ->
  registered name (snd (Get name (Some n) s)) = registered name s ++ [n] /\
  (value <> Some v ->
   fst (set name value (snd (Get name (Some n) s))) = (registered name s ++ [n], None) /\
   fst (set name value' (snd (set name value (snd (Get name (Some n) s))))) = ([], None)) /\
  set name (Some v) s = (([], None), s) /\
  set name None (snd (set name None s)) = (([], None), snd (set name None s)) /\
  fst (Set_ name value s) = (None, fst (fst (set name value s))).
Proof.
  intros Hv.
  assert (Hreg : registered name (snd (Get name (Some n) s)) = registered name s ++ [n]).
  { unfold Get. rewrite Hv. destruct (registered name s) as [|x l] eqn:Hr; simpl.
    - unfold registered. simpl. by rewrite lookup_insert_eq.
    - unfold registered at 1. simpl. by rewrite lookup_insert_eq. }
  assert (Hvals : byName (snd (Get name (Some n) s)) = byName s).
  { unfold Get. rewrite Hv. simpl. by destruct (Nat.eqb _ 0). }
  split; [done|]. split.
  { intros Hne. destruct (set_cases name value (snd (Get name (Some n) s)))
      as [[Heq _]|[_ Hs]]; [by rewrite Hvals, Hv in Heq|].
    rewrite Hs, changed_notifiers, Hreg. split; [done|].
    match goal with |- fst (set name value' ?s1) = _ => set (s1' := s1) end.
    assert (Hnone : registered name s1' = []).
    { unfold s1'. by rewrite changed_registered, String.eqb_refl. }
    destruct (set_cases name value' s1') as [[_ ->]|[_ ->]]; [done|].
    by rewrite changed_notifiers, Hnone. }
  split.
  { destruct (set_cases name (Some v) s) as [[_ ->]|[Hne _]]; done. }
  split.
  { destruct (set_cases name None (snd (set name None s))) as [[_ ->]|[Hne _]]; [done|].
    destruct Hne. destruct (set_cases name None s) as [[Habs _]|[_ ->]]; [congruence|].
    by rewrite changed_values, lookup_delete_eq. }
  unfold Set_. destruct (set_cases name value s) as [[_ ->]|[_ ->]]; [done|].
  pose proof (changed_notifiers name
    (match value with Some v0 => <[name:=v0]> (byName s) | None => delete name (byName s) end) s)
    as Hc.
  destruct (changed name _ s) as [[ns err] s']. simpl in Hc. by injection Hc as -> ->.
Qed.

Lemma set_notifies_once_witness :
  fst (set "name" (Some (VString "Piet"))
         (snd (Get "name" (Some 7)
                 (With "name" (Some (VString "Jan")) New)))) =
    (registered "name" (With "name" (Some (VString "Jan")) New) ++ [7], None).
Proof.
  refine (proj1 (proj1 (proj2
    (set_notifies_once "name" (With "name" (Some (VString "Jan")) New) 7 (VString "Jan")
       (Some (VString "Piet")) None _)) _)).
  - vm_compute. reflexivity.
  - discriminate.
Defined.

(** X15.  No notifier is kept for a name without a value: this holds of
    a new source and [Get] and [set] keep it.  So a notifier handed to [Get]
    for a name that has no value is dropped, and nobody is called when the name
    gets its value. *)
Theorem absent_name_is_not_watched (name : string) (s : memSource)
    (n : option INotifier) (value : iface) (name' : string) (v : Go.value) :
  watched_have_values New /\
  (watched_have_values s ->
   watched_have_values (snd (Get name n s)) /\
   watched_have_values (snd (set name value s)) /\
   (byName s !! name' = None ->
    Get name' n s = ((None, None), s) /\
    fst (Set_ name' (Some v) (snd (Get name' n s))) = (None, []))).
Proof.
  split; [by intros k _|]. intros Hs. split.
  { intros k Hk. unfold Get in *. destruct (byName s !! name) as [held|] eqn:Hheld; [|by apply Hs].
    destruct n as [n|]; [|by apply Hs].
    assert (Hne : k <> name) by (intros ->; destruct (Nat.eqb _ 0); simpl in Hk; congruence).
    destruct (Nat.eqb _ 0); simpl in *; unfold registered; simpl;
      rewrite lookup_insert_ne by done; by apply Hs. }
  split.
  { intros k Hk. destruct (set_cases name value s) as [[_ Hset]|[_ Hset]];
      rewrite Hset in *; [by apply Hs|].
    rewrite changed_registered. rewrite changed_values in Hk.
    destruct (String.eqb name k) eqn:He; [done|]. apply String.eqb_neq in He.
    apply Hs. destruct value; [by rewrite lookup_insert_ne in Hk|by rewrite lookup_delete_ne in Hk]. }
  intros Habs.
  assert (Hget : Get name' n s = ((None, None), s)) by (unfold Get; by rewrite Habs).
  split; [done|]. rewrite Hget. simpl. unfold Set_, set. rewrite Habs.
  pose proof (changed_notifiers name' (<[name' := v]> (byName s)) s) as Hc.
  destruct (changed name' _ s) as [[ns err] s']. simpl in Hc. injection Hc as -> ->.
  by rewrite (Hs _ Habs).
Qed.

Lemma absent_name_is_not_watched_witness :
  fst (Set_ "name" (Some (VString "Jan")) (snd (Get "name" (Some 7) New))) = (None, []).
Proof.
  refine (proj2 (proj2 (proj2 (proj2
    (absent_name_is_not_watched "name" New (Some 7) None "name" (VString "Jan"))
    _)) _)).
  - intros k _. reflexivity.
  - vm_compute. reflexivity.
Defined.

End MemFacts.

(** ** The lookup in a JSON file *)

Module FilesFacts.
Import Go Files.

Lemma skipDots_length name : String.length (skipDots name) <= String.length name.
Proof.
  induction name as [|c name IH]; simpl; [done|].
  destruct (Ascii.eqb c "."); simpl; lia.
Qed.

Lemma SplitN2_length name part0 part1 more :
  SplitN2 name = part0 :: part1 :: more ->
  String.length part1 < String.length name.
Proof.
  revert part0. induction name as [|c name IH]; intros part0; simpl; [discriminate|].
  destruct (Ascii.eqb c "."); [intros [= _ <- _]; lia|].
  destruct (SplitN2 name) as [|p ps] eqn:Hs; [discriminate|].
  intros [= _ ->]. specialize (IH p eq_refl). lia.
Qed.

(** The fuel of [jsonGet] is enough: more of it changes nothing. *)
Lemma jsonGet_rec_fuel : forall fuel1 fuel2 obj name,
  String.length name < fuel1 -> String.length name < fuel2 ->
  jsonGet_rec fuel1 obj name = jsonGet_rec fuel2 obj name.
Proof.
  induction fuel1 as [|fuel1 IH]; intros fuel2 obj name H1 H2; [lia|].
  destruct fuel2 as [|fuel2]; [lia|]. simpl.
  destruct (SplitN2 (skipDots name)) as [|part0 more] eqn:Hs; [done|].
  destruct (Nat.eqb _ 0); [done|]. destruct (index obj part0) as [v|]; [|done].
  destruct more as [|part1 more]; [done|]. destruct v as [| | |subObj| |]; try done.
  pose proof (SplitN2_length _ _ _ _ Hs). pose proof (skipDots_length name).
  apply IH; lia.
Qed.

Lemma skipDots_key key rest :
  is_key key = true -> skipDots (key +:+ rest) = key +:+ rest.
Proof.
  unfold is_key. destruct key as [|c key]; simpl; [done|].
  intros [Hc _]%andb_true_iff. apply negb_true_iff in Hc. by rewrite Hc.
Qed.

Lemma append_length (a b : string) :
  String.length (a +:+ b) = String.length a + String.length b.
Proof. induction a as [|c a IH]; simpl; [reflexivity|congruence]. Qed.

Lemma skipDots_plain key : is_key key = true -> skipDots key = key.
Proof.
  unfold is_key. destruct key as [|c key]; simpl; [done|].
  intros [Hc _]%andb_true_iff. apply negb_true_iff in Hc. by rewrite Hc.
Qed.

Lemma SplitN2_key key :
  forallb (fun c => negb (Ascii.eqb c ".")) (list_ascii_of_string key) = true ->
  SplitN2 key = [key] /\ forall rest, SplitN2 (key +:+ "." +:+ rest) = [key; rest].
Proof.
  induction key as [|c key IH]; simpl; [done|].
  intros [Hc Hk]%andb_true_iff. apply negb_true_iff in Hc. rewrite Hc.
  destruct (IH Hk) as [-> Hrest]. split; [done|]. intros rest. by rewrite Hrest.
Qed.

Lemma jsonGet_rec_dot fuel obj name :
  jsonGet_rec fuel obj ("." +:+ name) = jsonGet_rec fuel obj name.
Proof. destruct fuel; reflexivity. Qed.

Lemma concat_cons key path :
  String.concat "." (key :: path) =
    match path with
    | [] => key
    | _ :: _ => key +:+ "." +:+ String.concat "." path
    end.
Proof. by destruct path. Qed.

Lemma lookup_path_step obj key key' path :
  lookup_path obj (key :: key' :: path) =
    match index obj key with
    | Some (VMap subObj) => lookup_path subObj (key' :: path)
    | _ => None
    end.
Proof. simpl. destruct (index obj key) as [[]|]; done. Qed.

(** X16.  [jsonGet] walks the path of a dotted name: for keys that are
    not empty and have no dot, joined by dots, it gives the value found by
    looking up the first key in the object and the rest in the object found
    there, and nil when a key is missing or a value on the way is no object. *)
Theorem jsonGet_walks_path (path : list string) :
  Forall (fun key => is_key key = true) path ->
  forall obj, jsonGet obj (String.concat "." path) = lookup_path obj path.
Proof.
  induction 1 as [|key path Hkey Hpath IH]; intros obj; [done|].
  unfold jsonGet. rewrite concat_cons.
  assert (Hdots : forallb (fun c => negb (Ascii.eqb c ".")) (list_ascii_of_string key) = true).
  { unfold is_key in Hkey. by apply andb_true_iff in Hkey as [_ ?]. }
  assert (Hlen : Nat.eqb (String.length key) 0 = false).
  { unfold is_key in Hkey. apply andb_true_iff in Hkey as [Hl _]. by apply negb_true_iff. }
  destruct (SplitN2_key key Hdots) as [Hone Hmore].
  destruct path as [|key' path].
  - cbn [jsonGet_rec lookup_path].
    rewrite (skipDots_plain key Hkey), Hone, Hlen. by destruct (index obj key).
  - rewrite lookup_path_step. cbn [jsonGet_rec].
    rewrite (skipDots_key key _ Hkey), Hmore, Hlen.
    destruct (index obj key) as [v|]; [|done].
    destruct v as [| | |subObj| |]; try done.
    rewrite <- IH. unfold jsonGet. apply jsonGet_rec_fuel; [|lia].
    rewrite !append_length. cbn [String.length]. lia.
Qed.

Lemma jsonGet_walks_path_witness :
  jsonGet (Some {[ "server" := VMap (Some {[ "port" := VInt 8080 ]}) ]})
    (String.concat "." ["server"; "port"]) =
  lookup_path (Some {[ "server" := VMap (Some {[ "port" := VInt 8080 ]}) ]})
    ["server"; "port"].
Proof.
  apply (jsonGet_walks_path ["server"; "port"]).
  repeat constructor.
Defined.

(** X17.  The dots that [jsonGet] does not read as a path: dots in front
    of a name are skipped, also after a dot, so that doubled dots count as one;
    an empty name and a name that ends in a dot give nil, whatever the object
    holds. *)
Theorem jsonGet_dots (obj : option (gmap string value)) (name key : string) :
  jsonGet obj ("." +:+ name) = jsonGet obj name /\
  jsonGet obj "" = None /\
  (is_key key = true ->
   jsonGet obj (key +:+ "." +:+ "." +:+ name) = jsonGet obj (key +:+ "." +:+ name) /\
   jsonGet obj (key +:+ ".") = None).
Proof.
  pose proof append_length as Hlen.
  split.
  { unfold jsonGet. rewrite jsonGet_rec_dot.
    apply jsonGet_rec_fuel; rewrite ?Hlen; simpl; lia. }
  split; [done|]. intros Hkey.
  assert (Hdots : forallb (fun c => negb (Ascii.eqb c ".")) (list_ascii_of_string key) = true).
  { unfold is_key in Hkey. by apply andb_true_iff in Hkey as [_ ?]. }
  assert (Hnz : Nat.eqb (String.length key) 0 = false).
  { unfold is_key in Hkey. apply andb_true_iff in Hkey as [Hl _]. by apply negb_true_iff. }
  destruct (SplitN2_key key Hdots) as [_ Hmore].
  unfold jsonGet. cbn [jsonGet_rec]. split.
  - rewrite !(skipDots_key key _ Hkey), !Hmore, Hnz.
    destruct (index obj key) as [v|]; [|done].
    destruct v as [| | |subObj| |]; try done.
    rewrite !Hlen. cbn [String.length].
    rewrite jsonGet_rec_dot. apply jsonGet_rec_fuel; simpl; lia.
  - change (key +:+ ".") with (key +:+ "." +:+ "").
    rewrite (skipDots_key key _ Hkey), (Hmore ""), Hnz.
    destruct (index obj key) as [v|]; [|done].
    destruct v as [| | |subObj| |]; try done.
    rewrite Hlen. by rewrite Nat.add_comm.
Qed.

Lemma jsonGet_dots_witness :
  jsonGet (Some {[ "server" := VInt 1 ]}) ("server" +:+ ".") = None.
Proof.
  exact (proj2 (proj2 (proj2
    (jsonGet_dots (Some {[ "server" := VInt 1 ]}) "" "server")) eq_refl)).
Defined.

End FilesFacts.

(** ** The life of a current value *)

Module LifetimeFacts.
Import Go Chain Binder Lifetime.

Section WithRuntime.
Context `{Runtime}.

Lemma loadField_outcome srcs c cur names i f sv r evs :
  loadField srcs c cur names i f sv = (Leave r, evs) -> r <> Blocked.
Proof.
  unfold loadField, loadPlain, loadConstructed, GetAndWatch. intros Hl.
  repeat (case_match; simplify_eq/=); done.
Qed.

Lemma loadFields_outcome srcs c cur names fields : forall i sv r evs,
  loadFields srcs c cur names i fields sv = (Leave r, evs) -> r <> Blocked.
Proof.
  induction fields as [|f fields IH]; intros i sv r evs; simpl; [done|].
  destruct (loadField srcs c cur names i f sv) as [[sv1|r1] evs1] eqn:Hf.
  - destruct (loadFields srcs c cur names (S i) fields sv1) as [s' evs'] eqn:Hr.
    intros [= -> <-]. by eapply IH.
  - intros [= <- <-]. by eapply loadField_outcome.
Qed.

Lemma loadFields_length srcs c cur names fields : forall i sv sv' evs,
  loadFields srcs c cur names i fields sv = (Next sv', evs) -> length sv' = length sv.
Proof.
  induction fields as [|f fields IH]; intros i sv sv' evs; simpl; [by intros [= <- _]|].
  destruct (loadField srcs c cur names i f sv) as [[sv1|r1] evs1] eqn:Hf; [|discriminate].
  destruct (loadFields srcs c cur names (S i) fields sv1) as [s' evs'] eqn:Hr.
  intros [= -> <-].
  destruct (BinderFacts.loadField_frame _ _ _ _ _ _ _ _ _ Hf) as [Hlen _].
  rewrite (IH _ _ _ _ Hr). done.
Qed.

Lemma bound_log c w evs : bound c w -> bound c (log evs w).
Proof. done. Qed.

(** The creator's release of a value it holds, while the loop runs. *)
Lemma release_creator a cv w :
  heap w !! a = Some cv -> exited cv = false ->
  release {| target := a; callerID := creatorID |} w =
    (if snd (snd (cleanupRound creatorID cv)) then Panic else Return tt,
     log (fst (snd (cleanupRound creatorID cv)))
       (set_heap (<[a := fst (cleanupRound creatorID cv)]> (heap w)) w)).
Proof.
  intros Hcv Hex. unfold release. cbn [target callerID]. rewrite Hcv, Hex.
  by destruct (cleanupRound creatorID cv) as [cv' [evs panicked]].
Qed.

(** [install] on a configurable that has a current value: the creator lets
    go of it; when a destructor of the old value panics so does [install], and
    else the new value, one revision on, is current. *)
Lemma install_bound c sv w :
  bound c w -> length sv = length (Fields (structType c)) ->
  exists a cv,
    currentValue c = Some a /\ heap w !! a = Some cv /\
    (if snd (snd (cleanupRound creatorID cv))
     then install c sv w = (Panic, c, w)
     else
       exists c' w' new,
         install c sv w = (Return None, c', w') /\
         bound c' w' /\
         structType c' = structType c /\
         hasConstructedValues c' = hasConstructedValues c /\
         currentValue c' = Some (length (heap w)) /\
         heap w' !! length (heap w) = Some new /\ structPtrValue new = sv /\
         revision new = wrap_int (revision cv + 1) /\
         calls w' = calls w ++ fst (snd (cleanupRound creatorID cv))).
Proof.
  intros (a & cv & Ha & Hrel & Hcv & Hty & Hlen & Hin & Hex) Hsv.
  exists a, cv. split; [done|]. split; [done|].
  unfold install. rewrite Hrel, Ha, Hcv.
  rewrite (release_creator _ _ _ Hcv Hex).
  destruct (snd (snd (cleanupRound creatorID cv))); [done|].
  unfold newConfigValue.
  eexists _, _, _. split; [done|].
  cbn [heap log set_heap calls]. rewrite length_insert.
  assert (Hnew : (<[a := fst (cleanupRound creatorID cv)]> (heap w)
                    ++ [fresh (wrap_int (revision cv + 1)) (structType c) sv])
                   !! length (heap w) =
                 Some (fresh (wrap_int (revision cv + 1)) (structType c) sv)).
  { rewrite lookup_app_r; rewrite length_insert; [|lia]. by rewrite Nat.sub_diag. }
  split.
  { eexists _, _. split; [done|]. split; [done|]. split; [exact Hnew|].
    split; [done|]. split; [done|]. split; [|done]. simpl. set_solver. }
  split; [done|]. split; [done|]. split; [done|]. split; [exact Hnew|]. done.
Qed.

(** A load on a configurable that has a current value. *)
Lemma load_bound c names w r c' w' :
  bound c w -> load c names w = (r, c', w') ->
  r <> Blocked /\ bound c' w' /\ structType c' = structType c /\
  hasConstructedValues c' = hasConstructedValues c.
Proof.
  intros Hb. unfold load.
  destruct (loadFields _ _ _ _ _ _ _) as [[sv|r0] evs] eqn:Hf.
  - apply loadFields_length in Hf. unfold newStruct in Hf. rewrite length_map in Hf.
    assert (Hinst : forall w0, bound c w0 ->
              install c sv w0 = (r, c', w') ->
              r <> Blocked /\ bound c' w' /\ structType c' = structType c /\
              hasConstructedValues c' = hasConstructedValues c).
    { intros w0 Hb0 Hi.
      destruct (install_bound c sv w0 Hb0 Hf) as (a & cv & _ & _ & Hcases).
      destruct (snd (snd (cleanupRound creatorID cv))).
      - rewrite Hcases in Hi. by injection Hi as <- <- <-.
      - destruct Hcases as (c1 & w1 & new & Hi1 & Hb1 & Hst & Hhas & _).
        rewrite Hi1 in Hi. by injection Hi as <- <- <-. }
    destruct (Validate _) as [[e|]|].
    + intros [= <- <- <-]. done.
    + apply Hinst. by do 2 apply bound_log.
    + apply Hinst. by apply bound_log.
  - intros [= <- <- <-]. split; [by eapply loadFields_outcome|]. done.
Qed.

(** The first load of [Add]. *)
Lemma Add_bound tmpl w c w' :
  (forall m, WrapfNil m <> None) ->
  Add (Some tmpl) w = (Return (Some c, None), w') ->
  exists has,
    validateConfigStructType (templateType tmpl) = (has, None) /\
    bound c w' /\ structType c = templateType tmpl /\ hasConstructedValues c = has.
Proof.
  intros Hw. unfold Add.
  destruct (validateConfigStructType (templateType tmpl)) as [has [e|]]; [discriminate|].
  destruct (load (initial tmpl has w) [] (allocated w)) as [[r c0] w0] eqn:Hl.
  destruct r as [[e|]| |]; try discriminate.
  intros [= <- <-]. exists has. split; [done|].
  apply BinderFacts.load_nil_installs in Hl as (sv & evs & vs & Hf & _ & Hi); [|done].
  apply loadFields_length in Hf. unfold newStruct in Hf. rewrite length_map in Hf.
  unfold install in Hi. simpl in Hi. unfold newConfigValue in Hi.
  injection Hi as <- <-. simpl. split; [|done].
  eexists _, _. split; [done|]. split; [done|]. split.
  { simpl. rewrite lookup_app_r; [|lia]. by rewrite Nat.sub_diag. }
  split; [done|]. split; [done|]. split; [|done]. simpl. set_solver.
Qed.

Lemma use_bound c caller w :
  bound c w ->
  exists a cv,
    currentValue c = Some a /\ heap w !! a = Some cv /\
    Use c caller w =
      (Return (VStruct (TName (valueType cv)) (structPtrValue cv),
               {| target := a; callerID := caller |}),
       set_heap (<[a := {| structPtrValue := structPtrValue cv; valueType := valueType cv;
                           revision := revision cv; users := {[caller]} ∪ users cv;
                           exited := exited cv |}]> (heap w)) w) /\
    bound c (snd (Use c caller w)).
Proof.
  intros (a & cv & Ha & Hrel & Hcv & Hty & Hlen & Hin & Hex).
  exists a, cv. unfold Use, use. rewrite Ha, Hcv. split; [done|]. split; [done|].
  split; [done|]. simpl.
  eexists _, _. split; [done|]. split; [done|]. split.
  { simpl. apply list_lookup_insert_eq. by eapply lookup_lt_Some. }
  split; [done|]. split; [done|]. split; [|done]. simpl. set_solver.
Qed.

Lemma release_bound c rel w r w1 :
  bound c w -> callerID rel <> creatorID -> release rel w = (r, w1) ->
  bound c w1 /\ calls w1 = calls w ++
    (if decide (currentValue c = Some (target rel)) then [] else drop (length (calls w)) (calls w1)).
Proof.
  intros (a & cv & Ha & Hrel & Hcv & Hty & Hlen & Hin & Hex) Hne Hr.
  apply BinderFacts.release_cases in Hr as [[_ ->]|(cv0 & Hcv0 & Hex0 & _ & ->)].
  { split; [by exists a, cv|]. destruct (decide _); rewrite ?app_nil_r; [done|].
    by rewrite drop_all, app_nil_r. }
  destruct (decide (a = target rel)) as [->|Hna].
  - rewrite Hcv in Hcv0. injection Hcv0 as <-.
    destruct (BinderFacts.cleanupRound_keeps (callerID rel) cv) as (Hs & Hrev & Hvt & _ & Hk).
    destruct (Hk creatorID Hin (not_eq_sym Hne)) as (Hin' & Hex' & Hevs).
    split.
    + eexists _, _. split; [done|]. split; [done|]. split.
      { cbn [heap log set_heap]. apply list_lookup_insert_eq. by eapply lookup_lt_Some. }
      rewrite Hvt, Hs. done.
    + cbn [calls log set_heap]. rewrite Hevs, Ha. destruct (decide _); [done|congruence].
  - split.
    + exists a, cv. split; [done|]. split; [done|]. split; [|done].
      simpl. by rewrite list_lookup_insert_ne.
    + simpl. rewrite Ha. destruct (decide _) as [[= ?]|_]; [done|].
      by rewrite drop_app_length.
Qed.

End WithRuntime.

(** X18.  A configurable keeps a current value that is alive.  After an
    [Add] that returns a configurable (with a [Wrapf] that makes an error of a
    nil cause), the configurable has a current value in the heap, held by its
    creator, whose loop of [cleanup] runs.  Every [load] and [Notify] on such a
    configurable returns or panics, it never blocks, and the configurable has
    such a value afterwards, the old one or a new one; [Use] returns the
    struct of the current value with a release closure for the caller; and a
    release by a consumer, of any value, leaves the current value alive: when
    it is the current value that is released, no destructor is called. *)
Theorem current_value_stays_alive `{Runtime} (c : configurable) (w : world) :
  (forall tmpl w0 c0 w1,
     (forall m, WrapfNil m <> None) ->
     Add (Some tmpl) w0 = (Return (Some c0, None), w1) -> bound c0 w1) /\
  (bound c w ->
   (forall names r c' w', load c names w = (r, c', w') -> r <> Blocked /\ bound c' w') /\
   (forall name r c' w', Notify c name w = (r, c', w') -> r <> Blocked /\ bound c' w') /\
   (forall caller, exists a cv w1,
      currentValue c = Some a /\ heap w !! a = Some cv /\
      Use c caller w = (Return (VStruct (TName (valueType cv)) (structPtrValue cv),
                                {| target := a; callerID := caller |}), w1) /\
      bound c w1) /\
   (forall rel r w1,
      callerID rel <> creatorID -> release rel w = (r, w1) ->
      bound c w1 /\ (currentValue c = Some (target rel) -> calls w1 = calls w))).
Proof.
  split.
  { intros tmpl w0 c0 w1 Hw Ha. by destruct (Add_bound _ _ _ _ Hw Ha) as (has & _ & Hb & _). }
  intros Hb. split.
  { intros names r c' w' Hl. by destruct (load_bound _ _ _ _ _ _ Hb Hl) as (? & ? & _). }
  split.
  { intros name r c' w'. unfold Notify.
    destruct (load c [name] w) as [[r0 c0] w0] eqn:Hl.
    destruct (load_bound _ _ _ _ _ _ Hb Hl) as (Hr & Hb' & _).
    destruct r0; intros [= <- <- <-]; done. }
  split.
  { intros caller. destruct (use_bound c caller w Hb) as (a & cv & Ha & Hcv & Hu & Hb').
    exists a, cv. eexists. split; [done|]. split; [done|]. split; [exact Hu|].
    by rewrite Hu in Hb'. }
  intros rel r w1 Hne Hr.
  destruct (release_bound _ _ _ _ _ Hb Hne Hr) as [Hb' Hcalls]. split; [done|].
  intros Hcur. rewrite Hcalls. destruct (decide _); [by rewrite app_nil_r|done].
Qed.

(** The binder of Jan: a load with the name changed installs a new value,
    and the binder still has a live current value. *)
Lemma current_value_stays_alive_witness :
  bound (snd (fst (@load Examples.plain Examples.janBinder []
                     (Examples.janWorld [Examples.P3]))))
        (snd (@load Examples.plain Examples.janBinder [] (Examples.janWorld [Examples.P3]))).
Proof.
  assert (Hb : bound Examples.janBinder (Examples.janWorld [Examples.P3])).
  { exists 0, Examples.janValue. repeat split; reflexivity. }
  destruct (@load Examples.plain Examples.janBinder [] (Examples.janWorld [Examples.P3]))
    as [[r c'] w'] eqn:Hl.
  exact (proj2 (proj1 (proj2 (@current_value_stays_alive Examples.plain Examples.janBinder
                                (Examples.janWorld [Examples.P3])) Hb) [] r c' w' Hl)).
Defined.

(** *** The templates that [Add] takes *)

Ltac refuse_field :=
  right; split;
  [ let Hc := fresh "Hc" in
    let Hd := fresh "Hd" in
    intros (? & ? & ? & Hc & Hd);
    try (destruct (Hc _ eq_refl) as (? & ? & ? & ? & ?));
    try (destruct (Hd _ eq_refl) as (? & ?));
    congruence
  | eauto ].

Lemma validateField_spec tname f has :
  (configurableField f /\
   validateField tname f has = (has || hasConstructor f, None)) \/
  (~ configurableField f /\
   exists e, validateField tname f has = (false, Some e)).
Proof.
  unfold validateField, configurableField, hasConstructor.
  destruct (isPtr (if isPtr (FType f) then Elem (FType f) else FType f)) eqn:Hpp;
    [refuse_field|].
  destruct (String.eqb (Tag f) "") eqn:Htag.
  { apply String.eqb_eq in Htag. refuse_field. }
  apply String.eqb_neq in Htag.
  destruct (CanInterface f) eqn:Hci; simpl; [|refuse_field].
  destruct (Constructor f) as [k|] eqn:Hk.
  - destruct (Nat.eqb (NumIn (csig k)) 2) eqn:H1; simpl;
      [apply Nat.eqb_eq in H1|apply Nat.eqb_neq in H1; refuse_field].
    destruct (In1IsPtr (csig k)) eqn:H2; simpl; [refuse_field|].
    destruct (Nat.eqb (NumOut (csig k)) 2) eqn:H3; simpl;
      [apply Nat.eqb_eq in H3|apply Nat.eqb_neq in H3; refuse_field].
    destruct (Out0IsPtrToValType (csig k)) eqn:H4; simpl; [|refuse_field].
    destruct (Out1IsError (csig k)) eqn:H5; simpl; [|refuse_field].
    rewrite orb_true_r.
    destruct (Destructor f) as [d|] eqn:Hd.
    + destruct (Nat.eqb (NumIn d) 1) eqn:H6; simpl;
        [apply Nat.eqb_eq in H6|apply Nat.eqb_neq in H6; refuse_field].
      destruct (Nat.eqb (NumOut d) 0) eqn:H7; simpl;
        [apply Nat.eqb_eq in H7|apply Nat.eqb_neq in H7; refuse_field].
      left. split; [|done]. repeat split; intros; by simplify_eq.
    + left. split; [|done]. repeat split; intros; by simplify_eq.
  - rewrite orb_false_r. simpl.
    destruct (Destructor f) as [d|] eqn:Hd.
    + destruct (Nat.eqb (NumIn d) 1) eqn:H6; simpl;
        [apply Nat.eqb_eq in H6|apply Nat.eqb_neq in H6; refuse_field].
      destruct (Nat.eqb (NumOut d) 0) eqn:H7; simpl;
        [apply Nat.eqb_eq in H7|apply Nat.eqb_neq in H7; refuse_field].
      left. split; [|done]. repeat split; intros; by simplify_eq.
    + left. split; [|done]. repeat split; intros; by simplify_eq.
Qed.

Lemma validateFields_spec tname fields : forall has,
  (Forall configurableField fields /\
   validateFields tname fields has = (has || existsb hasConstructor fields, None)) \/
  (~ Forall configurableField fields /\
   exists e, validateFields tname fields has = (false, Some e)).
Proof.
  induction fields as [|f fields IH]; intros has; simpl.
  { left. by rewrite orb_false_r. }
  destruct (validateField_spec tname f has) as [[Hf ->]|[Hf (e & ->)]].
  - destruct (IH (has || hasConstructor f)) as [[Hall ->]|[Hall (e & ->)]].
    + left. split; [by constructor|]. by rewrite orb_assoc.
    + right. split; [|eauto]. intros Hcons. by inversion Hcons.
  - right. split; [|eauto]. intros Hcons. by inversion Hcons.
Qed.

Lemma validateConfigStructType_spec t has :
  validateConfigStructType t = (has, None) <->
  IsStruct t = true /\ Fields t <> [] /\ Forall configurableField (Fields t) /\
  has = existsb hasConstructor (Fields t).
Proof.
  unfold validateConfigStructType.
  destruct (IsStruct t); simpl; [|split; [discriminate|by intros [? _]]].
  destruct (Fields t) as [|f fields] eqn:Hfields; simpl Nat.eqb; cbv iota.
  { split; [discriminate|by intros (_ & ? & _)]. }
  destruct (validateFields_spec (TName t) (f :: fields) false) as [[Hall ->]|[Hall (e & ->)]].
  - simpl orb. split.
    + intros [= <-]. done.
    + by intros (_ & _ & _ & ->).
  - split; [discriminate|]. by intros (_ & _ & ? & _).
Qed.

(** X19.  [validateConfigStructType] accepts a type exactly when it is a
    struct with at least one field and every field is configurable: no pointer
    to a pointer, a json tag, exported, a [Create] that takes one argument that
    is no pointer and returns a pointer to the field type and an error, a
    [Destroy] without arguments and results.  It then reports constructed values
    exactly when some field type has a [Create].  [Add] of a template of a type
    that is not accepted returns the error, wrapped, and does nothing else: no
    source is asked and the package is as before. *)
Theorem validateConfigStructType_accepts `{Runtime} (t : StructType) :
  (forall has,
     validateConfigStructType t = (has, None) <->
     IsStruct t = true /\ Fields t <> [] /\ Forall configurableField (Fields t) /\
     has = existsb hasConstructor (Fields t)) /\
  (forall has e fields w,
     validateConfigStructType t = (has, Some e) ->
     has = false /\
     Add (Some {| templateType := t; templateFields := fields |}) w =
       (Return (None, Some (Wrapped e CannotUseAsConfigStruct)), w)).
Proof.
  split; [apply validateConfigStructType_spec|].
  intros has e fields w Hv.
  assert (has = false) as ->.
  { unfold validateConfigStructType in Hv.
    destruct (negb (IsStruct t)); [by injection Hv|].
    destruct (Nat.eqb _ 0); [by injection Hv|].
    destruct (validateFields_spec (TName t) (Fields t) false) as [[_ Hs]|[_ (e' & Hs)]];
      rewrite Hs in Hv; [discriminate|by injection Hv]. }
  split; [done|]. unfold Add. simpl. by rewrite Hv.
Qed.

(** The service has a constructed field.  *)
Lemma validateConfigStructType_accepts_witness :
  validateConfigStructType LifetimeExamples.serviceType = (true, None).
Proof.
  apply (proj1 (@validateConfigStructType_accepts Examples.plain LifetimeExamples.serviceType)).
  split; [reflexivity|]. split; [discriminate|]. split; [|reflexivity].
  constructor; [|constructor; [|constructor]].
  all: unfold configurableField; simpl; repeat split; intros; by simplify_eq.
Defined.

(** X20.  After an [Add] that returns a configurable, [Current] gives the
    struct of the current value, the one that [Use] gives, when no field type of
    the template has a [Create]; when one has, [Current] panics and [Use] is the
    way to the struct.  A call of [Use] changes nothing of this.  The [Wrapf]
    of the runtime is taken to make an error of a nil cause. *)
Theorem Current_without_constructors `{Runtime} (tmpl : template) (w : world)
    (c : configurable) (w' : world) (caller : string) :
  (forall m, WrapfNil m <> None) ->
  Add (Some tmpl) w = (Return (Some c, None), w') ->
  exists v rel w1,
    Use c caller w' = (Return (v, rel), w1) /\
    Current c w1 = Current c w' /\
    (existsb hasConstructor (Fields (templateType tmpl)) = false -> Current c w' = Return v) /\
    (existsb hasConstructor (Fields (templateType tmpl)) = true -> Current c w' = Panic).
Proof.
  intros Hw Ha.
  destruct (Add_bound _ _ _ _ Hw Ha) as (has & Hv & Hb & Hst & Hhas).
  apply validateConfigStructType_spec in Hv as (_ & _ & _ & Hex).
  destruct (use_bound c caller w' Hb) as (a & cv & Hcur & Hcv & Hu & _).
  eexists _, _, _. split; [exact Hu|]. unfold Current. rewrite Hhas, Hex, Hcur, Hcv.
  split.
  { destruct (existsb _ _); [done|]. simpl.
    rewrite list_lookup_insert_eq; [done|]. by eapply lookup_lt_Some. }
  split; by intros ->.
Qed.

Lemma Current_without_constructors_witness :
  exists v rel w1,
    @Use Examples.janBinder "main.go:42" (Examples.janWorld [Examples.P2]) =
      (Return (v, rel), w1) /\
    Current Examples.janBinder (Examples.janWorld [Examples.P2]) = Return v.
Proof.
  assert (Hw : forall m, @WrapfNil Examples.plain m <> None) by (intros m; discriminate).
  destruct (@Current_without_constructors Examples.plain (Examples.person "")
              (Examples.emptyWorld [Examples.P2]) Examples.janBinder
              (Examples.janWorld [Examples.P2]) "main.go:42" Hw
              ltac:(vm_compute; reflexivity))
    as (v & rel & w1 & Hu & _ & Hc & _).
  exists v, rel, w1. split; [exact Hu|]. exact (Hc eq_refl).
Defined.


(** *** Fields that a reload keeps, and their destructors *)

Lemma cleanupRound_last id cv :
  users cv = {[id]} -> snd (cleanupRound id cv) = destroyFields cv.
Proof.
  intros Hu. unfold cleanupRound. cbn [snd]. rewrite Hu.
  rewrite bool_decide_eq_true_2; [done|].
  rewrite difference_diag_L. apply size_empty.
Qed.

Lemma destroyField_calls rev f vf evs :
  destroyField rev f vf = Some evs -> evs <> [] -> evs = [CallDestroy rev (FName f)].
Proof. unfold destroyField. intros Hd Hne. by repeat case_match; simplify_eq. Qed.

(** A loop over the fields that did not panic has made the call of each
    field. *)
Lemma destroyAll_field rev fields : forall values evs i f vf,
  destroyAll rev fields values = (evs, false) ->
  fields !! i = Some f -> values !! i = Some vf ->
  exists called,
    destroyField rev f vf = Some called /\ forall ev, In ev called -> In ev evs.
Proof.
  induction fields as [|f0 fields IH]; intros values evs i f vf; simpl; [done|].
  destruct values as [|v0 values]; [discriminate|].
  destruct (destroyField rev f0 v0) as [evs0|] eqn:Hd; [|discriminate].
  destruct (destroyAll rev fields values) as [evs' p] eqn:Hrest.
  intros [= <- ->] Hf Hv. destruct i as [|i]; simpl in Hf, Hv.
  - injection Hf as <-. injection Hv as <-. exists evs0. split; [done|].
    intros ev Hin. apply in_app_iff. by left.
  - destruct (IH _ _ _ _ _ Hrest Hf Hv) as (called & Hc & Hin). exists called.
    split; [done|]. intros ev Hev. apply in_app_iff. right. by apply Hin.
Qed.

(** X21.  A reload destroys what it keeps.  A configurable has a current
    value that nobody but its creator uses, and [Notify(name)] loads a new
    value (the [Wrapf] of the runtime makes an error of a nil cause).  Then no
    destructor of the old value has panicked; the new value holds, in every
    field with another tag, what the old value holds there; the release of the
    old value has ended its loop of [cleanup], and the destructor calls of its
    fields are the last calls of the load, those of the fields that the new
    value has taken over among them. *)
Theorem Notify_destroys_kept_fields `{Runtime} (c : configurable) (name : string)
    (w : world) (a : nat) (cv : configValue) (c' : configurable) (w' : world)
    (i : nat) (f : StructField) (vf : value) :
  (forall m, WrapfNil m <> None) ->
  bound c w -> currentValue c = Some a -> heap w !! a = Some cv ->
  users cv = {[creatorID]} ->
  load c [name] w = (Return None, c', w') ->
  Fields (structType c) !! i = Some f -> Tag f <> name ->
  structPtrValue cv !! i = Some vf ->
  destroyField (revision cv) f vf <> Some [] ->
  Notify c name w = (Return tt, c', w') /\
  snd (destroyFields cv) = false /\
  exists new evs,
    currentValue c' = Some (length (heap w)) /\
    heap w' !! length (heap w) = Some new /\
    structPtrValue new !! i = Some vf /\
    calls w' = calls w ++ evs ++ fst (destroyFields cv) /\
    In (CallDestroy (revision cv) (FName f)) (fst (destroyFields cv)).
Proof.
  intros Hw Hb Ha Hcv Husers Hl Hfield Htag Hvf Hdtor.
  split; [unfold Notify; by rewrite Hl|].
  apply BinderFacts.load_nil_installs in Hl as (sv & evs & vs & Hf & _ & Hi); [|done].
  rewrite Ha, Hcv in Hf.
  pose proof (loadFields_length _ _ _ _ _ _ _ _ _ Hf) as Hlen.
  unfold newStruct in Hlen. rewrite length_map in Hlen.
  destruct (install_bound c sv (log (evs ++ vs) w) (bound_log _ _ _ Hb) Hlen)
    as (a0 & cv0 & Ha0 & Hcv0 & Hcases).
  rewrite Ha in Ha0. injection Ha0 as <-.
  cbn [heap log] in Hcv0. rewrite Hcv in Hcv0. injection Hcv0 as <-.
  rewrite (cleanupRound_last _ _ Husers) in Hcases.
  destruct (snd (destroyFields cv)) eqn:Hpanic.
  { rewrite Hcases in Hi. discriminate Hi. }
  destruct Hcases as (c1 & w1 & new & Hi1 & _ & _ & _ & Hcur & Hnew & Hsv & _ & Hcalls).
  rewrite Hi1 in Hi. injection Hi as <- <-. split; [done|].
  cbn [heap log] in Hcur, Hnew.
  destruct Hb as (a1 & cv1 & Ha1 & _ & Hcv1 & Hty & _).
  rewrite Ha in Ha1. injection Ha1 as <-. rewrite Hcv in Hcv1. injection Hcv1 as <-.
  exists new, (evs ++ vs). split; [done|]. split; [done|]. split.
  { rewrite Hsv, <- Hvf.
    destruct (BinderFacts.loadFields_frame _ _ _ _ _ _ _ _ _ Hf) as (_ & _ & Hkept).
    apply (Hkept i f Hfield Htag). simpl. unfold newStruct. rewrite length_map.
    by eapply lookup_lt_Some. }
  split.
  { rewrite Hcalls. cbn [calls log]. by rewrite <- app_assoc. }
  assert (Hall : destroyAll (revision cv) (Fields (valueType cv)) (structPtrValue cv) =
                 (fst (destroyFields cv), false)).
  { unfold destroyFields in *. destruct (destroyAll _ _ _) as [ds p]. simpl in *. by subst. }
  rewrite Hty in Hall.
  destruct (destroyAll_field _ _ _ _ _ _ _ Hall Hfield Hvf) as (called & Hc & Hin).
  apply Hin. rewrite (destroyField_calls _ _ _ _ Hc); [by left|].
  intros ->. by rewrite Hc in Hdtor.
Qed.

(** The name of the service changes: the database of revision 1 is in
    revision 2, and it has been destroyed. *)
Lemma Notify_destroys_kept_fields_witness :
  exists new evs,
    heap (snd (@load Examples.plain LifetimeExamples.serviceBinder ["name"]
                 (LifetimeExamples.serviceWorld [LifetimeExamples.renamed]))) !! 1 = Some new /\
    structPtrValue new !! 1 =
      Some (VPtr (TStruct "database")
              (Some (VStruct "database" [VStruct "dbConfig" [VString "postgres"]]))) /\
    calls (snd (@load Examples.plain LifetimeExamples.serviceBinder ["name"]
                  (LifetimeExamples.serviceWorld [LifetimeExamples.renamed]))) =
      [] ++ evs ++ fst (destroyFields LifetimeExamples.serviceValue) /\
    In (CallDestroy 1 "Db") (fst (destroyFields LifetimeExamples.serviceValue)).
Proof.
  assert (Hw : forall m, @WrapfNil Examples.plain m <> None) by (intros m; discriminate).
  assert (Hb : bound LifetimeExamples.serviceBinder
                 (LifetimeExamples.serviceWorld [LifetimeExamples.renamed])).
  { exists 0, LifetimeExamples.serviceValue. repeat split; reflexivity. }
  destruct (@Notify_destroys_kept_fields Examples.plain LifetimeExamples.serviceBinder "name"
              (LifetimeExamples.serviceWorld [LifetimeExamples.renamed]) 0
              LifetimeExamples.serviceValue
              (snd (fst (@load Examples.plain LifetimeExamples.serviceBinder ["name"]
                           (LifetimeExamples.serviceWorld [LifetimeExamples.renamed]))))
              (snd (@load Examples.plain LifetimeExamples.serviceBinder ["name"]
                      (LifetimeExamples.serviceWorld [LifetimeExamples.renamed])))
              1 LifetimeExamples.dbField
              (VPtr (TStruct "database")
                 (Some (VStruct "database" [VStruct "dbConfig" [VString "postgres"]])))
              Hw Hb eq_refl eq_refl eq_refl
              ltac:(vm_compute; reflexivity) eq_refl ltac:(discriminate) eq_refl
              ltac:(discriminate))
    as (_ & _ & new & evs & _ & Hnew & Hkept & Hcalls & Hin).
  exists new, evs. split; [exact Hnew|]. split; [exact Hkept|]. split; [exact Hcalls|].
  exact Hin.
Defined.

(** *** A capability that no source configures *)

(** X22.  A field type has a [Create], no source has a value for the tag of
    the field, and the fields in front of it resolve.  When the field is a
    pointer, the load goes on with the field as it is: every source is asked
    and [Create] is not called.  When it is no pointer, [Add] returns the error
    that the config is required, wrapped as a failed first load, whatever
    [Wrapf] does with a nil cause; it has asked every source, called no [Create]
    for the field, and made no value and no configurable. *)
Theorem Add_missing_capability `{Runtime} (tmpl : template) (w : world) (has : bool)
    (before : list StructField) (f : StructField) (after : list StructField)
    (k : constructor) (sv : list value) (evs : list event) :
  validateConfigStructType (templateType tmpl) = (has, None) ->
  Fields (templateType tmpl) = before ++ f :: after ->
  Constructor f = Some k ->
  match argZero k with Some zero => IsZero zero = true | None => True end ->
  Forall (silent (Tag f) (Some (nextConfigurable w))) (allSources w) ->
  loadFields (allSources w) (initial tmpl has w) None [] 0 before
    (newStruct (templateType tmpl)) = (Next sv, evs) ->
  (isPtr (FType f) = true ->
   loadFields (allSources w) (initial tmpl has w) None [] 0 (before ++ [f])
     (newStruct (templateType tmpl)) =
     (Next sv, evs ++ map (call_of (Tag f) (Some (nextConfigurable w))) (allSources w))) /\
  (isPtr (FType f) = false ->
   Add (Some tmpl) w =
     (Return (None, Some (Wrapped (Errorf (ConfigRequiredFor (Tag f))) FailedOnInitLoad)),
      log (evs ++ map (call_of (Tag f) (Some (nextConfigurable w))) (allSources w))
        (allocated w))).
Proof.
  intros Hv Hfields Hk Hzero Hs Hbefore.
  set (c := initial tmpl has w) in *.
  set (asked := map (call_of (Tag f) (Some (nextConfigurable w))) (allSources w)).
  assert (Hget : GetAndWatch (allSources w) (Tag f) (argZero k) (self c) =
                 ((None, None), asked)).
  { unfold GetAndWatch, sources_Get. rewrite (ChainFacts.getValue_silent _ _ _ _ Hs).
    destruct (argZero k) as [zero|]; [|done]. by rewrite Hzero. }
  assert (Hfield : forall structValue,
            loadField (allSources w) c None [] (length before) f structValue =
              (if negb (isPtr (FType f))
               then Leave (Return (Some (Errorf (ConfigRequiredFor (Tag f)))))
               else Next structValue, asked)).
  { intros structValue. unfold loadField, loadConstructed. rewrite Hk, Hget.
    by destruct (isPtr (FType f)). }
  split.
  - intros Hp. rewrite BinderFacts.loadFields_app, Hbefore. simpl.
    rewrite Hfield, Hp. simpl. by rewrite app_nil_r.
  - intros Hp.
    assert (Hload : load c [] (allocated w) =
                    (Return (Some (Errorf (ConfigRequiredFor (Tag f)))), c,
                     log (evs ++ asked) (allocated w))).
    { unfold load. simpl. unfold c at 2. simpl. rewrite Hfields. fold c.
      rewrite BinderFacts.loadFields_app, Hbefore. simpl.
      rewrite Hfield, Hp. done. }
    unfold Add. rewrite Hv. fold c. by rewrite Hload.
Qed.

(** A service whose database is no pointer, and a source without a
    database. *)
Lemma Add_missing_capability_witness :
  @Add Examples.lenient (Some LifetimeExamples.strictService)
     (Examples.emptyWorld [Examples.P2]) =
    (Return (None, Some (Wrapped (Errorf (ConfigRequiredFor "db")) FailedOnInitLoad)),
     log ([CallGet "inMemory" "name" (Some 0)] ++ [CallGet "inMemory" "db" (Some 0)])
       (allocated (Examples.emptyWorld [Examples.P2]))).
Proof.
  refine (proj2 (@Add_missing_capability Examples.lenient LifetimeExamples.strictService
            (Examples.emptyWorld [Examples.P2]) true [Examples.nameField]
            LifetimeExamples.dbValueField [] LifetimeExamples.createDatabase
            [VString "Jan"; VStruct "database" []] [CallGet "inMemory" "name" (Some 0)]
            _ eq_refl eq_refl eq_refl _ _) eq_refl).
  - vm_compute. reflexivity.
  - constructor; [reflexivity|constructor].
  - vm_compute. reflexivity.
Defined.


(** *** Using a value and letting go of it *)

(** X28.  [Use] and the release closure it returns undo each other.  For a
    caller that is not yet a user of the current value, [Use] returns the
    struct and a closure, and the call of that closure returns and leaves the
    package exactly as it was before [Use]: the same users, the loop of
    [cleanup] running, no destructor called. *)
Theorem Use_then_release (c : configurable) (w : world) (caller : string) :
  bound c w ->
  (forall a cv, currentValue c = Some a -> heap w !! a = Some cv -> caller ∉ users cv) ->
  exists v rel w1,
    Use c caller w = (Return (v, rel), w1) /\
    release rel w1 = (Return tt, w).
Proof.
  intros Hb Hnew.
  destruct (use_bound c caller w Hb) as (a & cv & Ha & Hcv & Hu & _).
  destruct Hb as (a0 & cv0 & Ha0 & _ & Hcv0 & _ & _ & Hin & Hex).
  rewrite Ha in Ha0. injection Ha0 as <-. rewrite Hcv in Hcv0. injection Hcv0 as <-.
  specialize (Hnew a cv Ha Hcv).
  eexists _, _, _. split; [exact Hu|].
  assert (Hlt : a < length (heap w)) by (by eapply lookup_lt_Some).
  unfold release. cbn [target callerID heap set_heap].
  rewrite list_lookup_insert_eq by done. cbn [exited]. rewrite Hex.
  unfold cleanupRound. cbn [users structPtrValue valueType revision].
  assert (Husers : ({[caller]} ∪ users cv) ∖ {[caller]} = users cv).
  { apply set_eq. intros x. rewrite elem_of_difference, elem_of_union, elem_of_singleton.
    split; [intros [[->|Hx] Hne]; done|].
    intros Hx. split; [by right|]. by intros ->. }
  rewrite Husers.
  assert (Hsize : bool_decide (size (users cv) = 0) = false).
  { apply bool_decide_eq_false. intros Hz. apply size_empty_inv in Hz.
    apply leibniz_equiv in Hz. rewrite Hz in Hin. by apply not_elem_of_empty in Hin. }
  rewrite Hsize. f_equal. unfold log, set_heap. cbn [allSources heap nextConfigurable
    configurableList calls]. rewrite app_nil_r, list_insert_insert_eq.
  destruct w as [srcs h next l cs]. cbn in *. f_equal.
  apply list_insert_id. rewrite Hcv. f_equal. destruct cv. cbn in *. by rewrite Hex.
Qed.

(** Revision 1 of the person, used from main.go and released. *)
Lemma Use_then_release_witness :
  exists v rel w1,
    Use Examples.janBinder "main.go:42" (Examples.janWorld [Examples.P2]) =
      (Return (v, rel), w1) /\
    release rel w1 = (Return tt, Examples.janWorld [Examples.P2]).
Proof.
  apply Use_then_release.
  - exists 0, Examples.janValue. repeat split; reflexivity.
  - intros a cv [= <-] [= <-]. simpl. intros Hin. apply elem_of_singleton in Hin.
    discriminate Hin.
Defined.

(** *** A notification that names no field *)

Section WithRuntime.
Context `{Runtime}.

Lemma loadFields_all_kept srcs c cv name fields : forall i sv,
  Forall (fun f => Tag f <> name) fields ->
  i + length fields <= length (structPtrValue cv) ->
  length sv = length (structPtrValue cv) ->
  exists sv',
    loadFields srcs c (Some cv) [name] i fields sv = (Next sv', []) /\
    length sv' = length sv /\
    (forall j, j < i -> sv' !! j = sv !! j) /\
    (forall j, i + length fields <= j -> sv' !! j = sv !! j) /\
    (forall j, i <= j < i + length fields -> sv' !! j = structPtrValue cv !! j).
Proof.
  induction fields as [|f fields IH]; intros i sv Htags Hlen Hsv; simpl.
  { exists sv. repeat split; try done. intros j Hj. lia. }
  apply Forall_cons in Htags as [Htag Htags]. simpl in Hlen.
  unfold loadField. simpl. apply String.eqb_neq in Htag. rewrite Htag. simpl.
  destruct (lookup_lt_is_Some_2 (structPtrValue cv) i) as [v Hv]; [lia|]. rewrite Hv.
  destruct (IH (S i) (<[i := v]> sv) Htags) as (sv' & -> & Hl & Hbelow & Habove & Hkept);
    [lia|by rewrite length_insert|].
  exists sv'. split; [done|]. rewrite length_insert in Hl. split; [done|]. split.
  - intros j Hj. rewrite Hbelow by lia. by rewrite list_lookup_insert_ne by lia.
  - split.
    + intros j Hj. rewrite Habove by lia. by rewrite list_lookup_insert_ne by lia.
    + intros j Hj. destruct (decide (j = i)) as [->|Hne].
      * rewrite Hbelow by lia. rewrite list_lookup_insert_eq by lia. done.
      * apply Hkept. lia.
Qed.

End WithRuntime.

(** X29.  A notification for a name that is the tag of no field asks no
    source and constructs nothing, and still goes through the rest of a load:
    the struct is a copy of the current one, [Validate] is called on it when the
    struct has one, and unless that fails the old value is released by its
    creator.  When that release ends the loop of [cleanup] in the panic of a
    destructor, the notification ends in that panic; else the copy becomes the
    current value with the next revision number. *)
Theorem Notify_names_no_field `{Runtime} (c : configurable) (name : string) (w : world)
    (a : nat) (cv : configValue) :
  bound c w -> currentValue c = Some a -> heap w !! a = Some cv ->
  Forall (fun f => Tag f <> name) (Fields (structType c)) ->
  let copy := VPtr (TStruct (TName (structType c)))
                (Some (VStruct (TName (structType c)) (structPtrValue cv))) in
  let validated := match Validate copy with Some _ => [CallValidate copy] | None => [] end in
  (forall e,
     Validate copy = Some (Some e) ->
     Notify c name w = (Return tt, c, log [CallValidate copy] w)) /\
  (Validate copy = None \/ Validate copy = Some None ->
   (snd (snd (cleanupRound creatorID cv)) = true ->
    Notify c name w = (Panic, c, log validated w)) /\
   (snd (snd (cleanupRound creatorID cv)) = false ->
    exists c' w' new,
      Notify c name w = (Return tt, c', w') /\
      currentValue c' = Some (length (heap w)) /\
      heap w' !! length (heap w) = Some new /\
      structPtrValue new = structPtrValue cv /\
      revision new = wrap_int (revision cv + 1) /\
      calls w' = calls w ++ validated ++ fst (snd (cleanupRound creatorID cv)))).
Proof.
  intros Hb Ha Hcv Htags copy validated.
  destruct Hb as (a0 & cv0 & Ha0 & Hrel & Hcv0 & Hty & Hlen & Hin & Hex).
  rewrite Ha in Ha0. injection Ha0 as <-. rewrite Hcv in Hcv0. injection Hcv0 as <-.
  assert (Hb : bound c w) by (exists a, cv; done).
  destruct (loadFields_all_kept (allSources w) c cv name (Fields (structType c)) 0
              (newStruct (structType c)) Htags)
    as (sv & Hloop & Hl & _ & _ & Hkept).
  { simpl. lia. }
  { unfold newStruct. by rewrite length_map. }
  assert (Hsv : sv = structPtrValue cv).
  { apply list_eq. intros j. destruct (decide (j < length (Fields (structType c)))) as [Hj|Hj].
    - apply Hkept. simpl. lia.
    - rewrite !lookup_ge_None_2; [done|lia|].
      rewrite Hl. unfold newStruct. rewrite length_map. lia. }
  subst sv.
  assert (Hlog : forall evs, log evs (log [] w) = log evs w).
  { intros evs. unfold log. simpl. by rewrite app_nil_r. }
  assert (Hload : load c [name] w =
            match Validate copy with
            | Some (Some e) =>
                (Return (Wrapf (Some e) InvalidConfig), c, log [CallValidate copy] w)
            | _ => install c (structPtrValue cv) (log validated w)
            end).
  { unfold load. rewrite Ha, Hcv, Hloop. fold copy. unfold validated.
    destruct (Validate copy) as [[e|]|]; by rewrite ?Hlog. }
  unfold Notify. rewrite Hload. split.
  - intros e ->. done.
  - intros Hv.
    assert (Hinstall : load c [name] w = install c (structPtrValue cv) (log validated w)).
    { rewrite Hload. by destruct Hv as [->| ->]. }
    rewrite <- Hload, Hinstall.
    destruct (install_bound c (structPtrValue cv) (log validated w) (bound_log _ _ _ Hb) Hlen)
      as (a1 & cv1 & Ha1 & Hcv1 & Hcases).
    rewrite Ha in Ha1. injection Ha1 as <-.
    cbn [heap log] in Hcv1. rewrite Hcv in Hcv1. injection Hcv1 as <-.
    split.
    + intros Hp. rewrite Hp in Hcases. by rewrite Hcases.
    + intros Hp. rewrite Hp in Hcases.
      destruct Hcases as (c' & w' & new & -> & _ & _ & _ & Hcur & Hnew & Hs & Hrev & Hcalls).
      exists c', w', new. split; [done|]. cbn [heap log calls] in *.
      repeat split; try done. by rewrite Hcalls, <- app_assoc.
Qed.

(** The city is notified to the binder of the person, which has a name
    only: revision 2 holds the same name.  The same notification to the cached
    service, whose cache has not been configured, ends in the panic of the
    destructor of the cache. *)
Lemma Notify_names_no_field_witness :
  (exists c' w' new,
     @Notify Examples.plain Examples.janBinder "city" (Examples.janWorld [Examples.P3]) =
       (Return tt, c', w') /\
     heap w' !! 1 = Some new /\
     structPtrValue new = [VString "Jan"] /\
     revision new = wrap_int (1 + 1)) /\
  @Add Examples.plain (Some LifetimeExamples.cached) (Examples.emptyWorld [Examples.P2]) =
    (Return (Some LifetimeExamples.cachedBinder, None),
     LifetimeExamples.cachedWorld [Examples.P2]) /\
  @Notify Examples.plain LifetimeExamples.cachedBinder "city"
     (LifetimeExamples.cachedWorld [Examples.P2]) =
    (Panic, LifetimeExamples.cachedBinder, log [] (LifetimeExamples.cachedWorld [Examples.P2])).
Proof.
  assert (Hb : bound Examples.janBinder (Examples.janWorld [Examples.P3])).
  { exists 0, Examples.janValue. repeat split; reflexivity. }
  assert (Hc : bound LifetimeExamples.cachedBinder
                 (LifetimeExamples.cachedWorld [Examples.P2])).
  { exists 0, LifetimeExamples.cachedValue. repeat split; reflexivity. }
  split; [|split; [vm_compute; reflexivity|]].
  - destruct (proj2 (proj2 (@Notify_names_no_field Examples.plain Examples.janBinder "city"
                       (Examples.janWorld [Examples.P3]) 0 Examples.janValue Hb eq_refl eq_refl
                       ltac:(constructor; [discriminate|constructor]))
                (or_introl eq_refl)) ltac:(vm_compute; reflexivity))
      as (c' & w' & new & Hn & _ & Hnew & Hs & Hrev & _).
    by exists c', w', new.
  - exact (proj1 (proj2 (@Notify_names_no_field Examples.plain LifetimeExamples.cachedBinder
                     "city" (LifetimeExamples.cachedWorld [Examples.P2]) 0
                     LifetimeExamples.cachedValue Hc eq_refl eq_refl
                     ltac:(constructor; [discriminate|constructor; [discriminate|constructor]]))
                (or_introl eq_refl)) ltac:(vm_compute; reflexivity)).
Defined.

End LifetimeFacts.

(** ** The order of the sources in the registry driven package *)

Module SourceOrderFacts.
Import Go Legacy Adding RegistryFacts LegacyFacts LoadFacts.

Section WithRuntime.
Context `{Runtime} `{Reflection}.

Lemma firstSource_found srcs ref tmpl : forall ns v evs,
  firstSource srcs ref tmpl = ((Some (ns, v), None), evs) ->
  exists before after,
    srcs = before ++ ns :: after /\
    Forall (fun s => GetInto s ref tmpl = (None, None)) before /\
    GetInto ns ref tmpl = (Some v, None) /\
    evs = map (fun s => CallGetInto (name s) ref) (before ++ [ns]).
Proof.
  induction srcs as [|s srcs IH]; intros ns v evs; simpl; [discriminate|].
  destruct (GetInto s ref tmpl) as [found [e|]] eqn:Hs; [discriminate|].
  destruct found as [found|].
  - intros [= <- <- <-]. exists [], srcs. by repeat split.
  - destruct (firstSource srcs ref tmpl) as [r evs'] eqn:Hr.
    intros [= -> <-]. destruct (IH _ _ _ eq_refl) as (before & after & -> & Hb & Hns & ->).
    exists (s :: before), after. repeat split; try done. by constructor.
Qed.

Lemma firstSource_answered srcs ref tmpl more :
  ~ Forall (fun s => GetInto s ref tmpl = (None, None)) srcs ->
  firstSource (srcs ++ more) ref tmpl = firstSource srcs ref tmpl.
Proof.
  induction srcs as [|s srcs IH]; simpl; intros Hns.
  { destruct Hns. constructor. }
  destruct (GetInto s ref tmpl) as [found [e|]] eqn:Hs; [done|].
  destruct found as [found|]; [done|].
  rewrite IH; [done|]. intros Hall. apply Hns. by constructor.
Qed.

Lemma loadConfigured_other srcs required k : forall config config' out evs,
  loadConfigured srcs required config = ((config', out), evs) ->
  ~ In k (map fst required) ->
  lookup_key k config' = lookup_key k config.
Proof.
  induction required as [|[ref tmpl] required IH]; intros config config' out evs; simpl.
  { by intros [= <- _ _]. }
  destruct (firstSource srcs ref tmpl) as [[found err] evs1].
  destruct err as [e|]; [by intros [= <- _ _]|].
  destruct found as [[ns v]|]; [|by intros [= <- _ _]].
  destruct (loadConfigured srcs required (assign ref v config)) as [[c o] evs'] eqn:Hr.
  intros [= -> -> _] Hk. rewrite (IH _ _ _ _ Hr); [|tauto].
  rewrite lookup_key_assign. destruct (String.eqb ref k) eqn:He; [|done].
  apply String.eqb_eq in He. tauto.
Qed.

Lemma loadConfigured_values srcs required : forall config config' evs,
  loadConfigured srcs required config = ((config', None), evs) ->
  NoDup (map fst required) ->
  forall ref tmpl, In (ref, tmpl) required ->
    exists ns v evs0,
      firstSource srcs ref tmpl = ((Some (ns, v), None), evs0) /\
      lookup_key ref config' = Some v.
Proof.
  induction required as [|[ref0 tmpl0] required IH]; intros config config' evs; simpl.
  { by intros _ _ ? ? []. }
  destruct (firstSource srcs ref0 tmpl0) as [[found err] evs1] eqn:Hfirst.
  destruct err as [e|]; [discriminate|].
  destruct found as [[ns v]|]; [|discriminate].
  destruct (loadConfigured srcs required (assign ref0 v config)) as [[c o] evs'] eqn:Hr.
  intros [= -> -> _] Hnd ref tmpl [Heq|Hin].
  - injection Heq as <- <-. exists ns, v, evs1. split; [done|].
    apply NoDup_cons in Hnd as [Hnotin _].
    rewrite (loadConfigured_other _ _ ref0 _ _ _ _ Hr).
    + by rewrite lookup_key_assign, String.eqb_refl.
    + intros Hin. by apply list_elem_of_In in Hin.
  - apply NoDup_cons in Hnd as [_ Hnd]. by eapply IH.
Qed.

Lemma resolveRefs_other srcs ctype info refs k : forall byRef byRef' out evs,
  resolveRefs srcs ctype info refs byRef = ((byRef', out), evs) ->
  ~ In k (map fst refs) ->
  lookup_key k byRef' = lookup_key k byRef.
Proof.
  induction refs as [|[ref b] refs IH]; intros byRef byRef' out evs; simpl.
  { by intros [= <- _ _]. }
  destruct (resolveConstructor srcs ctype info ref) as [[cv|r] evs1]; [|by intros [= <- _ _]].
  destruct (resolveRefs srcs ctype info refs (assign ref cv byRef)) as [[c o] evs'] eqn:Hr.
  intros [= -> -> _] Hk. rewrite (IH _ _ _ _ Hr); [|tauto].
  rewrite lookup_key_assign. destruct (String.eqb ref k) eqn:He; [|done].
  apply String.eqb_eq in He. tauto.
Qed.

Lemma resolveTypes_other srcs types k : forall byRef byRef' out evs,
  resolveTypes srcs types byRef = ((byRef', out), evs) ->
  (forall ctype info, In (ctype, info) types -> ~ In k (map fst (mustConstructByRef info))) ->
  lookup_key k byRef' = lookup_key k byRef.
Proof.
  induction types as [|[ctype info] types IH]; intros byRef byRef' out evs; simpl.
  { by intros [= <- _ _]. }
  destruct (resolveRefs srcs ctype info (mustConstructByRef info) byRef)
    as [[byRef1 o1] evs1] eqn:Hrefs.
  intros Hres Hk.
  assert (H1 : lookup_key k byRef1 = lookup_key k byRef).
  { eapply resolveRefs_other; [exact Hrefs|]. apply (Hk ctype info). by left. }
  destruct o1 as [r|]; [by injection Hres as <- _ _|].
  destruct (resolveTypes srcs types byRef1) as [[c o] evs'] eqn:Hr.
  injection Hres as -> -> _. rewrite (IH _ _ _ _ Hr); [done|].
  intros ctype' info' Hin. apply (Hk ctype' info'). by right.
Qed.

Lemma construct_other byRef k : forall config config' out evs,
  construct byRef config = ((config', out), evs) ->
  lookup_key k byRef = None ->
  lookup_key k config' = lookup_key k config.
Proof.
  induction byRef as [|[ref cv] byRef IH]; intros config config' out evs; simpl.
  { by intros [= <- _ _]. }
  intros Hc Hk.
  assert (Hne : String.eqb ref k = false /\ lookup_key k byRef = None).
  { unfold lookup_key in *. simpl in Hk. destruct (String.eqb ref k); [done|]. done. }
  destruct Hne as [Hne Hrest].
  destruct cv as [cv|]; [|by injection Hc as <- _ _].
  destruct (CreateOf cv) as [[result0 result1]|]; [|by injection Hc as <- _ _].
  destruct result1 as [e|].
  { destruct (asError result0); by injection Hc as <- _ _. }
  destruct result0 as [created|]; [|by injection Hc as <- _ _].
  destruct (construct byRef (assign ref created config)) as [[c o] evs'] eqn:Hr.
  injection Hc as -> -> _. rewrite (IH _ _ _ _ Hr Hrest).
  by rewrite lookup_key_assign, Hne.
Qed.

End WithRuntime.

(** X23.  [AddSource] puts the source, under its name without the white
    space around it, behind the sources added before, and refuses a name that
    is all white space and a nil source, leaving the package as it was.  It does
    not look at whether the package is loaded: a source added after [Load] is
    accepted, and nothing is read from it, [Get] answers as before and a
    further [Load] does nothing.  For a reference that a source added before
    has, or fails on, the new source is not asked. *)
Theorem AddSource_behind_the_others `{Runtime} `{Reflection} `{Strings} (name : string)
    (source : option (string -> value -> iface * option error)) (st : state) :
  (TrimSpace name = "" \/ source = None -> snd (AddSource name source st) = st /\
     fst (AddSource name source st) <> None) /\
  (forall getInto,
     TrimSpace name <> "" -> source = Some getInto ->
     fst (AddSource name source st) = None /\
     sources (snd (AddSource name source st)) =
       sources st ++ [{| Legacy.name := TrimSpace name; GetInto := getInto |}] /\
     (forall ref, Get ref (snd (AddSource name source st)) = Get ref st) /\
     (loaded st = true ->
      Load (snd (AddSource name source st)) =
        ((Return None, snd (AddSource name source st)), [])) /\
     (forall ref tmpl,
        ~ Forall (fun s => GetInto s ref tmpl = (None, None)) (sources st) ->
        firstSource (sources (snd (AddSource name source st))) ref tmpl =
          firstSource (sources st) ref tmpl)).
Proof.
  unfold AddSource. split.
  - intros [Hname|Hsrc].
    + rewrite Hname. done.
    + rewrite Hsrc. by destruct (String.eqb _ _).
  - intros getInto Hname ->. apply String.eqb_neq in Hname. rewrite Hname. simpl.
    split; [done|]. split; [done|]. split; [done|]. split.
    + intros Hl. unfold Load. simpl. by rewrite Hl.
    + intros ref tmpl Hans. by apply firstSource_answered.
Qed.

Lemma AddSource_behind_the_others_witness :
  sources (snd (@AddSource AddingExamples.spaces " third " (Some (AddingExamples.named "Kees"))
                  AddingExamples.twoNames)) =
    sources AddingExamples.twoNames ++
      [{| name := "third"; GetInto := AddingExamples.named "Kees" |}].
Proof.
  exact (proj1 (proj2 (proj2
    (@AddSource_behind_the_others Examples.plain Examples.creating AddingExamples.spaces
       " third " (Some (AddingExamples.named "Kees")) AddingExamples.twoNames)
    (AddingExamples.named "Kees") ltac:(discriminate) eq_refl))).
Defined.

(** X24.  The first source that has a reference gives its value.  [Load]
    returns nil on a package that was not loaded (the [Wrapf] of the runtime
    makes an error of a nil cause); the reference was declared once with
    [MustConfigure] or [MayConfigure] and is not one to construct.  Then the
    sources are the sources in front, which answer nil for the reference, the
    source that has it, and the sources behind; [Get] gives the value of that
    source, and the loop for the reference has asked the sources in front and
    that source, in this order, and none behind. *)
Theorem Load_takes_first_source `{Runtime} `{Reflection} (st st' : state)
    (evs : list event) (ref : string) (tmpl : value) :
  (forall m, WrapfNil m <> None) ->
  loaded st = false ->
  Load st = ((Return None, st'), evs) ->
  NoDup (map fst (mustConfigureByRef st)) ->
  In (ref, tmpl) (mustConfigureByRef st) ->
  (forall ctype info, In (ctype, info) (constructorsByType st) ->
     ~ In ref (map fst (mustConstructByRef info))) ->
  exists before ns after v,
    sources st = before ++ ns :: after /\
    Forall (fun s => GetInto s ref tmpl = (None, None)) before /\
    GetInto ns ref tmpl = (Some v, None) /\
    Get ref st' = Some v /\
    snd (firstSource (sources st) ref tmpl) =
      map (fun s => CallGetInto (name s) ref) (before ++ [ns]).
Proof.
  intros Hw Hl Hload Hnd Hin Hnot. unfold Load in Hload. rewrite Hl in Hload.
  destruct (Nat.eqb (length (sources st)) 0); [discriminate|].
  destruct (loadConfigured (sources st) (mustConfigureByRef st) [])
    as [[config out1] evs1] eqn:H1.
  destruct out1 as [r|].
  { injection Hload as -> _ _. apply loadConfigured_exit in H1 as [e He]. discriminate. }
  destruct (resolveTypes (sources st) (constructorsByType st) [])
    as [[byRef out2] evs2] eqn:H2.
  destruct out2 as [r|].
  { injection Hload as -> _ _. apply resolveTypes_exit in H2 as [?|[e ?]]; done. }
  destruct (construct byRef config) as [[config' out3] evs3] eqn:H3.
  destruct out3 as [r|].
  { injection Hload as -> _ _. apply construct_exit in H3 as [?|[e ?]]; done. }
  injection Hload as <- _.
  destruct (loadConfigured_values _ _ _ _ _ H1 Hnd ref tmpl Hin) as (ns & v & evs0 & Hfirst & Hv).
  destruct (firstSource_found _ _ _ _ _ _ Hfirst) as (before & after & Hs & Hb & Hns & Hevs).
  exists before, ns, after, v. split; [done|]. split; [done|]. split; [done|]. split.
  - unfold Get. simpl.
    rewrite (construct_other _ ref _ _ _ _ H3); [done|].
    by rewrite (resolveTypes_other _ _ ref _ _ _ _ H2 Hnot).
  - by rewrite Hfirst.
Qed.

Lemma Load_takes_first_source_witness :
  exists before ns after v,
    sources AddingExamples.twoNames = before ++ ns :: after /\
    GetInto ns "ms.name" (VString "") = (Some v, None) /\
    Get "ms.name" (snd (fst (@Load Examples.plain Examples.creating AddingExamples.twoNames)))
      = Some v.
Proof.
  assert (Hw : forall m, @WrapfNil Examples.plain m <> None) by (intros m; discriminate).
  destruct (@Load_takes_first_source Examples.plain Examples.creating AddingExamples.twoNames
              (snd (fst (@Load Examples.plain Examples.creating AddingExamples.twoNames)))
              (snd (@Load Examples.plain Examples.creating AddingExamples.twoNames))
              "ms.name" (VString "") Hw eq_refl ltac:(vm_compute; reflexivity)
              ltac:(simpl; apply NoDup_singleton) (or_introl eq_refl)
              (fun ctype info (Hin : In (ctype, info) []) => match Hin with end))
    as (before & ns & after & v & Hs & _ & Hns & Hget & _).
  by exists before, ns, after, v.
Defined.

End SourceOrderFacts.

(** ** The package with [Require] *)

Module RequiringFacts.
Import Go Requiring RegistryFacts.

Lemma askSources_found srcs name tmpl : forall values found values' found' out evs,
  askSources srcs name tmpl values found = ((values', found', out), evs) ->
  found ⊆ found'.
Proof.
  induction srcs as [|[sname [g|]] srcs IH]; intros values found values' found' out evs; simpl.
  - by intros [= _ <- _ _].
  - destruct (g name tmpl) as [v [e|]]; [by intros [= _ <- _ _]|].
    destruct v as [v|].
    + destruct (askSources srcs name tmpl _ _) as [[[vs fs] o] evs'] eqn:Hr.
      intros [= <- <- <- _]. apply IH in Hr.
      intros x Hx. apply Hr. apply elem_of_union. by right.
    + destruct (askSources srcs name tmpl _ _) as [[[vs fs] o] evs'] eqn:Hr.
      intros [= <- <- <- _]. by apply IH in Hr.
  - by intros [= _ <- _ _].
Qed.

Lemma askSources_other srcs name tmpl k : forall values found values' found' out evs,
  askSources srcs name tmpl values found = ((values', found', out), evs) ->
  k <> name -> Legacy.lookup_key k values' = Legacy.lookup_key k values.
Proof.
  induction srcs as [|[sname [g|]] srcs IH]; intros values found values' found' out evs; simpl.
  - by intros [= <- _ _ _].
  - destruct (g name tmpl) as [v [e|]]; [by intros [= <- _ _ _]|].
    destruct v as [v|].
    + destruct (askSources srcs name tmpl _ _) as [[[vs fs] o] evs'] eqn:Hr.
      intros [= <- <- <- _] Hk. rewrite (IH _ _ _ _ _ _ Hr Hk), lookup_key_assign.
      destruct (String.eqb name k) eqn:He; [|done]. apply String.eqb_eq in He. congruence.
    + destruct (askSources srcs name tmpl _ _) as [[[vs fs] o] evs'] eqn:Hr.
      intros [= <- <- <- _] Hk. by rewrite (IH _ _ _ _ _ _ Hr Hk).
  - by intros [= <- _ _ _].
Qed.

(** A loop over the sources that ran to its end: every source was quiet, or
    there is a first source with a value. *)
Lemma askSources_first srcs name tmpl : forall values found values' found' evs,
  askSources srcs name tmpl values found = ((values', found', None), evs) ->
  (Forall (quiet name tmpl) srcs /\ values' = values /\ found' = found) \/
  (exists before sname g v after evs',
     srcs = before ++ (sname, Some g) :: after /\
     Forall (quiet name tmpl) before /\ g name tmpl = (Some v, None) /\
     askSources after name tmpl (Legacy.assign name v values) ({[sname]} ∪ found) =
       ((values', found', None), evs')).
Proof.
  induction srcs as [|[sname [g|]] srcs IH]; intros values found values' found' evs; simpl.
  - intros [= <- <- _]. left. by repeat split.
  - destruct (g name tmpl) as [v [e|]] eqn:Hg; [discriminate|].
    destruct v as [v|].
    + destruct (askSources srcs name tmpl _ _) as [[[vs fs] o] evs'] eqn:Hr.
      intros [= <- <- -> _]. right. exists [], sname, g, v, srcs, evs'. by repeat split.
    + destruct (askSources srcs name tmpl _ _) as [[[vs fs] o] evs'] eqn:Hr.
      intros [= <- <- -> _].
      destruct (IH _ _ _ _ _ Hr) as [(Hq & -> & ->)|(before & s & g' & v & after & e' & -> & Hq & Hv & Ha)].
      * left. repeat split; try done. constructor; [by exists g|done].
      * right. exists ((sname, Some g) :: before), s, g', v, after, e'.
        repeat split; try done. constructor; [by exists g|done].
  - discriminate.
Qed.

(** With exactly one name found, exactly one source has a value. *)
Lemma askSources_one srcs name tmpl values values' found' evs :
  NoDup (map fst srcs) ->
  askSources srcs name tmpl values ∅ = ((values', found', None), evs) ->
  size found' = 1 ->
  exists before sname g v after,
    srcs = before ++ (sname, Some g) :: after /\
    g name tmpl = (Some v, None) /\
    Forall (quiet name tmpl) (before ++ after) /\
    Legacy.lookup_key name values' = Some v.
Proof.
  intros Hnd Ha Hsize.
  destruct (askSources_first _ _ _ _ _ _ _ _ Ha)
    as [(_ & _ & ->)|(before & s & g & v & after & e' & -> & Hq & Hv & Hafter)].
  { by rewrite size_empty in Hsize. }
  exists before, s, g, v, after. split; [done|]. split; [done|].
  destruct (askSources_first _ _ _ _ _ _ _ _ Hafter)
    as [(Hq' & -> & _)|(b2 & s2 & g2 & v2 & a2 & e2 & -> & _ & _ & Ha2)].
  - split; [by apply Forall_app|]. by rewrite lookup_key_assign, String.eqb_refl.
  - exfalso. apply askSources_found in Ha2.
    assert (Hne : s <> s2).
    { rewrite map_app in Hnd. apply NoDup_app in Hnd as (_ & _ & Hnd). simpl in Hnd.
      apply NoDup_cons in Hnd as [Hnotin _]. intros ->. apply Hnotin.
      rewrite map_app. simpl. set_solver. }
    assert (Hs : s ∈ found') by (apply Ha2; set_solver).
    assert (Hs2 : s2 ∈ found') by (apply Ha2; set_solver).
    apply size_1_elem_of in Hsize as [x Hx]. apply leibniz_equiv in Hx. subst found'.
    apply elem_of_singleton in Hs, Hs2. congruence.
Qed.

Lemma loadRequired_other srcs names k : forall values values' out evs,
  loadRequired srcs names values = ((values', out), evs) ->
  ~ In k (map fst names) ->
  Legacy.lookup_key k values' = Legacy.lookup_key k values.
Proof.
  induction names as [|[name tmpl] names IH]; intros values values' out evs; simpl.
  { by intros [= <- _ _]. }
  destruct (askSources srcs name tmpl values ∅) as [[[vs fs] o] evs1] eqn:Ha.
  intros Hl Hk.
  assert (Hvs : Legacy.lookup_key k vs = Legacy.lookup_key k values).
  { eapply askSources_other; [exact Ha|]. intros ->. tauto. }
  destruct o as [r|]; [by injection Hl as <- _ _|].
  destruct (negb (Nat.eqb (size fs) 1)); [by injection Hl as <- _ _|].
  destruct (loadRequired srcs names vs) as [r evs'] eqn:Hr.
  injection Hl as -> _. rewrite (IH _ _ _ _ Hr); [done|tauto].
Qed.

Lemma loadRequired_one srcs names : forall values values' evs,
  NoDup (map fst srcs) -> NoDup (map fst names) ->
  loadRequired srcs names values = ((values', None), evs) ->
  forall name tmpl, In (name, tmpl) names ->
    exists before sname g v after,
      srcs = before ++ (sname, Some g) :: after /\
      g name tmpl = (Some v, None) /\
      Forall (quiet name tmpl) (before ++ after) /\
      Legacy.lookup_key name values' = Some v.
Proof.
  induction names as [|[name0 tmpl0] names IH]; intros values values' evs Hs Hnd; simpl.
  { by intros _ ? ? []. }
  destruct (askSources srcs name0 tmpl0 values ∅) as [[[vs fs] o] evs1] eqn:Ha.
  destruct o as [r|]; [discriminate|].
  destruct (Nat.eqb (size fs) 1) eqn:Hsize; simpl; [|discriminate].
  apply Nat.eqb_eq in Hsize.
  destruct (loadRequired srcs names vs) as [[vs' o'] evs'] eqn:Hr.
  intros [= -> -> _] name tmpl [Heq|Hin].
  - injection Heq as <- <-.
    destruct (askSources_one _ _ _ _ _ _ _ Hs Ha Hsize)
      as (before & s & g & v & after & -> & Hv & Hq & Hlook).
    exists before, s, g, v, after. repeat split; try done.
    rewrite (loadRequired_other _ _ name0 _ _ _ _ Hr); [done|].
    apply NoDup_cons in Hnd as [Hnotin _]. intros Hin. by apply list_elem_of_In in Hin.
  - apply NoDup_cons in Hnd as [_ Hnd]. by eapply IH.
Qed.

Section WithConstructors.
Context `{Constructors}.

(** While [createdByName] is nil, the loop over the values ends without a
    call of [Create], or with the error of a [Create], or in the panic of the
    write to the nil map. *)
Lemma constructAll_nil values :
  fst (fst (constructAll values None)) = None /\
  match snd (fst (constructAll values None)) with
  | None =>
      snd (constructAll values None) = [] /\
      Forall (fun e => CreateOf (snd e) = None) values
  | Some r =>
      exists name v,
        snd (constructAll values None) = [CallCreateOf name v] /\
        (r = Panic \/ exists cause, r = Return (Some (FailedToConstruct cause name)))
  end.
Proof.
  induction values as [|[name v] values IH]; simpl; [by repeat split|].
  destruct (CreateOf v) as [[made [e|]]|] eqn:Hc; simpl.
  - split; [done|]. exists name, v. split; eauto.
  - split; [done|]. exists name, v. split; eauto.
  - destruct IH as [Hcreated IH]. split; [done|].
    destruct (snd (fst (constructAll values None))) as [r|].
    + done.
    + destruct IH as [Hevs Hall]. split; [done|]. by constructor.
Qed.

Lemma askSources_exit srcs name tmpl : forall values found values' found' r evs,
  askSources srcs name tmpl values found = ((values', found', Some r), evs) ->
  r <> Return None.
Proof.
  induction srcs as [|[sn [g|]] srcs IH]; intros values found values' found' r evs; simpl;
    [discriminate| |by intros [= _ _ <- _]].
  destruct (g name tmpl) as [v [er|]]; [by intros [= _ _ <- _]|].
  destruct v as [v|].
  - destruct (askSources srcs name tmpl _ _) as [[[a b] o] e'] eqn:Hr.
    intros [= _ _ -> _]. by eapply IH.
  - destruct (askSources srcs name tmpl _ _) as [[[a b] o] e'] eqn:Hr.
    intros [= _ _ -> _]. by eapply IH.
Qed.

Lemma loadRequired_exit srcs names : forall values values' r evs,
  loadRequired srcs names values = ((values', Some r), evs) -> r <> Return None.
Proof.
  induction names as [|[n t] names IH]; intros vs vs' r e; simpl; [discriminate|].
  destruct (askSources srcs n t vs ∅) as [[[vs1 fs] o] e1] eqn:Ha.
  destruct o as [r0|].
  - intros [= _ <- _]. by eapply askSources_exit.
  - destruct (negb (Nat.eqb (size fs) 1)); [by intros [= _ <- _]|].
    destruct (loadRequired srcs names vs1) as [[a o] e'] eqn:Hrr.
    intros [= _ -> _]. by eapply IH.
Qed.

Lemma askSources_reads srcs name tmpl : forall values found,
  Forall (fun ev => is_construction ev = false) (snd (askSources srcs name tmpl values found)).
Proof.
  induction srcs as [|[sn [g|]] srcs IH]; intros values found; simpl;
    [constructor| |constructor].
  destruct (g name tmpl) as [v [er|]]; [by repeat constructor|].
  destruct v as [v|].
  - specialize (IH (Legacy.assign name v values) ({[sn]} ∪ found)).
    destruct (askSources srcs name tmpl _ _) as [a e']. simpl in *. by constructor.
  - specialize (IH values found).
    destruct (askSources srcs name tmpl _ _) as [a e']. simpl in *. by constructor.
Qed.

Lemma loadRequired_reads srcs names : forall values,
  Forall (fun ev => is_construction ev = false) (snd (loadRequired srcs names values)).
Proof.
  induction names as [|[n t] names IH]; intros vs; simpl; [constructor|].
  pose proof (askSources_reads srcs n t vs ∅) as Hask.
  destruct (askSources srcs n t vs ∅) as [[[vs1 fs] o] e1]. simpl in Hask.
  destruct o as [r0|]; [done|].
  destruct (negb (Nat.eqb (size fs) 1)); [done|].
  specialize (IH vs1). destruct (loadRequired srcs names vs1) as [a e'].
  simpl in *. by apply Forall_app.
Qed.

Lemma lookup_key_Some_In {A} (k : string) (v : A) (m : list (string * A)) :
  Legacy.lookup_key k m = Some v -> In (k, v) m.
Proof.
  unfold Legacy.lookup_key. induction m as [|[k1 v1] m IH]; simpl; [discriminate|].
  destruct (String.eqb k1 k) eqn:He.
  - apply String.eqb_eq in He as ->. simpl. intros [= ->]. by left.
  - intros Hm. right. by apply IH.
Qed.

Lemma Load_again st :
  valueByName st <> None -> Load st = ((Return None, st), []).
Proof. unfold Load. by destruct (valueByName st). Qed.

Lemma Load_first st r st' evs :
  valueByName st = None -> Load st = ((r, st'), evs) ->
  sources st' = sources st /\ required st' = required st /\
  valueByName st' <> None /\
  (createdByName st = None -> createdByName st' = None).
Proof.
  intros Hnil. unfold Load. rewrite Hnil.
  destruct (loadRequired (sources st) (required st) []) as [[values [r1|]] evs1].
  { intros [= <- <- _]. by repeat split. }
  destruct (constructAll values (createdByName st)) as [[created out2] evs2] eqn:Hc.
  intros Hl. assert (st' = {| sources := sources st; required := required st;
                              valueByName := Some values; createdByName := created |}) as ->.
  { by destruct out2; injection Hl as _ <- _. }
  simpl. repeat split; try done. intros Hcreated. rewrite Hcreated in Hc.
  pose proof (constructAll_nil values) as [Hn _]. by rewrite Hc in Hn.
Qed.

End WithConstructors.

(** X25.  [Load] wants each required name in exactly one source.  When the
    first [Load] returns nil, each required name has a value in one of the
    sources and none in all the others, and [Get] of the name returns that
    value, without asking a source again.  The names of the sources and the
    required names are the keys of maps, so each of them occurs once. *)
Theorem Load_wants_exactly_one_source `{Constructors} (st st' : state)
    (evs : list event) (name : string) (tmpl : iface) :
  valueByName st = None -> createdByName st = None ->
  NoDup (map fst (sources st)) -> NoDup (map fst (required st)) ->
  Load st = ((Return None, st'), evs) ->
  In (name, tmpl) (required st) ->
  exists before sourceName getInto after v,
    sources st = before ++ (sourceName, Some getInto) :: after /\
    getInto name tmpl = (Some v, None) /\
    Forall (quiet name tmpl) (before ++ after) /\
    Get name st' = ((Return (Some v, None), st'), []).
Proof.
  intros Hnil Hcreated Hs Hn Hl Hin.
  destruct (Load_first _ _ _ _ Hnil Hl) as (_ & Hreq & Hloaded & Hc).
  specialize (Hc Hcreated).
  unfold Load in Hl. rewrite Hnil in Hl.
  destruct (loadRequired (sources st) (required st) []) as [[values [r1|]] evs1] eqn:Hr.
  { injection Hl as -> _ _. by apply loadRequired_exit in Hr. }
  destruct (loadRequired_one _ _ _ _ _ Hs Hn Hr name tmpl Hin)
    as (before & s & g & v & after & Hsrc & Hv & Hq & Hlook).
  exists before, s, g, after, v. split; [done|]. split; [done|]. split; [done|].
  unfold Get. rewrite (Load_again st' Hloaded), Hreq, Hc.
  destruct (lookup_key_In name tmpl (required st) Hin) as [t ->]. simpl.
  assert (Hvals : valueByName st' = Some values).
  { destruct (constructAll values (createdByName st)) as [[created [r|]] evs2];
      by simplify_eq. }
  rewrite Hvals. simpl. by rewrite Hlook.
Qed.

Lemma Load_wants_exactly_one_source_witness :
  exists before sourceName getInto after v,
    sources RequiringExamples.oneName = before ++ (sourceName, Some getInto) :: after /\
    getInto "name" (Some (VString "")) = (Some v, None) /\
    Forall (quiet "name" (Some (VString ""))) (before ++ after) /\
    @Get RequiringExamples.plainValues "name"
       (snd (fst (@Load RequiringExamples.plainValues RequiringExamples.oneName))) =
      ((Return (Some v, None),
        snd (fst (@Load RequiringExamples.plainValues RequiringExamples.oneName))), []).
Proof.
  apply (@Load_wants_exactly_one_source RequiringExamples.plainValues
           RequiringExamples.oneName
           (snd (fst (@Load RequiringExamples.plainValues RequiringExamples.oneName)))
           (snd (@Load RequiringExamples.plainValues RequiringExamples.oneName))
           "name" (Some (VString ""))).
  - reflexivity.
  - reflexivity.
  - simpl. apply NoDup_cons_2; [|apply NoDup_singleton].
    intros Hin. apply list_elem_of_In in Hin. destruct Hin as [Heq|[]]. discriminate Heq.
  - simpl. apply NoDup_singleton.
  - vm_compute. reflexivity.
  - left. reflexivity.
Defined.

(** X26.  [Load] reads the sources once, whatever comes of it.  After the
    first [Load] (it may have returned an error or panicked) [valueByName] is
    a map: every further [Load] returns nil and asks nothing, and [Require]
    is refused.  [Get] of a required name that the first [Load] did not reach
    then passes its checks and panics. *)
Theorem Load_runs_once `{Constructors} (st : state) (r : outcome (option failure))
    (st' : state) (evs : list event) :
  valueByName st = None ->
  Load st = ((r, st'), evs) ->
  Load st' = ((Return None, st'), []) /\
  (forall name tmpl, Require name tmpl st' = (Some (RequireAfterLoad name), st')) /\
  (forall name,
     createdByName st = None ->
     is_Some (Legacy.lookup_key name (required st)) ->
     entry name (valueByName st') = None ->
     Get name st' = ((Panic, st'), [])).
Proof.
  intros Hnil Hl. destruct (Load_first _ _ _ _ Hnil Hl) as (_ & Hreq & Hloaded & Hc).
  split; [by apply Load_again|]. split.
  - intros name tmpl. unfold Require. by destruct (valueByName st').
  - intros name Hcreated [t Hname] Hmissing. unfold Get.
    rewrite (Load_again st' Hloaded), Hreq, Hname, (Hc Hcreated), Hmissing. done.
Qed.

(** No source has the name: the first [Get] returns the error of [Load],
    the second panics. *)
Lemma Load_runs_once_witness :
  fst (fst (@Get RequiringExamples.plainValues "name" RequiringExamples.noName)) =
    Return (None, Some (LoadFailed "name")) /\
  @Get RequiringExamples.plainValues "name"
     (snd (fst (@Load RequiringExamples.plainValues RequiringExamples.noName))) =
    ((Panic, snd (fst (@Load RequiringExamples.plainValues RequiringExamples.noName))), []).
Proof.
  split; [vm_compute; reflexivity|].
  refine (proj2 (proj2 (@Load_runs_once RequiringExamples.plainValues
            RequiringExamples.noName
            (fst (fst (@Load RequiringExamples.plainValues RequiringExamples.noName)))
            (snd (fst (@Load RequiringExamples.plainValues RequiringExamples.noName)))
            (snd (@Load RequiringExamples.plainValues RequiringExamples.noName))
            eq_refl _)) "name" eq_refl _ _).
  - vm_compute. reflexivity.
  - vm_compute. eauto.
  - vm_compute. reflexivity.
Defined.

(** X27.  [Load] cannot keep what it constructs.  [createdByName] is
    declared and never made, and stays nil.  When the first [Load] returns
    nil it has called no [Create] and no value it holds is a [Constructor];
    when it calls a [Create], that is its last call, and it returns the error
    of the [Create] or panics writing to the nil map. *)
Theorem Load_cannot_construct `{Constructors} (st : state) (r : outcome (option failure))
    (st' : state) (evs : list event) :
  valueByName st = None -> createdByName st = None ->
  Load st = ((r, st'), evs) ->
  createdByName st' = None /\
  (r = Return None ->
   Forall (fun ev => is_construction ev = false) evs /\
   forall name v, entry name (valueByName st') = Some v -> CreateOf v = None) /\
  (forall name v, In (CallCreateOf name v) evs ->
     (exists reads, evs = reads ++ [CallCreateOf name v]) /\
     (r = Panic \/ exists cause, r = Return (Some (FailedToConstruct cause name)))).
Proof.
  intros Hnil Hcreated Hl.
  destruct (Load_first _ _ _ _ Hnil Hl) as (_ & _ & _ & Hc). split; [by apply Hc|].
  assert (Hno : forall name v reads,
            Forall (fun ev => is_construction ev = false) reads ->
            ~ In (CallCreateOf name v) reads).
  { intros name v reads Hall Hin. rewrite Forall_forall in Hall.
    apply list_elem_of_In in Hin. by apply Hall in Hin. }
  unfold Load in Hl. rewrite Hnil, Hcreated in Hl.
  pose proof (loadRequired_reads (sources st) (required st) []) as Hreads.
  destruct (loadRequired (sources st) (required st) []) as [[values [r1|]] evs1] eqn:Hr.
  { injection Hl as <- <- <-. simpl in Hreads. apply loadRequired_exit in Hr. split.
    - by intros ->.
    - intros name v Hin. by apply Hno in Hin. }
  simpl in Hreads.
  pose proof (constructAll_nil values) as [Hcr Hout].
  destruct (constructAll values None) as [[created [r2|]] evs2]; simpl in Hcr, Hout.
  - injection Hl as <- <- <-.
    destruct Hout as (name' & v' & -> & Hr2). split.
    + intros ->. by destruct Hr2 as [?|[? ?]].
    + intros name v Hin. apply in_app_iff in Hin as [Hin|[Heq|[]]]; [by apply Hno in Hin|].
      injection Heq as <- <-. split; [by exists evs1|done].
  - injection Hl as <- <- <-. destruct Hout as [-> Hall]. rewrite app_nil_r. split.
    + intros _. split; [done|]. simpl. intros name v Hv.
      apply lookup_key_Some_In in Hv. rewrite Forall_forall in Hall.
      apply list_elem_of_In in Hv. by apply Hall in Hv.
    + intros name v Hin. by apply Hno in Hin.
Qed.

(** The value of the one source is a [Constructor]: [Load] calls its
    [Create] and panics. *)
Lemma Load_cannot_construct_witness :
  fst (fst (@Load RequiringExamples.constructing RequiringExamples.oneName)) = Panic /\
  createdByName
    (snd (fst (@Load RequiringExamples.constructing RequiringExamples.oneName))) = None.
Proof.
  destruct (@Load_cannot_construct RequiringExamples.constructing RequiringExamples.oneName
              (fst (fst (@Load RequiringExamples.constructing RequiringExamples.oneName)))
              (snd (fst (@Load RequiringExamples.constructing RequiringExamples.oneName)))
              (snd (@Load RequiringExamples.constructing RequiringExamples.oneName))
              eq_refl eq_refl ltac:(vm_compute; reflexivity))
    as (Hcreated & _ & Hcalls).
  split; [|exact Hcreated].
  destruct (Hcalls "name" (VString "Jan") ltac:(vm_compute; right; right; left; reflexivity))
    as [_ [Hp|[cause Hc]]]; [exact Hp|].
  vm_compute in Hc. discriminate Hc.
Defined.

End RequiringFacts.
